(** * Coverage styling, band statistics and replay logic of ol3 (coverage branch)

    A shallow embedding of the coverage core of the repository:
    [ol/coverage/Band], [ol/style/Monochrome], [ol/style/Pseudocolor],
    [ol/style/RGB], [ol/source/Coverage], the canvas and WebGL coverage layer
    renderers and [ol/render/webgl/PolygonReplay].

    Numbers.  A JavaScript number is modelled by [number]: the three special
    values NaN, -Infinity, +Infinity and the finite values, which are taken
    to be exact rationals.  Rounding of finite results, overflow and the sign
    of zero are not modelled; comparisons, NaN propagation and the arithmetic
    of the infinities follow the language. *)

From Stdlib Require Import QArith Qabs Qround Lqa Lia ZArith List String Ascii Bool.
From Stdlib Require Import Permutation Sorted.
From stdpp Require Import base list gmap strings pretty.
Import ListNotations.

Local Open Scope Q_scope.

(* ================================================================== *)
(** * Part I. The embedding                                            *)
(* ================================================================== *)

(** ** JavaScript numbers and values *)

Inductive number : Type :=
  | NaN
  | NInf
  | PInf
  | Fin (q : Q).

(** Values that the modelled code stores in fields or array slots. *)
Inductive value : Type :=
  | VUndefined
  | VNull
  | VNum (n : number)
  | VStr (s : string).

Inductive js_error : Type :=
  | TypeError.

(** Outcome of a call that may throw. *)
Inductive result (A : Type) : Type :=
  | Ok (a : A)
  | Throw (e : js_error).
Arguments Ok {A} a.
Arguments Throw {A} e.

Definition bind {A B} (r : result A) (k : A -> result B) : result B :=
  match r with
  | Ok a => k a
  | Throw e => Throw e
  end.

Notation "x <-- r ;; k" := (bind r (fun x => k))
  (at level 100, r at next level, right associativity).

Module Num.

Definition Qltb (a b : Q) : bool := negb (Qle_bool b a).

Definition sign (q : Q) : comparison := (Qnum q ?= 0)%Z.

(** [a < b] *)
Definition lt (a b : number) : bool :=
  match a, b with
  | NaN, _ | _, NaN => false
  | NInf, NInf => false
  | NInf, _ => true
  | _, NInf => false
  | PInf, _ => false
  | Fin _, PInf => true
  | Fin x, Fin y => Qltb x y
  end.

(** [a > b] *)
Definition gt (a b : number) : bool := lt b a.

(** [a <= b] *)
Definition le (a b : number) : bool :=
  match a, b with
  | NaN, _ | _, NaN => false
  | NInf, _ => true
  | _, PInf => true
  | PInf, _ => false
  | _, NInf => false
  | Fin x, Fin y => Qle_bool x y
  end.

(** [a === b] on numbers: NaN differs from everything, itself included. *)
Definition eqb (a b : number) : bool :=
  match a, b with
  | NInf, NInf => true
  | PInf, PInf => true
  | Fin x, Fin y => Qeq_bool x y
  | _, _ => false
  end.

(** [a + b] *)
Definition add (a b : number) : number :=
  match a, b with
  | NaN, _ | _, NaN => NaN
  | PInf, NInf | NInf, PInf => NaN
  | PInf, _ | _, PInf => PInf
  | NInf, _ | _, NInf => NInf
  | Fin x, Fin y => Fin (Qred (x + y))
  end.

(** [a - b] *)
Definition sub (a b : number) : number :=
  match a, b with
  | NaN, _ | _, NaN => NaN
  | PInf, PInf | NInf, NInf => NaN
  | PInf, _ | _, NInf => PInf
  | NInf, _ | _, PInf => NInf
  | Fin x, Fin y => Fin (Qred (x - y))
  end.

Definition inf_of_sign (c : comparison) : number :=
  match c with
  | Gt => PInf
  | Lt => NInf
  | Eq => NaN
  end.

(** [a * b] *)
Definition mul (a b : number) : number :=
  match a, b with
  | NaN, _ | _, NaN => NaN
  | PInf, PInf | NInf, NInf => PInf
  | PInf, NInf | NInf, PInf => NInf
  | PInf, Fin y | Fin y, PInf => inf_of_sign (sign y)
  | NInf, Fin y | Fin y, NInf => inf_of_sign (CompOpp (sign y))
  | Fin x, Fin y => Fin (Qred (x * y))
  end.

(** [a / b]; a finite zero divisor counts as +0. *)
Definition div (a b : number) : number :=
  match a, b with
  | NaN, _ | _, NaN => NaN
  | Fin _, PInf | Fin _, NInf => Fin 0
  | PInf, Fin y => match sign y with Lt => NInf | _ => PInf end
  | NInf, Fin y => match sign y with Lt => PInf | _ => NInf end
  | Fin x, Fin y =>
      match sign y with
      | Eq => inf_of_sign (sign x)
      | _ => Fin (Qred (x / y))
      end
  | _, _ => NaN
  end.

(** [-a] *)
Definition neg (a : number) : number :=
  match a with
  | NaN => NaN
  | NInf => PInf
  | PInf => NInf
  | Fin x => Fin (Qred (- x))
  end.

(** [Math.pow(a, 2)] *)
Definition square (a : number) : number := mul a a.

(** [Math.round(a)]: nearest integer, halves go up. *)
Definition round (a : number) : number :=
  match a with
  | Fin x => Fin (inject_Z (Qfloor (x + (1 # 2))))
  | other => other
  end.

(** [Math.max(a, b)] and [Math.min(a, b)] with two arguments. *)
Definition max (a b : number) : number :=
  match a, b with
  | NaN, _ | _, NaN => NaN
  | _, _ => if lt a b then b else a
  end.

Definition min (a b : number) : number :=
  match a, b with
  | NaN, _ | _, NaN => NaN
  | _, _ => if lt b a then b else a
  end.

(** Truthiness of a number: everything but 0 and NaN. *)
Definition truthy (a : number) : bool :=
  match a with
  | NaN => false
  | Fin x => negb (Qeq_bool x 0)
  | _ => true
  end.

Definition of_nat (n : nat) : number := Fin (inject_Z (Z.of_nat n)).
Definition of_Z (z : Z) : number := Fin (inject_Z z).

(** The index of an array slot named by a number, when it names one. *)
Definition to_index (a : number) : option nat :=
  match a with
  | Fin x =>
      let r := Qred x in
      if (Qden r =? 1)%positive && (0 <=? Qnum r)%Z
      then Some (Z.to_nat (Qnum r)) else None
  | _ => None
  end.

Definition is_finite (a : number) : bool :=
  match a with
  | Fin _ => true
  | _ => false
  end.

End Num.

(** [ToNumber] on the values used here. *)
Definition to_number (v : value) : number :=
  match v with
  | VNum n => n
  | VNull => Fin 0
  | _ => NaN
  end.

(** [a === b] on values. *)
Definition strict_equals (a b : value) : bool :=
  match a, b with
  | VUndefined, VUndefined => true
  | VNull, VNull => true
  | VNum x, VNum y => Num.eqb x y
  | VStr s, VStr t => if string_dec s t then true else false
  | _, _ => false
  end.

(** Truthiness of a value. *)
Definition truthy (v : value) : bool :=
  match v with
  | VUndefined | VNull => false
  | VNum n => Num.truthy n
  | VStr s => match s with EmptyString => false | _ => true end
  end.

(** A field typed [number|undefined]. *)
Definition of_field (f : option number) : value :=
  match f with
  | Some n => VNum n
  | None => VUndefined
  end.

(** [arr[i]] for an array of objects and a numeric index. *)
Definition array_get {A} (arr : list A) (i : number) : option A :=
  match Num.to_index i with
  | Some k => arr !! k
  | None => None
  end.

(** [arr[i]] for an array of numbers: a missing slot reads [undefined]. *)
Definition cell_at (arr : list number) (i : nat) : value :=
  match arr !! i with
  | Some x => VNum x
  | None => VUndefined
  end.

(** [arr.splice(i, 0, x)]. *)
Definition splice_insert {A} (i : nat) (x : A) (arr : list A) : list A :=
  firstn i arr ++ x :: skipn i arr.

(** ** ol/extent, ol/math: helpers whose files are not among the sources *)

(** An extent [[minX, minY, maxX, maxY]]. *)
Record Extent : Type := mkExtent {
  minX : number;
  minY : number;
  maxX : number;
  maxY : number
}.

(** Modelled from the spec: [containsExtent], [getWidth], [buffer] and
    [intersects] of ol/extent.js, which is not among the sources; the spec
    speaks of extent containment, of the width of an extent and of an extent
    buffered by a value on every side. *)
Definition containsExtent (e1 e2 : Extent) : bool :=
  Num.le (minX e1) (minX e2) && Num.le (maxX e2) (maxX e1) &&
  Num.le (minY e1) (minY e2) && Num.le (maxY e2) (maxY e1).

Definition getWidth (e : Extent) : number := Num.sub (maxX e) (minX e).

Definition buffer (e : Extent) (v : number) : Extent :=
  mkExtent (Num.sub (minX e) v) (Num.sub (minY e) v)
           (Num.add (maxX e) v) (Num.add (maxY e) v).

Definition intersects (e1 e2 : Extent) : bool :=
  Num.le (minX e1) (maxX e2) && Num.le (minX e2) (maxX e1) &&
  Num.le (minY e1) (maxY e2) && Num.le (minY e2) (maxY e1).

(** Modelled from the spec: [clamp] and [lerp] of ol/math.js, which is not
    among the sources; the spec has grey levels clamped to 0-255 and a linear
    blend between the colours of an interval. *)
Definition clamp (v lo hi : number) : number := Num.min (Num.max v lo) hi.

Definition lerp (a b x : number) : number := Num.add a (Num.mul x (Num.sub b a)).

(** ** ol/coverage/MatrixType, ol/coverage/Matrix *)

Inductive MatrixType : Type :=
  | UINT8 | INT8 | UINT16 | INT16 | UINT32 | INT32 | FLOAT32 | FLOAT64.

(** *** Typed arrays of the language

    What a typed array holds after [view[i] = x]: the integer types drop
    the fraction, wrap around modulo 2^bits and store 0 for NaN and the
    infinities; [Float32Array] rounds to the nearest single-precision
    number, halves to even; [Float64Array] stores the number as it is. *)

Definition to_integer (bits : Z) (signed : bool) (x : number) : number :=
  match x with
  | Fin q =>
      let int := Z.quot (Qnum q) (Zpos (Qden q)) in
      let int := (int mod 2 ^ bits)%Z in
      Fin (inject_Z (if signed && (2 ^ (bits - 1) <=? int)%Z
                     then (int - 2 ^ bits)%Z else int))
  | _ => Fin 0
  end.

Definition pow2 (k : Z) : Q := Qpower (2 # 1) k.

(** The exponent [e] with [2^e <= a < 2^(e+1)], for [a > 0]. *)
Definition floor_log2 (a : Q) : Z :=
  let e0 := (Z.log2 (Qnum a) - Z.log2 (Zpos (Qden a)))%Z in
  if Qle_bool (pow2 e0) a then e0 else (e0 - 1)%Z.

Definition round_half_even (q : Q) : Z :=
  let f := Qfloor q in
  match (q - inject_Z f ?= 1 # 2)%Q with
  | Lt => f
  | Gt => (f + 1)%Z
  | Eq => if Z.even f then f else (f + 1)%Z
  end.

(** [Math.fround(x)] *)
Definition fround (x : number) : number :=
  match x with
  | Fin q =>
      if Qeq_bool q 0 then Fin 0
      else
        let a := Qabs q in
        let e := Z.max (floor_log2 a) (-126) in
        let k := (e - 23)%Z in
        let y := (inject_Z (round_half_even (a / pow2 k)) * pow2 k)%Q in
        if Qle_bool (pow2 128) y
        then (if Qle_bool 0 q then PInf else NInf)
        else Fin (Qred (if Qle_bool 0 q then y else (- y)%Q))
  | other => other
  end.

(** [view[i] = x; view[i]] for the view of a matrix type. *)
Definition typed_store (type : MatrixType) (x : number) : number :=
  match type with
  | UINT8 => to_integer 8 false x
  | INT8 => to_integer 8 true x
  | UINT16 => to_integer 16 false x
  | INT16 => to_integer 16 true x
  | UINT32 => to_integer 32 false x
  | INT32 => to_integer 32 true x
  | FLOAT32 => fround x
  | FLOAT64 => x
  end.

Module Matrix.

(** The buffer of a binary matrix is represented by the cell values that
    its typed-array view yields; the byte layout is not modelled. *)
Record t : Type := mk {
  matrix_ : list number;
  stride_ : number;
  resolution_ : number * number;
  binary_ : bool
}.

Definition getData (m : t) : list number := matrix_ m.
Definition getStride (m : t) : number := stride_ m.
Definition getResolution (m : t) : number * number := resolution_ m.

End Matrix.

(** ** ol/coverage/Band *)

Module Band.

Record CoverageStatistics : Type := mkStat {
  min : number;
  max : number;
  sum : number;
  count : number;
  variance : number
}.

Record Options : Type := mkOptions {
  o_binary : option bool;
  o_extent : Extent;
  o_nodata : value;
  o_matrix : list number;
  o_origin : option (number * number);
  o_resolution : number * number;
  o_stride : number;
  o_type : MatrixType
}.

Record t : Type := mk {
  type_ : MatrixType;
  null_ : value;
  extent_ : Extent;
  origin_ : number * number;
  binary_ : bool;
  matrix_ : Matrix.t;
  statistics_ : CoverageStatistics;
  revision_ : nat
}.

Definition getCoverageData (b : t) : list number := Matrix.getData (matrix_ b).
Definition getStride (b : t) : number := Matrix.getStride (matrix_ b).
Definition getExtent (b : t) : Extent := extent_ b.
Definition getOrigin (b : t) : number * number := origin_ b.
Definition getResolution (b : t) : number * number :=
  Matrix.getResolution (matrix_ b).
Definition getNullValue (b : t) : value := null_ b.
Definition getStatistics (b : t) : CoverageStatistics := statistics_ b.

(** One round of the first loop of [calculateStatistics]; the accumulator
    is [(min, max, sum, count)]. *)
Definition pass1 (nullValue : value)
    (acc : number * number * number * number) (cell : number)
    : number * number * number * number :=
  let '(min, max, sum, count) := acc in
  if negb (strict_equals (VNum cell) nullValue) then
    let sum := Num.add sum cell in
    let min := if Num.lt cell min then cell else min in
    let max := if Num.gt cell max then cell else max in
    (min, max, sum, Num.add count (Fin 1))
  else acc.

(** One round of the second loop. *)
Definition pass2 (nullValue : value) (avg : number)
    (variance : number) (cell : number) : number :=
  if negb (strict_equals (VNum cell) nullValue) then
    Num.add variance (Num.square (Num.sub cell avg))
  else variance.

Definition statistics_of (matrix : list number) (nullValue : value)
    : CoverageStatistics :=
  let '(min, max, sum, count) :=
    fold_left (pass1 nullValue) matrix (PInf, NInf, Fin 0, Fin 0) in
  let avg := Num.div sum count in
  let variance := fold_left (pass2 nullValue avg) matrix (Fin 0) in
  let variance := Num.div variance count in
  mkStat min max sum count variance.

Definition calculateStatistics (b : t) : t :=
  mk (type_ b) (null_ b) (extent_ b) (origin_ b) (binary_ b) (matrix_ b)
     (statistics_of (getCoverageData b) (getNullValue b)) (revision_ b).


(** [createBinaryMatrix_] on a plain array: the cells are written one by
    one through a typed array of the band's type.  Without typed arrays
    ([TYPED_ARRAY] of ol/has.js is false) there is no [window.ArrayBuffer]
    and no array constructor, and the call throws. *)
Definition createBinaryMatrix_ (TYPED_ARRAY : bool) (matrix : list number)
    (stride : number) (resolution : number * number) (binary : bool)
    (type : MatrixType) : result Matrix.t :=
  if TYPED_ARRAY
  then Ok (Matrix.mk (map (typed_store type) matrix) stride resolution binary)
  else Throw TypeError.

(** The constructor; [TYPED_ARRAY] is the constant of ol/has.js.  The
    matrix of the options is a plain array of numbers (an [ArrayBuffer]
    handed over instead is not modelled). *)
Definition new (TYPED_ARRAY : bool) (options : Options) : result t :=
  let null := if negb (strict_equals (o_nodata options) VUndefined)
              then o_nodata options else VNull in
  let origin :=
    match o_origin options with
    | Some o => o
    | None =>
        (Num.add (minX (o_extent options))
                 (Num.div (fst (o_resolution options)) (Fin 2)),
         Num.add (minY (o_extent options))
                 (Num.div (snd (o_resolution options)) (Fin 2)))
    end in
  let binary := match o_binary options with
                | Some b => b
                | None => TYPED_ARRAY
                end in
  matrix <--
    (if binary
     then createBinaryMatrix_ TYPED_ARRAY (o_matrix options)
            (o_stride options) (o_resolution options) binary
            (o_type options)
     else Ok (Matrix.mk (o_matrix options) (o_stride options)
                        (o_resolution options) binary));;
  (* the five statistics start out undefined and are filled at once *)
  Ok (calculateStatistics
        (mk (o_type options) null (o_extent options) origin binary matrix
            (mkStat NaN NaN NaN NaN NaN) 0)).


End Band.

(** ** Strings built by the checksums *)

(** A colour [[r, g, b, a]] in array form ([asArray] is the identity on it;
    colours given as CSS strings are not modelled). *)
Record Color : Type := mkColor {
  red : number;
  green : number;
  blue : number;
  alpha : number
}.

Section Strings.

(** [Number.prototype.toString] of the language. *)
Variable toString : number -> string.

(** The string a value turns into when it is concatenated to a string. *)
Definition to_str (v : value) : string :=
  match v with
  | VUndefined => "undefined"
  | VNull => "null"
  | VNum n => toString n
  | VStr s => s
  end.

(** The string an array colour turns into when concatenated to a string. *)
Definition color_to_str (c : Color) : string :=
  toString (red c) +:+ "," +:+ toString (green c) +:+ "," +:+
  toString (blue c) +:+ "," +:+ toString (alpha c).

(** [x.toString()] for a field typed [number|undefined]. *)
Definition call_toString (x : option number) : result string :=
  match x with
  | Some n => Ok (toString n)
  | None => Throw TypeError
  end.

End Strings.

(** [s.slice(0, -1)] *)
Fixpoint slice_0_m1 (s : string) : string :=
  match s with
  | EmptyString => EmptyString
  | String c EmptyString => EmptyString
  | String c rest => String c (slice_0_m1 rest)
  end.

(** Appends the per-cell output of a styling loop: every round of the loops
    below writes [interleaved[k++] = ...] with [k] the current length. *)
Definition push_all {A} (interleaved : list A) (xs : list A) : list A :=
  interleaved ++ xs.

(** ** ol/style/Monochrome *)

Module Monochrome.

Record Options : Type := mkOptions {
  o_min : option number;
  o_max : option number;
  o_band : option number
}.

Record t : Type := mk {
  min_ : option number;
  max_ : option number;
  band_ : option number;
  checksum_ : option string
}.

Definition new (options : Options) : t :=
  mk (o_min options) (o_max options)
     (match o_band options with Some b => Some b | None => Some (Fin 0) end)
     None.

Definition getMin (s : t) : option number := min_ s.
Definition getMax (s : t) : option number := max_ s.
Definition getBandIndex (s : t) : option number := band_ s.

Definition clone (s : t) : t :=
  new (mkOptions (getMin s) (getMax s) (getBandIndex s)).

Definition setMin (s : t) (min : option number) : t :=
  mk min (max_ s) (band_ s) None.

Definition setMax (s : t) (max : option number) : t :=
  mk (min_ s) max (band_ s) None.

Definition setBandIndex (s : t) (band : option number) : t :=
  mk (min_ s) (max_ s) band None.

Definition fillMissingValues (s : t) (bands : list Band.t) : t :=
  match getBandIndex s with
  | Some bandIndex =>
      match array_get bands bandIndex with
      | Some band =>
          let bandStat := Band.getStatistics band in
          let s1 :=
            if negb (truthy (of_field (getMin s))) &&
               Num.truthy (Band.min bandStat)
            then setMin s (Some (Band.min bandStat)) else s in
          if negb (truthy (of_field (getMax s1))) &&
             Num.truthy (Band.max bandStat)
          then setMax s1 (Some (Band.max bandStat)) else s1
      | None => s
      end
  | None => s
  end.

(** One round of the loop of [apply]. *)
Definition apply_cell (min range : number) (nodata : value)
    (minAlpha maxAlpha : number) (cell : number) : list number :=
  let lerp := Num.div (Num.sub cell min) range in
  let value := clamp (Num.round (Num.mul (Fin 255) lerp)) (Fin 0) (Fin 255) in
  [value; value; value;
   if strict_equals (VNum cell) nodata then maxAlpha else minAlpha].

(** [Math.min.apply(matrix)] and [Math.max.apply(matrix)] pass the matrix
    as [this] and no argument at all: they yield +Infinity and -Infinity. *)
Definition apply (s : t) (matrix : list number) (nodata : value)
    (minAlpha maxAlpha : number) : list number :=
  let min := match getMin s with Some m => m | None => PInf end in
  let max := match getMax s with Some m => m | None => NInf end in
  let range := Num.sub max min in
  fold_left
    (fun interleaved cell =>
       push_all interleaved
         (apply_cell min range nodata minAlpha maxAlpha cell))
    matrix [].

Section Checksum.
Variable toString : number -> string.

Definition checksum_string (s : t) : string :=
  match getBandIndex s with
  | Some band =>
      "m" +:+ (toString band +:+ "," +:+
               (match getMin s with Some m => toString m | None => "-" end)
               +:+ "," +:+
               (match getMax s with Some m => toString m | None => "-" end))
  | None => "m" +:+ "-"
  end.

Definition getChecksum (s : t) : string * t :=
  match checksum_ s with
  | None =>
      let c := checksum_string s in
      (c, mk (min_ s) (max_ s) (band_ s) (Some c))
  | Some c => (c, s)
  end.
End Checksum.

Definition defaultStyle (opt_index : option number) : t :=
  new (mkOptions None None
         (Some (match opt_index with
                | Some i => if Num.truthy i then i else Fin 0
                | None => Fin 0
                end))).

End Monochrome.

(** ** ol/array: stableSort *)

Section StableSort.
Context {A : Type}.

(** The comparator, as in the language: a negative number puts its first
    argument first, a positive one its second. *)
Variable compareFnc : A -> A -> number.

Fixpoint sort_insert (x : A) (arr : list A) : list A :=
  match arr with
  | [] => [x]
  | y :: rest =>
      if Num.gt (compareFnc x y) (Fin 0)
      then y :: sort_insert x rest
      else x :: arr
  end.

(** Modelled from the spec: [stableSort] of ol/array.js, which is not among
    the sources: the array sorted ascending by the comparator, elements
    that compare equal (or incomparable) keeping their relative order. *)
Definition stableSort (arr : list A) : list A :=
  fold_right sort_insert [] arr.

End StableSort.

(** ** ol/style/PseudocolorMode, ol/style/Pseudocolor *)

Inductive PseudocolorMode : Type :=
  | INTERPOLATE
  | CATEGORIZED.

Definition mode_string (m : PseudocolorMode) : string :=
  match m with
  | INTERPOLATE => "interpolate"
  | CATEGORIZED => "categorized"
  end.

Definition mode_eqb (a b : PseudocolorMode) : bool :=
  match a, b with
  | INTERPOLATE, INTERPOLATE | CATEGORIZED, CATEGORIZED => true
  | _, _ => false
  end.

Module Pseudocolor.

(** A break [[value, colour]]. *)
Definition PseudocolorMap : Type := (number * Color)%type.

Record PseudocolorInterval : Type := mkInterval {
  lower : PseudocolorMap;
  higher : PseudocolorMap;
  range : number
}.

Record Options : Type := mkOptions {
  o_min : option number;
  o_max : option number;
  o_band : option number;
  o_startColor : option Color;
  o_endColor : option Color;
  o_mode : option PseudocolorMode;
  o_breakpoints : option (list PseudocolorMap)
}.

Record t : Type := mk {
  min_ : option number;
  max_ : option number;
  band_ : option number;
  startColor_ : Color;
  endColor_ : Color;
  mode_ : PseudocolorMode;
  breakpoints_ : list PseudocolorMap;
  checksum_ : option string
}.

Definition set_checksum (s : t) (c : option string) : t :=
  mk (min_ s) (max_ s) (band_ s) (startColor_ s) (endColor_ s) (mode_ s)
     (breakpoints_ s) c.

Definition addBreakpoint (s : t) (breakpoint : PseudocolorMap) : t :=
  mk (min_ s) (max_ s) (band_ s) (startColor_ s) (endColor_ s) (mode_ s)
     (breakpoints_ s ++ [breakpoint]) None.

Definition clearBreakpoints (s : t) : t :=
  mk (min_ s) (max_ s) (band_ s) (startColor_ s) (endColor_ s) (mode_ s)
     [] None.

Definition new (options : Options) : t :=
  let s := mk (o_min options) (o_max options)
              (match o_band options with
               | Some b => Some b
               | None => Some (Fin 0)
               end)
              (match o_startColor options with
               | Some c => c
               | None => mkColor (Fin 0) (Fin 0) (Fin 0) (Fin 1)
               end)
              (match o_endColor options with
               | Some c => c
               | None => mkColor (Fin 255) (Fin 255) (Fin 255) (Fin 1)
               end)
              (match o_mode options with
               | Some m => m
               | None => INTERPOLATE
               end)
              [] None in
  let s := match o_breakpoints options with
           | Some bps => fold_left addBreakpoint bps s
           | None => s
           end in
  set_checksum s None.

Definition getMin (s : t) : option number := min_ s.
Definition getMax (s : t) : option number := max_ s.
Definition getBandIndex (s : t) : option number := band_ s.
Definition getStartColor (s : t) : Color := startColor_ s.
Definition getEndColor (s : t) : Color := endColor_ s.
Definition getMode (s : t) : PseudocolorMode := mode_ s.
Definition getBreakpoints (s : t) : list PseudocolorMap := breakpoints_ s.

(** [clone()].  Each round of its loop reads [breakpoint.color] off a
    break, which is a two-element array without such a property, and calls
    [slice] on the undefined result: the round throws. *)
Definition clone (s : t) : result t :=
  let breakpoints := getBreakpoints s in
  newBreakpoints <--
    fold_left
      (fun (acc : result (list PseudocolorMap)) (breakpoint : PseudocolorMap)
       => (copied <-- acc;; Throw TypeError))
      breakpoints (Ok []);;
  Ok (new (mkOptions (getMin s) (getMax s) (getBandIndex s)
             (Some (getStartColor s)) (Some (getEndColor s))
             (Some (getMode s)) (Some newBreakpoints))).

Definition setMin (s : t) (min : option number) : t :=
  mk min (max_ s) (band_ s) (startColor_ s) (endColor_ s) (mode_ s)
     (breakpoints_ s) None.

Definition setMax (s : t) (max : option number) : t :=
  mk (min_ s) max (band_ s) (startColor_ s) (endColor_ s) (mode_ s)
     (breakpoints_ s) None.

Definition setBandIndex (s : t) (band : option number) : t :=
  mk (min_ s) (max_ s) band (startColor_ s) (endColor_ s) (mode_ s)
     (breakpoints_ s) None.

Definition setStartColor (s : t) (color : Color) : t :=
  mk (min_ s) (max_ s) (band_ s) color (endColor_ s) (mode_ s)
     (breakpoints_ s) None.

Definition setEndColor (s : t) (color : Color) : t :=
  mk (min_ s) (max_ s) (band_ s) (startColor_ s) color (mode_ s)
     (breakpoints_ s) None.

Definition setMode (s : t) (mode : PseudocolorMode) : t :=
  mk (min_ s) (max_ s) (band_ s) (startColor_ s) (endColor_ s) mode
     (breakpoints_ s) None.

Definition fillMissingValues (s : t) (bands : list Band.t) : t :=
  match getBandIndex s with
  | Some bandIndex =>
      match array_get bands bandIndex with
      | Some band =>
          let bandStat := Band.getStatistics band in
          let s1 :=
            if negb (truthy (of_field (getMin s))) &&
               Num.truthy (Band.min bandStat)
            then setMin s (Some (Band.min bandStat)) else s in
          if negb (truthy (of_field (getMax s1))) &&
             Num.truthy (Band.max bandStat)
          then setMax s1 (Some (Band.max bandStat)) else s1
      | None => s
      end
  | None => s
  end.

(** The comparator handed to [stableSort]. *)
Definition by_value (a b : PseudocolorMap) : number :=
  Num.sub (fst a) (fst b).

(** One round of the loop over the sorted breakpoints; the state is the
    interval list and [prev]. *)
Definition interval_step (min max : number)
    (st : list PseudocolorInterval * PseudocolorMap) (p : PseudocolorMap)
    : list PseudocolorInterval * PseudocolorMap :=
  let '(intervals, prev) := st in
  if Num.gt (fst p) min && Num.lt (fst p) max
  then (intervals ++ [mkInterval prev p (Num.sub (fst p) (fst prev))], p)
  else (intervals, prev).

Definition createIntervals_ (s : t) (min max : number)
    : list PseudocolorInterval :=
  let sColor := getStartColor s in
  let eColor := getEndColor s in
  let prev := (min, sColor) in
  let breakpoints := getBreakpoints s in
  let '(intervals, prev) :=
    match breakpoints with
    | [] => ([], prev)
    | _ :: _ =>
        fold_left (interval_step min max)
                  (stableSort by_value breakpoints) ([], prev)
    end in
  intervals ++ [mkInterval prev (max, eColor) (Num.sub max (fst prev))].

(** The inner loop of [apply]: the colour of the first interval whose
    upper value is not below the cell; nothing is written when there is
    no such interval. *)
Fixpoint interval_color (categorized : bool) (cell : number)
    (intervals : list PseudocolorInterval) : list number :=
  match intervals with
  | [] => []
  | iv :: rest =>
      if Num.le cell (fst (higher iv)) then
        if categorized then
          [red (snd (lower iv)); green (snd (lower iv)); blue (snd (lower iv))]
        else
          let ratio := Num.div (Num.sub cell (fst (lower iv))) (range iv) in
          [lerp (red (snd (lower iv))) (red (snd (higher iv))) ratio;
           lerp (green (snd (lower iv))) (green (snd (higher iv))) ratio;
           lerp (blue (snd (lower iv))) (blue (snd (higher iv))) ratio]
      else interval_color categorized cell rest
  end.

(** One round of the outer loop of [apply]. *)
Definition apply_cell (min max : number)
    (intervals : list PseudocolorInterval) (categorized : bool)
    (nodata : value) (minAlpha maxAlpha : number) (cell : number)
    : list number :=
  (if Num.lt cell min || Num.gt cell max then
     let value := if Num.lt cell min then Fin 0 else Fin 255 in
     [value; value; value]
   else interval_color categorized cell intervals)
  ++ [if strict_equals (VNum cell) nodata then maxAlpha else minAlpha].

Definition apply (s : t) (matrix : list number) (nodata : value)
    (minAlpha maxAlpha : number) : list number :=
  let min := match getMin s with Some m => m | None => PInf end in
  let max := match getMax s with Some m => m | None => NInf end in
  let intervals := createIntervals_ s min max in
  let categorized := mode_eqb (getMode s) CATEGORIZED in
  fold_left
    (fun interleaved cell =>
       push_all interleaved
         (apply_cell min max intervals categorized nodata
                     minAlpha maxAlpha cell))
    matrix [].

Section Checksum.
Variable toString : number -> string.
(** [asString] of ol/color.js, which is not among the sources. *)
Variable asString : Color -> string.

(** The operand of the first [+=].  The conditional operator binds
    weaker than [+] and [!==], so the operand is a chain of four
    conditionals whose tests are a concatenated string compared with
    [undefined], a concatenated string, and so on. *)
Definition checksum_operand (s : t) (band : number) : result string :=
  if negb (strict_equals
             (VStr (toString band +:+ "," +:+ mode_string (getMode s)
                    +:+ "," +:+ to_str toString (of_field (getMin s))))
             VUndefined)
  then call_toString toString (getMin s)
  else if truthy (VStr ("-" +:+ "," +:+
                        color_to_str toString (getStartColor s)))
  then Ok (asString (getStartColor s))
  else if negb (strict_equals
                  (VStr ("-" +:+ "," +:+
                         to_str toString (of_field (getMax s))))
                  VUndefined)
  then call_toString toString (getMax s)
  else if truthy (VStr ("-" +:+ color_to_str toString (getEndColor s)))
  then Ok (asString (getEndColor s))
  else Ok ("-" +:+ ",").

(** The loop over the breakpoints, appending to the checksum [c]. *)
Definition append_breakpoints (c : string)
    (breakpoints : list PseudocolorMap) : string :=
  fold_left
    (fun c bp => c +:+ (toString (fst bp) +:+ "," +:+
                        asString (snd bp) +:+ ","))
    breakpoints c.

(** The checksum and the style after the call.  [checksum_] is set to
    ["p"] before the operand is evaluated, so it stays ["p"] when the
    operand throws. *)
Definition getChecksum (s : t) : result string * t :=
  match checksum_ s with
  | Some c => (Ok c, s)
  | None =>
      let c := "p" in
      match getBandIndex s with
      | Some band =>
          match checksum_operand s band with
          | Throw e => (Throw e, set_checksum s (Some c))
          | Ok piece =>
              let c := c +:+ piece in
              let c :=
                match getBreakpoints s with
                | [] => c +:+ "-"
                | breakpoints =>
                    let c := c +:+ "(" in
                    let c := append_breakpoints c breakpoints in
                    let c := slice_0_m1 c in
                    c +:+ ")"
                end in
              (Ok c, set_checksum s (Some c))
          end
      | None =>
          let c := c +:+ "-" in
          (Ok c, set_checksum s (Some c))
      end
  end.
End Checksum.

End Pseudocolor.

(** ** ol/style/RGB *)

Module RGB.

Record t : Type := mk {
  red_ : Monochrome.t;
  green_ : Monochrome.t;
  blue_ : Monochrome.t
}.

Record Options : Type := mkOptions {
  o_red : option Monochrome.t;
  o_green : option Monochrome.t;
  o_blue : option Monochrome.t
}.

Definition new (options : Options) : t :=
  mk (match o_red options with
      | Some m => m
      | None => Monochrome.defaultStyle (Some (Fin 0))
      end)
     (match o_green options with
      | Some m => m
      | None => Monochrome.defaultStyle (Some (Fin 1))
      end)
     (match o_blue options with
      | Some m => m
      | None => Monochrome.defaultStyle (Some (Fin 2))
      end).

Definition getRed (s : t) : Monochrome.t := red_ s.
Definition getGreen (s : t) : Monochrome.t := green_ s.
Definition getBlue (s : t) : Monochrome.t := blue_ s.

Definition setRed (s : t) (red : Monochrome.t) : t :=
  mk red (green_ s) (blue_ s).
Definition setGreen (s : t) (green : Monochrome.t) : t :=
  mk (red_ s) green (blue_ s).
Definition setBlue (s : t) (blue : Monochrome.t) : t :=
  mk (red_ s) (green_ s) blue.

Definition clone (s : t) : t :=
  new (mkOptions (Some (Monochrome.clone (red_ s)))
                 (Some (Monochrome.clone (green_ s)))
                 (Some (Monochrome.clone (blue_ s)))).

Definition getBandIndex (s : t) : list (option number) :=
  [Monochrome.getBandIndex (getRed s);
   Monochrome.getBandIndex (getGreen s);
   Monochrome.getBandIndex (getBlue s)].

Definition fillMissingValues (s : t) (bands : list Band.t) : t :=
  mk (Monochrome.fillMissingValues (getRed s) bands)
     (Monochrome.fillMissingValues (getGreen s) bands)
     (Monochrome.fillMissingValues (getBlue s) bands).

(** The first loop of [apply]: an [undefined] placeholder is spliced into
    both arrays at every position whose band index is undefined. *)
Definition splice_missing (bandIndices : list (option number))
    (st : list (option (list number)) * list value) (i : nat)
    : list (option (list number)) * list value :=
  match bandIndices !! i with
  | Some None =>
      (splice_insert i None (fst st), splice_insert i VUndefined (snd st))
  | _ => st
  end.

(** [matrices[c]], read as a truthy matrix or as missing. *)
Definition channel (matrices : list (option (list number))) (c : nat)
    : option (list number) :=
  match matrices !! c with
  | Some (Some m) => Some m
  | _ => None
  end.

Definition nodata_at (nodata : list value) (c : nat) : value :=
  match nodata !! c with
  | Some v => v
  | None => VUndefined
  end.

Definition channel_lerp (matrices : list (option (list number))) (c : nat)
    (min max : option number) (i : nat) : number :=
  match channel matrices c with
  | Some m =>
      Num.div (Num.sub (to_number (cell_at m i)) (to_number (of_field min)))
              (Num.sub (to_number (of_field max)) (to_number (of_field min)))
  | None => Fin 0
  end.

Definition channel_nodata (matrices : list (option (list number)))
    (nodata : list value) (c : nat) (i : nat) : bool :=
  match channel matrices c with
  | Some m => strict_equals (cell_at m i) (nodata_at nodata c)
  | None => true
  end.

(** One round of the main loop of [apply]. *)
Definition apply_cell (s : t) (matrices : list (option (list number)))
    (nodata : list value) (minAlpha maxAlpha : number) (i : nat)
    : list number :=
  let redLerp := channel_lerp matrices 0
                   (Monochrome.getMin (getRed s))
                   (Monochrome.getMax (getRed s)) i in
  let greenLerp := channel_lerp matrices 1
                     (Monochrome.getMin (getGreen s))
                     (Monochrome.getMax (getGreen s)) i in
  let blueLerp := channel_lerp matrices 2
                    (Monochrome.getMin (getBlue s))
                    (Monochrome.getMax (getBlue s)) i in
  let redNodata := channel_nodata matrices nodata 0 i in
  let greenNodata := channel_nodata matrices nodata 1 i in
  let blueNodata := channel_nodata matrices nodata 2 i in
  [clamp (Num.round (Num.mul (Fin 255) redLerp)) (Fin 0) (Fin 255);
   clamp (Num.round (Num.mul (Fin 255) greenLerp)) (Fin 0) (Fin 255);
   clamp (Num.round (Num.mul (Fin 255) blueLerp)) (Fin 0) (Fin 255);
   if redNodata && greenNodata && blueNodata then maxAlpha else minAlpha].

(** The arrays after the splicing loop. *)
Definition spliced (s : t) (matrices : list (option (list number)))
    (nodata : list value) : list (option (list number)) * list value :=
  fold_left (splice_missing (getBandIndex s)) [0; 1; 2]%nat
            (matrices, nodata).

Definition refMatrix (matrices : list (option (list number)))
    : list number :=
  match channel matrices 0 with
  | Some m => m
  | None =>
      match channel matrices 1 with
      | Some m => m
      | None =>
          match channel matrices 2 with
          | Some m => m
          | None => []
          end
      end
  end.

Definition apply (s : t) (matrices : list (option (list number)))
    (nodata : list value) (minAlpha maxAlpha : number) : list number :=
  let '(matrices, nodata) := spliced s matrices nodata in
  let ref := refMatrix matrices in
  fold_left
    (fun interleaved i =>
       push_all interleaved
         (apply_cell s matrices nodata minAlpha maxAlpha i))
    (seq 0 (length ref)) [].

Section Checksum.
Variable toString : number -> string.

Definition getChecksum (s : t) : string * t :=
  let '(r, red) := Monochrome.getChecksum toString (getRed s) in
  let '(g, green) := Monochrome.getChecksum toString (getGreen s) in
  let '(b, blue) := Monochrome.getChecksum toString (getBlue s) in
  ("r" +:+ r +:+ "g" +:+ g +:+ "b" +:+ b, mk red green blue).
End Checksum.

End RGB.

(** ** The three style engines as one type *)

Inductive CoverageStyle : Type :=
  | StyleMonochrome (s : Monochrome.t)
  | StylePseudocolor (s : Pseudocolor.t)
  | StyleRGB (s : RGB.t).

Module Style.

Definition fillMissingValues (style : CoverageStyle) (bands : list Band.t)
    : CoverageStyle :=
  match style with
  | StyleMonochrome s => StyleMonochrome (Monochrome.fillMissingValues s bands)
  | StylePseudocolor s =>
      StylePseudocolor (Pseudocolor.fillMissingValues s bands)
  | StyleRGB s => StyleRGB (RGB.fillMissingValues s bands)
  end.

Definition getChecksum (toString : number -> string)
    (asString : Color -> string) (style : CoverageStyle)
    : result string * CoverageStyle :=
  match style with
  | StyleMonochrome s =>
      let '(c, s') := Monochrome.getChecksum toString s in
      (Ok c, StyleMonochrome s')
  | StylePseudocolor s =>
      let '(c, s') := Pseudocolor.getChecksum toString asString s in
      (c, StylePseudocolor s')
  | StyleRGB s =>
      let '(c, s') := RGB.getChecksum toString s in
      (Ok c, StyleRGB s')
  end.

End Style.

(** ** ol/coverage/CoverageType, coverage patterns, projections *)

Inductive CoverageType : Type :=
  | RECTANGULAR
  | HEXAGONAL
  | CUSTOM.

Definition type_eqb (a b : CoverageType) : bool :=
  match a, b with
  | RECTANGULAR, RECTANGULAR | HEXAGONAL, HEXAGONAL | CUSTOM, CUSTOM => true
  | _, _ => false
  end.

Record CoverageColumnPattern : Type := mkColumnPattern {
  col_translate : number * number;
  col_rotate : number
}.

Record CoverageRowPattern : Type := mkRowPattern {
  row_translate : number * number;
  row_rotate : number;
  row_offset : number
}.

Record CoveragePattern : Type := mkPattern {
  shape : list (number * number);
  columnPattern : list CoverageColumnPattern;
  rowPattern : list CoverageRowPattern
}.

(** What the renderers read from a projection. *)
Record Projection : Type := mkProjection {
  proj_code : string;
  proj_extent : Extent;
  proj_canWrapX : bool
}.

(** The grid that [alignRasterBands] returns. *)
Record AlignedProperties : Type := mkAlignedProperties {
  al_extent : Extent;
  al_origin : number * number;
  al_stride : number;
  al_resolution : number * number
}.

Record Aligned : Type := mkAligned {
  al_matrices : list (list number);
  al_properties : AlignedProperties
}.

(** A cell of the spatial index: the flat coordinates of its polygon
    followed by its colour, and its bounding box. *)
Record GridCell : Type := mkGridCell {
  cell_flat : list number;
  cell_bbox : Extent
}.

(** Modelled from the spec: the spatial index (ol/structs/RBush, not among
    the sources) holds entries keyed by a bounding box and answers queries by
    extent with the matched payloads. *)
Definition RBush : Type := list GridCell.

Definition getInExtent (rtree : RBush) (extent : Extent) : list (list number) :=
  map cell_flat
      (List.filter (fun c => intersects extent (cell_bbox c)) rtree).

(** Functions of the repository and of the platform that the modelled code
    calls and whose files are not among the sources. *)
Record Externals : Type := mkExternals {
  (** [Number.prototype.toString] *)
  toString : number -> string;
  (** [asString] of ol/color.js *)
  asString : Color -> string;
  (** [TYPED_ARRAY] of ol/has.js *)
  TYPED_ARRAY : bool;
  (** [alignRasterBands] of ol/coverage/util.js *)
  alignRasterBands : list Band.t -> option CoverageType -> result Aligned;
  (** [createGrid] of ol/renderer/coverage.js *)
  createGrid : Band.t -> list number -> CoverageType -> Projection ->
               Projection -> number -> option CoveragePattern -> RBush;
  (** [getTolerance] of ol/renderer/coverage.js *)
  getTolerance : number -> number -> number;
  (** [equivalent] of ol/proj.js *)
  equivalent : Projection -> Projection -> bool;
  (** [new Tessellator(flat, holes, stride)] of ol/webgl/Tessellator.js:
      its [vertices] and [indices] *)
  tessellate : list number -> list (list number) -> nat ->
               list number * list number;
  (** [translate(flat, offset, end, stride, deltaX, deltaY)] of
      ol/geom/flat/transform.js; the offset may be undefined *)
  translate : list number -> option nat -> nat -> nat -> number -> number ->
              list number
}.

(** ** ol/source/Coverage *)

Inductive SourceState : Type :=
  | UNDEFINED | LOADING | READY | ERROR.

Module CoverageSource.

Record t : Type := mk {
  type_ : option CoverageType;
  pattern_ : option CoveragePattern;
  bands_ : list Band.t;
  revision_ : nat;
  wrapX_ : bool;
  projection_ : Projection;
  state_ : SourceState
}.

Definition getBands (src : t) : list Band.t := bands_ src.
Definition getType (src : t) : option CoverageType := type_ src.
Definition getPattern (src : t) : option CoveragePattern := pattern_ src.
Definition getRevision (src : t) : nat := revision_ src.
Definition getWrapX (src : t) : bool := wrapX_ src.
Definition getProjection (src : t) : Projection := projection_ src.

Definition addBand (src : t) (band : Band.t) : t :=
  mk (type_ src) (pattern_ src) (bands_ src ++ [band])
     (S (revision_ src)) (wrapX_ src) (projection_ src) (state_ src).

Definition setType (src : t) (type : option CoverageType) : t :=
  mk type (pattern_ src) (bands_ src) (revision_ src) (wrapX_ src)
     (projection_ src) (state_ src).

Section WithExternals.
Variable X : Externals.

(** One round of the loop over the band indices of a multi-band style;
    the state is [(toAlign, nulls)].  [bands[bandIndex[i]]] is pushed as
    it is, and reading [getNullValue] off a missing band throws. *)
Definition gather_step (bands : list Band.t)
    (st : result (list Band.t * list value)) (index : option number)
    : result (list Band.t * list value) :=
  acc <-- st;;
  match index with
  | Some i =>
      match array_get bands i with
      | Some band =>
          Ok (fst acc ++ [band], snd acc ++ [Band.getNullValue band])
      | None => Throw TypeError
      end
  | None => Ok acc
  end.

Definition getStyledBand (src : t) (style : CoverageStyle)
    (minAlpha maxAlpha : number) : result (option Band.t) :=
  match style with
  | StyleRGB rgb =>
      let bandIndex := RGB.getBandIndex rgb in
      let bands := getBands src in
      gathered <-- fold_left (gather_step bands) bandIndex (Ok ([], []));;
      let '(toAlign, nulls) := gathered in
      aligned <-- alignRasterBands X toAlign (getType src);;
      let styledMatrix :=
        RGB.apply rgb (map Some (al_matrices aligned)) nulls
                  minAlpha maxAlpha in
      styled <--
        Band.new (TYPED_ARRAY X)
          (Band.mkOptions (Some false)
             (al_extent (al_properties aligned))
             VUndefined
             styledMatrix
             (Some (al_origin (al_properties aligned)))
             (al_resolution (al_properties aligned))
             (al_stride (al_properties aligned))
             UINT8);;
      Ok (Some styled)
  | StyleMonochrome _ | StylePseudocolor _ =>
      let bandIndex :=
        match style with
        | StyleMonochrome m => Monochrome.getBandIndex m
        | StylePseudocolor p => Pseudocolor.getBandIndex p
        | StyleRGB _ => None
        end in
      match bandIndex with
      | Some index =>
          match array_get (getBands src) index with
          | None => Throw TypeError
          | Some band =>
              let styledMatrix :=
                match style with
                | StyleMonochrome m =>
                    Monochrome.apply m (Band.getCoverageData band)
                      (Band.getNullValue band) minAlpha maxAlpha
                | StylePseudocolor p =>
                    Pseudocolor.apply p (Band.getCoverageData band)
                      (Band.getNullValue band) minAlpha maxAlpha
                | StyleRGB _ => []
                end in
              styled <--
                Band.new (TYPED_ARRAY X)
                  (Band.mkOptions (Some false)
                     (Band.getExtent band)
                     VUndefined
                     styledMatrix
                     (Some (Band.getOrigin band))
                     (Band.getResolution band)
                     (Band.getStride band)
                     UINT8);;
              Ok (Some styled)
          end
      | None => Ok None
      end
  end.

End WithExternals.

End CoverageSource.

(** ** ol/source/ArcGrid *)

(** [s.split(sep)] for a separator of one character. *)
Fixpoint split (sep : ascii) (s : string) : list string :=
  match s with
  | EmptyString => [EmptyString]
  | String c rest =>
      if Ascii.eqb c sep then EmptyString :: split sep rest
      else match split sep rest with
           | part :: parts => String c part :: parts
           | [] => [String c EmptyString]
           end
  end.

Module ArcGrid.

(** What [parseCoverage_] does to the source: the states it sets and the
    band it adds. *)
Inductive Effect : Type :=
  | SetState (state : SourceState)
  | AddBand (band : Band.t).

(** The outcome of [parseCoverage_]: what it returned or threw, [data_]
    after the call, and its effects in order. *)
Record Parsed : Type := mkParsed {
  p_result : result unit;
  p_data : option string;
  p_effects : list Effect
}.

Definition header_names : list string :=
  ["NCOLS"; "NROWS"; "XLLCORNER"; "YLLCORNER"; "CELLSIZE"; "NODATA_VALUE"].

Section WithPlatform.
(** [TYPED_ARRAY] of ol/has.js *)
Variable TYPED_ARRAY : bool.
(** [parseFloat] and [String.prototype.toUpperCase] of the language *)
Variable parseFloat : string -> number.
Variable toUpperCase : string -> string.

(** [parseFloat(x)] for a string or for undefined. *)
Definition parse (x : option string) : number :=
  match x with
  | Some s => parseFloat s
  | None => NaN
  end.

(** The name and the value of a header line. *)
Definition header_name (line : string) : option string :=
  match split " " line !! 0%nat with
  | Some name => Some (toUpperCase name)
  | None => None
  end.

Definition header_value (line : string) : number :=
  parse (split " " line !! 1%nat).

(** One round of the header loop; [source[i]] is undefined beyond the last
    line, and calling [split] on it throws. *)
Definition header_step (source : list string)
    (header : result (gmap string number)) (i : nat)
    : result (gmap string number) :=
  h <-- header;;
  match source !! i with
  | Some line =>
      match header_name line with
      | Some headerName => Ok (<[headerName := header_value line]> h)
      | None => Throw TypeError
      end
  | None => Throw TypeError
  end.

(** The test of the header: the six names are in it, and nothing else. *)
Definition header_valid (header : gmap string number) : bool :=
  forallb (fun name => bool_decide (is_Some (header !! name))) header_names
  && (size header =? 6)%nat.

(** [header[name]], read after the test, when the six names are there. *)
Definition field (header : gmap string number) (name : string) : number :=
  match header !! name with
  | Some x => x
  | None => NaN
  end.

(** The band made of a valid header and the lines after it. *)
Definition band_of (header : gmap string number) (source : list string)
    (dataType_ : MatrixType) : result Band.t :=
  let matrix :=
    flat_map (fun line => map parseFloat (split " " line)) (drop 6 source) in
  let extent :=
    mkExtent (field header "XLLCORNER") (field header "YLLCORNER")
      (Num.add (field header "XLLCORNER")
               (Num.mul (field header "CELLSIZE") (field header "NCOLS")))
      (Num.add (field header "YLLCORNER")
               (Num.mul (field header "CELLSIZE") (field header "NROWS"))) in
  Band.new TYPED_ARRAY
    (Band.mkOptions None extent (VNum (field header "NODATA_VALUE")) matrix
       None (field header "CELLSIZE", field header "CELLSIZE")
       (field header "NCOLS") dataType_).

(** [parseCoverage_()], given the state of the source, [data_] and
    [dataType_]. *)
Definition parseCoverage_ (state : SourceState) (data_ : option string)
    (dataType_ : MatrixType) : Parsed :=
  let effects :=
    match state with
    | LOADING => []
    | _ => [SetState LOADING]
    end in
  match data_ with
  | None => mkParsed (Throw TypeError) data_ effects
  | Some data =>
      let source := split "010" data in
      match fold_left (header_step source) (seq 0 6) (Ok ∅) with
      | Throw e => mkParsed (Throw e) data_ effects
      | Ok header =>
          if negb (header_valid header)
          then mkParsed (Ok tt) data_ (effects ++ [SetState ERROR])
          else
            match band_of header source dataType_ with
            | Throw e => mkParsed (Throw e) data_ effects
            | Ok band =>
                mkParsed (Ok tt) None
                  (effects ++ [AddBand band; SetState READY])
            end
      end
  end.

End WithPlatform.

End ArcGrid.

(** ** ol/layer/Coverage and the frame state *)

Module CoverageLayer.

Record t : Type := mk {
  style_ : option CoverageStyle;
  stroke_ : option number;
  updateWhileAnimating_ : bool;
  updateWhileInteracting_ : bool;
  revision_ : nat;
  source_ : CoverageSource.t
}.

Definition getStyle (l : t) : option CoverageStyle := style_ l.
Definition getStroke (l : t) : option number := stroke_ l.
Definition getUpdateWhileAnimating (l : t) : bool := updateWhileAnimating_ l.
Definition getUpdateWhileInteracting (l : t) : bool :=
  updateWhileInteracting_ l.
Definition getRevision (l : t) : nat := revision_ l.
Definition getSource (l : t) : CoverageSource.t := source_ l.

(** [setStyle(style)]: [None] is [undefined], [Some None] is [null]. *)
Definition setStyle (l : t) (style : option (option CoverageStyle)) : t :=
  mk (match style with
      | Some st => st
      | None => Some (StyleMonochrome (Monochrome.defaultStyle None))
      end)
     (stroke_ l) (updateWhileAnimating_ l) (updateWhileInteracting_ l)
     (S (revision_ l)) (source_ l).

(** The same layer holding the style object in its current state. *)
Definition with_style (l : t) (style : option CoverageStyle) : t :=
  mk style (stroke_ l) (updateWhileAnimating_ l) (updateWhileInteracting_ l)
     (revision_ l) (source_ l).

End CoverageLayer.

Record ViewState : Type := mkViewState {
  vs_projection : Projection;
  vs_resolution : number
}.

Record FrameState : Type := mkFrameState {
  (** [viewHints[ViewHint.ANIMATING]] and [viewHints[ViewHint.INTERACTING]] *)
  fs_animating : nat;
  fs_interacting : nat;
  fs_extent : Extent;
  fs_viewState : ViewState;
  fs_pixelRatio : number
}.

(** A replay group, as the record of what it was built with and of what it
    was asked to draw. *)
Record ReplayGroup : Type := mkReplayGroup {
  rg_tolerance : number;
  rg_maxExtent : Extent;
  rg_resolution : option number;
  rg_pixelRatio : option number;
  rg_flatCoverage : list number;
  rg_numVertices : option nat;
  rg_stroke : option number;
  rg_indices : option (list number);
  rg_finished : bool
}.

(** Modelled from the spec: [renderCoverage] of ol/renderer/coverage.js (not
    among the sources) hands the flattened geometry, the stroke and the
    triangulation indices to the replay group. *)
Definition renderCoverage (rg : ReplayGroup) (flatCoverage : list number)
    (numVertices : option nat) (stroke : option number)
    (indices : option (list number)) : ReplayGroup :=
  mkReplayGroup (rg_tolerance rg) (rg_maxExtent rg) (rg_resolution rg)
    (rg_pixelRatio rg) flatCoverage numVertices stroke indices (rg_finished rg).

Definition finish (rg : ReplayGroup) : ReplayGroup :=
  mkReplayGroup (rg_tolerance rg) (rg_maxExtent rg) (rg_resolution rg)
    (rg_pixelRatio rg) (rg_flatCoverage rg) (rg_numVertices rg) (rg_stroke rg)
    (rg_indices rg) true.

(** Modelled from the spec: [deflateCoordinates] of ol/geom/flat/deflate.js
    (not among the sources) flattens matched geometries into one coordinate
    buffer, [stride] numbers from each. *)
Definition deflateCoordinates (coordinates : list (list number))
    (stride : nat) : list number :=
  flat_map (firstn stride) coordinates.

(** Modelled from the spec: [scale] of ol/geom/flat/transform.js (not among
    the sources), with the anchor at the origin: the unit-square shape
    scaled by the cell resolution. *)
Definition scale_shape (shape : list (number * number)) (sx sy : number)
    : list number :=
  flat_map (fun c => [Num.mul sx (fst c); Num.mul sy (snd c)]) shape.

(** What a call of [prepareFrame] did besides changing the renderer. *)
Inductive Event : Type :=
  | EvGetStyledBand
  | EvCreateGrid
  | EvDeleteResources (rg : ReplayGroup).

Record Outcome (R : Type) : Type := mkOutcome {
  (** the value returned, or the exception thrown *)
  out_result : result bool;
  (** the renderer after the call *)
  out_renderer : R;
  (** the style object of the layer after the call *)
  out_style : option CoverageStyle;
  (** [frameState.extent] after the call *)
  out_extent : Extent;
  out_events : list Event
}.
Arguments mkOutcome {R}.
Arguments out_result {R}.
Arguments out_renderer {R}.
Arguments out_style {R}.
Arguments out_extent {R}.
Arguments out_events {R}.

Definition opt_string_eqb (a : option string) (b : string) : bool :=
  match a with
  | Some x => if string_dec x b then true else false
  | None => false
  end.

Definition opt_num_eqb (a : option number) (b : number) : bool :=
  match a with
  | Some x => Num.eqb x b
  | None => false
  end.

Definition opt_nat_eqb (a : option nat) (b : nat) : bool :=
  match a with
  | Some x => Nat.eqb x b
  | None => false
  end.

(** ** ol/renderer/canvas/CoverageLayer *)

Module CanvasCoverageLayerRenderer.

Record t : Type := mk {
  renderedChecksum_ : option string;
  renderedSourceRevision_ : option nat;
  buffer_ : option number;
  coverageCache_ : option RBush;
  numVertices_ : option nat;
  (* fields of the vector layer renderer this class extends *)
  renderedResolution : option number;
  renderedRevision : option nat;
  renderedExtent : option Extent;
  replayGroup : option ReplayGroup;
  replayGroupChanged : bool
}.

Definition set_replayGroupChanged (r : t) (b : bool) : t :=
  mk (renderedChecksum_ r) (renderedSourceRevision_ r) (buffer_ r)
     (coverageCache_ r) (numVertices_ r) (renderedResolution r)
     (renderedRevision r) (renderedExtent r) (replayGroup r) b.

Definition set_replayGroup (r : t) (rg : option ReplayGroup) : t :=
  mk (renderedChecksum_ r) (renderedSourceRevision_ r) (buffer_ r)
     (coverageCache_ r) (numVertices_ r) (renderedResolution r)
     (renderedRevision r) (renderedExtent r) rg (replayGroupChanged r).

Definition set_cache (r : t) (checksum : string) (revision : nat)
    (buffer : number) (rtree : RBush) (vertices : nat) : t :=
  mk (Some checksum) (Some revision) (Some buffer) (Some rtree)
     (Some vertices) (renderedResolution r) (renderedRevision r)
     (renderedExtent r) (replayGroup r) (replayGroupChanged r).

Definition set_rendered (r : t) (resolution : number) (revision : nat)
    (extent : Extent) (rg : ReplayGroup) : t :=
  mk (renderedChecksum_ r) (renderedSourceRevision_ r) (buffer_ r)
     (coverageCache_ r) (numVertices_ r) (Some resolution) (Some revision)
     (Some extent) (Some rg) true.

Definition getCellCoordinates_ (type : CoverageType)
    (resolution : number * number) (pattern : option CoveragePattern)
    : result (list number) :=
  let halfX := Num.div (fst resolution) (Fin 2) in
  let halfY := Num.div (snd resolution) (Fin 2) in
  match type with
  | HEXAGONAL =>
      let fourthY := Num.div halfY (Fin 2) in
      Ok [Num.neg halfX; Num.neg fourthY; Fin 0; Num.neg halfY;
          halfX; Num.neg fourthY; halfX; fourthY;
          Fin 0; halfY; Num.neg halfX; fourthY]
  | CUSTOM =>
      match pattern with
      | Some pat =>
          Ok (scale_shape (shape pat) (fst resolution) (snd resolution))
      | None => Throw TypeError
      end
  | RECTANGULAR =>
      Ok [Num.neg halfX; Num.neg halfY; halfX; Num.neg halfY;
          halfX; halfY; Num.neg halfX; halfY]
  end.

Section WithExternals.
Variable X : Externals.

(** The end of [prepareFrame]: query the cache, fill the replay group,
    remember what was rendered. *)
Definition draw (r : t) (style : CoverageStyle) (layer : CoverageLayer.t)
    (type : CoverageType) (extent : Extent) (group : ReplayGroup)
    (frameState : FrameState) (events : list Event) : Outcome t :=
  let coverageSource := CoverageLayer.getSource layer in
  let projection := vs_projection (fs_viewState frameState) in
  let resolution := vs_resolution (fs_viewState frameState) in
  let bufferedExtent := buffer extent (to_number (of_field (buffer_ r))) in
  match coverageCache_ r with
  | None => mkOutcome (Throw TypeError) r (Some style) extent events
  | Some cache =>
      let flatCoverage :=
        deflateCoordinates (getInExtent cache bufferedExtent)
          (match numVertices_ r with Some n => n + 4 | None => 0 end)%nat in
      match flatCoverage with
      | [] => mkOutcome (Ok false) r (Some style) extent events
      | _ :: _ =>
          let strokeWidth :=
            match CoverageLayer.getStroke layer with
            | Some w => w
            | None =>
                if negb (type_eqb type RECTANGULAR) ||
                   negb (equivalent X
                           (CoverageSource.getProjection coverageSource)
                           projection)
                then Fin 1 else Fin 0
            end in
          let stroke := if negb (Num.eqb strokeWidth (Fin 0))
                        then Some strokeWidth else None in
          let group :=
            finish (renderCoverage group flatCoverage (numVertices_ r)
                                   stroke None) in
          mkOutcome (Ok true)
            (set_rendered r resolution (CoverageLayer.getRevision layer)
                          extent group)
            (Some style) extent events
      end
  end.

(** The middle of [prepareFrame], entered when the cached batch cannot
    be reused: restyle and rebuild the grid when the style checksum or
    the source revision changed, then [draw]. *)
Definition redraw (r : t) (style : CoverageStyle)
    (layer : CoverageLayer.t) (extent : Extent) (frameState : FrameState)
    : Outcome t :=
  let coverageSource := CoverageLayer.getSource layer in
  let projection := vs_projection (fs_viewState frameState) in
  let resolution := vs_resolution (fs_viewState frameState) in
  let pixelRatio := fs_pixelRatio frameState in
  let r := set_replayGroup r None in
  let group :=
    mkReplayGroup (getTolerance X resolution pixelRatio) extent
                  (Some resolution) (Some pixelRatio) [] None None None
                  false in
  let type := match CoverageSource.getType coverageSource with
              | Some ty => ty
              | None => RECTANGULAR
              end in
  match Style.getChecksum (toString X) (asString X) style with
  | (Throw e, style) => mkOutcome (Throw e) r (Some style) extent []
  | (Ok checksum, style) =>
      if negb (opt_string_eqb (renderedChecksum_ r) checksum) ||
         negb (opt_nat_eqb (renderedSourceRevision_ r)
                           (CoverageSource.getRevision coverageSource))
      then
        match CoverageSource.getStyledBand X coverageSource style
                (Fin 1) (Fin 0) with
        | Throw e =>
            mkOutcome (Throw e) r (Some style) extent [EvGetStyledBand]
        | Ok None =>
            mkOutcome (Ok false) r (Some style) extent [EvGetStyledBand]
        | Ok (Some styledCoverage) =>
            let pattern := CoverageSource.getPattern coverageSource in
            match getCellCoordinates_ type
                    (Band.getResolution styledCoverage) pattern with
            | Throw e =>
                mkOutcome (Throw e) r (Some style) extent
                          [EvGetStyledBand]
            | Ok cellCoords =>
                let vertices := length cellCoords in
                let rtree :=
                  createGrid X styledCoverage cellCoords type
                    (CoverageSource.getProjection coverageSource)
                    projection (Fin 0) pattern in
                match Style.getChecksum (toString X) (asString X) style
                with
                | (Throw e, style) =>
                    mkOutcome (Throw e) r (Some style) extent
                              [EvGetStyledBand; EvCreateGrid]
                | (Ok checksum, style) =>
                    let r :=
                      set_cache r checksum
                        (CoverageSource.getRevision coverageSource)
                        (Num.max (fst (Band.getResolution styledCoverage))
                                 (snd (Band.getResolution styledCoverage)))
                        rtree vertices in
                    draw r style layer type extent group frameState
                         [EvGetStyledBand; EvCreateGrid]
                end
            end
        end
      else draw r style layer type extent group frameState []
  end.

(** The extent after the world-wrap step: [frameState.extent] itself is
    widened in place. *)
Definition wrapped_extent (layer : CoverageLayer.t)
    (frameState : FrameState) : Extent :=
  let extent := fs_extent frameState in
  let viewState := fs_viewState frameState in
  let projectionExtent := proj_extent (vs_projection viewState) in
  if CoverageSource.getWrapX (CoverageLayer.getSource layer) &&
     proj_canWrapX (vs_projection viewState) &&
     negb (containsExtent projectionExtent (fs_extent frameState))
  then
    let worldWidth := getWidth projectionExtent in
    let gutter :=
      Num.max (Num.div (getWidth extent) (Fin 2)) worldWidth in
    mkExtent (Num.sub (minX projectionExtent) gutter) (minY extent)
             (Num.add (maxX projectionExtent) gutter) (maxY extent)
  else extent.

(** The test that lets the cached batch be reused. *)
Definition reusable (r : t) (resolution : number) (revision : nat)
    (extent : Extent) : result bool :=
  if opt_num_eqb (renderedResolution r) resolution &&
     opt_nat_eqb (renderedRevision r) revision
  then
    match renderedExtent r with
    | Some rendered => Ok (containsExtent rendered extent)
    | None => Throw TypeError
    end
  else Ok false.

Definition prepareFrame (r : t) (layer : CoverageLayer.t)
    (frameState : FrameState) : Outcome t :=
  let coverageSource := CoverageLayer.getSource layer in
  match CoverageLayer.getStyle layer with
  | None => mkOutcome (Ok false) r None (fs_extent frameState) []
  | Some style =>
      match Style.getChecksum (toString X) (asString X) style with
      | (Throw e, style) =>
          mkOutcome (Throw e) r (Some style) (fs_extent frameState) []
      | (Ok checksum, style) =>
          let style :=
            if negb (opt_string_eqb (renderedChecksum_ r) checksum)
            then Style.fillMissingValues style
                   (CoverageSource.getBands coverageSource)
            else style in
          let animating := negb (Nat.eqb (fs_animating frameState) 0) in
          let interacting :=
            negb (Nat.eqb (fs_interacting frameState) 0) in
          if (negb (CoverageLayer.getUpdateWhileAnimating layer) &&
              animating) ||
             (negb (CoverageLayer.getUpdateWhileInteracting layer) &&
              interacting)
          then mkOutcome (Ok true) r (Some style)
                         (fs_extent frameState) []
          else
            let resolution := vs_resolution (fs_viewState frameState) in
            let extent := wrapped_extent layer frameState in
            match reusable r resolution
                    (CoverageLayer.getRevision layer) extent with
            | Throw e => mkOutcome (Throw e) r (Some style) extent []
            | Ok true =>
                mkOutcome (Ok true) (set_replayGroupChanged r false)
                          (Some style) extent []
            | Ok false => redraw r style layer extent frameState
            end
      end
  end.

End WithExternals.

End CanvasCoverageLayerRenderer.

(** ** ol/renderer/webgl/CoverageLayer *)

Module WebGLCoverageLayerRenderer.

Record t : Type := mk {
  renderedChecksum_ : option string;
  renderedSourceRevision_ : option nat;
  buffer_ : option number;
  coverageCache_ : option RBush;
  numVertices_ : option nat;
  indices_ : list number;
  (* fields of the vector layer renderer this class extends *)
  renderedResolution : option number;
  renderedRevision : option nat;
  renderedExtent : option Extent;
  replayGroup : option ReplayGroup;
  replayGroupChanged : bool
}.

Definition set_replayGroupChanged (r : t) (b : bool) : t :=
  mk (renderedChecksum_ r) (renderedSourceRevision_ r) (buffer_ r)
     (coverageCache_ r) (numVertices_ r) (indices_ r) (renderedResolution r)
     (renderedRevision r) (renderedExtent r) (replayGroup r) b.

Definition set_replayGroup (r : t) (rg : option ReplayGroup) : t :=
  mk (renderedChecksum_ r) (renderedSourceRevision_ r) (buffer_ r)
     (coverageCache_ r) (numVertices_ r) (indices_ r) (renderedResolution r)
     (renderedRevision r) (renderedExtent r) rg (replayGroupChanged r).

Definition set_cache (r : t) (checksum : string) (revision : nat)
    (buffer : number) (rtree : RBush) (vertices : nat)
    (indices : list number) : t :=
  mk (Some checksum) (Some revision) (Some buffer) (Some rtree)
     (Some vertices) indices (renderedResolution r) (renderedRevision r)
     (renderedExtent r) (replayGroup r) (replayGroupChanged r).

Definition set_rendered (r : t) (resolution : number) (revision : nat)
    (extent : Extent) (rg : ReplayGroup) : t :=
  mk (renderedChecksum_ r) (renderedSourceRevision_ r) (buffer_ r)
     (coverageCache_ r) (numVertices_ r) (indices_ r) (Some resolution)
     (Some revision) (Some extent) (Some rg) (replayGroupChanged r).

Record CellShape : Type := mkCellShape {
  vertices : list number;
  indices : list number
}.

Section WithExternals.
Variable X : Externals.

Definition getCellCoordinates_ (type : CoverageType)
    (resolution : number * number) (pattern : option CoveragePattern)
    : result CellShape :=
  let halfX := Num.div (fst resolution) (Fin 2) in
  let halfY := Num.div (snd resolution) (Fin 2) in
  match type with
  | HEXAGONAL =>
      let fourthY := Num.div halfY (Fin 2) in
      Ok (mkCellShape
            [Num.neg halfX; Num.neg fourthY; Fin 0; Num.neg halfY;
             halfX; Num.neg fourthY; halfX; fourthY;
             Fin 0; halfY; Num.neg halfX; fourthY]
            (map Num.of_nat [0; 1; 2; 2; 3; 0; 0; 3; 5; 5; 3; 4]%nat))
  | CUSTOM =>
      match pattern with
      | Some pat =>
          let cellShape :=
            scale_shape (shape pat) (fst resolution) (snd resolution) in
          let tessellator := tessellate X cellShape [] 2 in
          Ok (mkCellShape (fst tessellator) (snd tessellator))
      | None => Throw TypeError
      end
  | RECTANGULAR =>
      Ok (mkCellShape
            [Num.neg halfX; Num.neg halfY; halfX; Num.neg halfY;
             halfX; halfY; Num.neg halfX; halfY]
            (map Num.of_nat [0; 1; 2; 2; 3; 0]%nat))
  end.

(** The end of [prepareFrame]: release the old replay group, query the
    cache, fill a new replay group, remember what was rendered. *)
Definition draw (r : t) (style : CoverageStyle) (layer : CoverageLayer.t)
    (frameState : FrameState) (events : list Event) : Outcome t :=
  let extent := fs_extent frameState in
  let resolution := vs_resolution (fs_viewState frameState) in
  let pixelRatio := fs_pixelRatio frameState in
  let '(r, events) :=
    match replayGroup r with
    | Some old => (set_replayGroup r None, events ++ [EvDeleteResources old])
    | None => (r, events)
    end in
  let bufferedExtent := buffer extent (to_number (of_field (buffer_ r))) in
  match coverageCache_ r with
  | None => mkOutcome (Throw TypeError) r (Some style) extent events
  | Some cache =>
      let flatCoverage :=
        deflateCoordinates (getInExtent cache bufferedExtent)
          (match numVertices_ r with Some n => n + 4 | None => 0 end)%nat in
      match flatCoverage with
      | [] => mkOutcome (Ok false) r (Some style) extent events
      | _ :: _ =>
          let group :=
            mkReplayGroup (getTolerance X resolution pixelRatio) extent
                          None None [] None None None false in
          let group :=
            finish (renderCoverage group flatCoverage (numVertices_ r)
                                   None (Some (indices_ r))) in
          mkOutcome (Ok true)
            (set_rendered r resolution (CoverageLayer.getRevision layer)
                          extent group)
            (Some style) extent events
      end
  end.

(** The middle of [prepareFrame], entered when the cached batch cannot
    be reused. *)
Definition redraw (r : t) (style : CoverageStyle)
    (layer : CoverageLayer.t) (frameState : FrameState) : Outcome t :=
  let coverageSource := CoverageLayer.getSource layer in
  let extent := fs_extent frameState in
  let projection := vs_projection (fs_viewState frameState) in
  let type := match CoverageSource.getType coverageSource with
              | Some ty => ty
              | None => RECTANGULAR
              end in
  match Style.getChecksum (toString X) (asString X) style with
  | (Throw e, style) => mkOutcome (Throw e) r (Some style) extent []
  | (Ok checksum, style) =>
      if negb (opt_string_eqb (renderedChecksum_ r) checksum) ||
         negb (opt_nat_eqb (renderedSourceRevision_ r)
                           (CoverageSource.getRevision coverageSource))
      then
        match CoverageSource.getStyledBand X coverageSource style
                (Fin 1) (Fin 0) with
        | Throw e =>
            mkOutcome (Throw e) r (Some style) extent [EvGetStyledBand]
        | Ok None =>
            mkOutcome (Ok false) r (Some style) extent [EvGetStyledBand]
        | Ok (Some styledCoverage) =>
            let pattern := CoverageSource.getPattern coverageSource in
            match getCellCoordinates_ type
                    (Band.getResolution styledCoverage) pattern with
            | Throw e =>
                mkOutcome (Throw e) r (Some style) extent
                          [EvGetStyledBand]
            | Ok cell =>
                let nvertices := length (vertices cell) in
                let rtree :=
                  createGrid X styledCoverage (vertices cell) type
                    (CoverageSource.getProjection coverageSource)
                    projection (Fin 0) pattern in
                match Style.getChecksum (toString X) (asString X) style
                with
                | (Throw e, style) =>
                    mkOutcome (Throw e) r (Some style) extent
                              [EvGetStyledBand; EvCreateGrid]
                | (Ok checksum, style) =>
                    let r :=
                      set_cache r checksum
                        (CoverageSource.getRevision coverageSource)
                        (Num.max (fst (Band.getResolution styledCoverage))
                                 (snd (Band.getResolution styledCoverage)))
                        rtree nvertices (indices cell) in
                    draw r style layer frameState
                         [EvGetStyledBand; EvCreateGrid]
                end
            end
        end
      else draw r style layer frameState []
  end.

(** The test that lets the cached batch be reused. *)
Definition reusable (r : t) (resolution : number) (revision : nat)
    (extent : Extent) : result bool :=
  if opt_num_eqb (renderedResolution r) resolution &&
     opt_nat_eqb (renderedRevision r) revision
  then
    match renderedExtent r with
    | Some rendered => Ok (containsExtent rendered extent)
    | None => Throw TypeError
    end
  else Ok false.

Definition prepareFrame (r : t) (layer : CoverageLayer.t)
    (frameState : FrameState) : Outcome t :=
  let coverageSource := CoverageLayer.getSource layer in
  match CoverageLayer.getStyle layer with
  | None => mkOutcome (Ok false) r None (fs_extent frameState) []
  | Some style =>
      match Style.getChecksum (toString X) (asString X) style with
      | (Throw e, style) =>
          mkOutcome (Throw e) r (Some style) (fs_extent frameState) []
      | (Ok checksum, style) =>
          let style :=
            if negb (opt_string_eqb (renderedChecksum_ r) checksum)
            then Style.fillMissingValues style
                   (CoverageSource.getBands coverageSource)
            else style in
          let animating := negb (Nat.eqb (fs_animating frameState) 0) in
          let interacting :=
            negb (Nat.eqb (fs_interacting frameState) 0) in
          if (negb (CoverageLayer.getUpdateWhileAnimating layer) &&
              animating) ||
             (negb (CoverageLayer.getUpdateWhileInteracting layer) &&
              interacting)
          then mkOutcome (Ok true) r (Some style)
                         (fs_extent frameState) []
          else
            let resolution := vs_resolution (fs_viewState frameState) in
            let extent := fs_extent frameState in
            match reusable r resolution
                    (CoverageLayer.getRevision layer) extent with
            | Throw e => mkOutcome (Throw e) r (Some style) extent []
            | Ok true =>
                mkOutcome (Ok true) (set_replayGroupChanged r false)
                          (Some style) extent []
            | Ok false => redraw r style layer frameState
            end
      end
  end.

End WithExternals.

End WebGLCoverageLayerRenderer.

(** ** ol/render/webgl/PolygonReplay *)

Module WebGLPolygonReplay.

(** A feature, as far as the replay looks at it: its uid and the extent
    of its geometry, if it has one. *)
Record Feature : Type := mkFeature {
  uid : nat;
  geometry : option Extent
}.

(** The replay.  [vertices] and [indices] are null once [finish] has run.
    The line string replay that draws the outlines is a separate object and
    is left out, and so are the GL buffers. *)
Record t : Type := mk {
  (* fields of the replay base class *)
  origin : number * number;
  vertices : option (list number);
  indices : option (list number);
  startIndices : list nat;
  startIndicesFeature : list Feature;
  (* fields of this class *)
  styles_ : list Color;
  styleIndices_ : list nat;
  state_fillColor : option Color;
  state_changed : bool
}.

Definition new (origin : number * number) : t :=
  mk origin (Some []) (Some []) [] [] [] [] None false.

(** A polygon geometry: flat coordinates, ring ends, stride. *)
Record Polygon : Type := mkPolygon {
  flatCoordinates : list number;
  ends : list nat;
  stride : nat
}.

Record MultiPolygon : Type := mkMultiPolygon {
  m_flatCoordinates : list number;
  endss : list (list nat);
  m_stride : nat
}.

(** Modelled from the spec: [equals] of ol/array.js (not among the
    sources), here on colours in array form: a style group is recorded only
    when the fill colour differs from the one before. *)
Definition color_equals (a b : Color) : bool :=
  Num.eqb (red a) (red b) && Num.eqb (green a) (green b) &&
  Num.eqb (blue a) (blue b) && Num.eqb (alpha a) (alpha b).

(** [setFillStrokeStyle(fillStyle, strokeStyle)]; [fillStyle] is the colour
    of the fill in array form when there is a fill (gradients and patterns
    are not modelled), and the stroke goes to the line string replay. *)
Definition setFillStrokeStyle (r : t) (fillStyle : option Color) : t :=
  let fillStyleColor :=
    match fillStyle with
    | Some c => c
    | None => mkColor (Fin 0) (Fin 0) (Fin 0) (Fin 0)
    end in
  let fillStyleColor :=
    mkColor (Num.div (red fillStyleColor) (Fin 255))
            (Num.div (green fillStyleColor) (Fin 255))
            (Num.div (blue fillStyleColor) (Fin 255))
            (alpha fillStyleColor) in
  if match state_fillColor r with
     | None => true
     | Some current => negb (color_equals fillStyleColor current)
     end
  then mk (origin r) (vertices r) (indices r) (startIndices r)
          (startIndicesFeature r) (styles_ r ++ [fillStyleColor])
          (styleIndices_ r) (Some fillStyleColor) true
  else r.

(** [startIndices.push(index); startIndicesFeature.push(feature)] and the
    style index that goes with them when the fill style changed. *)
Definition record_feature (r : t) (index : nat) (feature : Feature) : t :=
  mk (origin r) (vertices r) (indices r) (startIndices r ++ [index])
     (startIndicesFeature r ++ [feature]) (styles_ r)
     (if state_changed r then styleIndices_ r ++ [index] else styleIndices_ r)
     (state_fillColor r) false.

Section Drawing.
Variable X : Externals.

Definition drawCoordinates_ (r : t) (flat : list number)
    (holes : list (list number)) (stride : nat) : result t :=
  match vertices r, indices r with
  | Some vs, Some ixs =>
      let tessellator := tessellate X flat holes stride in
      let n := Num.div (Num.of_nat (length vs)) (Fin 2) in
      Ok (mk (origin r) (Some (vs ++ fst tessellator))
             (Some (ixs ++ map (fun i => Num.add i n) (snd tessellator)))
             (startIndices r) (startIndicesFeature r) (styles_ r)
             (styleIndices_ r) (state_fillColor r) (state_changed r))
  | _, _ => Throw TypeError
  end.

(** The holes of a polygon: the rings after the first that are not empty. *)
Fixpoint hole_rings (flat : list number) (stride : nat)
    (origin : number * number) (previous : nat) (ends : list nat)
    : list (list number) :=
  match ends with
  | [] => []
  | e :: rest =>
      (if negb (Nat.eqb e previous)
       then [translate X flat (Some previous) e stride
                       (Num.neg (fst origin)) (Num.neg (snd origin))]
       else [])
      ++ hole_rings flat stride origin e rest
  end.

Definition drawPolygon (r : t) (polygonGeometry : Polygon)
    (feature : Feature) : result t :=
  match ends polygonGeometry with
  | [] => Ok r
  | end0 :: rest =>
      let stride := stride polygonGeometry in
      let flat := flatCoordinates polygonGeometry in
      let outerRing :=
        translate X flat (Some 0%nat) end0 stride
                  (Num.neg (fst (origin r))) (Num.neg (snd (origin r))) in
      match outerRing with
      | [] => Ok r
      | _ :: _ =>
          let holes := hole_rings flat stride (origin r) end0 rest in
          match indices r with
          | None => Throw TypeError
          | Some ixs =>
              drawCoordinates_ (record_feature r (length ixs) feature)
                               outerRing holes stride
          end
      end
  end.

(** One round of the loop of [drawMultiPolygon] over the polygons; the
    state is the replay and [start]. *)
Definition multi_step (flat : list number) (stride : nat)
    (st : result (t * option nat)) (ends : list nat)
    : result (t * option nat) :=
  acc <-- st;;
  let '(r, start) := acc in
  r' <-- match ends with
         | [] => Ok r
         | end0 :: rest =>
             let outerRing :=
               translate X flat start end0 stride
                         (Num.neg (fst (origin r)))
                         (Num.neg (snd (origin r))) in
             match outerRing with
             | [] => Ok r
             | _ :: _ =>
                 drawCoordinates_ r outerRing
                   (hole_rings flat stride (origin r) end0 rest) stride
             end
         end;;
  Ok (r', last ends).

Definition drawMultiPolygon (r : t) (multiPolygonGeometry : MultiPolygon)
    (feature : Feature) : result t :=
  match indices r with
  | None => Throw TypeError
  | Some ixs =>
      let currIndex := length ixs in
      drawn <-- fold_left
                  (multi_step (m_flatCoordinates multiPolygonGeometry)
                              (m_stride multiPolygonGeometry))
                  (endss multiPolygonGeometry) (Ok (r, Some 0%nat));;
      let r := fst drawn in
      match indices r with
      | None => Throw TypeError
      | Some ixs' =>
          if (currIndex <? length ixs')%nat
          then Ok (record_feature r currIndex feature)
          else Ok r
      end
  end.

Definition finish (r : t) : result t :=
  match indices r with
  | None => Throw TypeError
  | Some ixs =>
      Ok (mk (origin r) None None (startIndices r ++ [length ixs])
             (startIndicesFeature r)
             (match styleIndices_ r, styles_ r with
              | [], _ :: _ => []
              | _, styles => styles
              end)
             (styleIndices_ r) (state_fillColor r) (state_changed r))
  end.

(** The drawing calls that fill a replay. *)
Inductive DrawCall : Type :=
  | SetFillStrokeStyle (fillStyle : option Color)
  | DrawPolygon (polygonGeometry : Polygon) (feature : Feature)
  | DrawMultiPolygon (multiPolygonGeometry : MultiPolygon) (feature : Feature).

Definition draw_call (st : result t) (c : DrawCall) : result t :=
  r <-- st;;
  match c with
  | SetFillStrokeStyle fillStyle => Ok (setFillStrokeStyle r fillStyle)
  | DrawPolygon g f => drawPolygon r g f
  | DrawMultiPolygon g f => drawMultiPolygon r g f
  end.

(** A new replay, the drawing calls in order, then [finish]. *)
Definition accumulate (origin : number * number) (calls : list DrawCall)
    : result t :=
  r <-- fold_left draw_call calls (Ok (new origin));;
  finish r.

End Drawing.

(** Calls made on the GL context and on the feature callback, in order. *)
Inductive Call : Type :=
  | Uniform4fv (color : option Color)
  | Clear
  | DrawElements (start : nat) (end_ : option nat)
  | FeatureCallback (feature : Feature).

(** The loop variables besides [i]: [featureIndex + 1] (so that 0 stands
    for every negative index), [end] and the calls made so far. *)
Record LoopState : Type := mkLoopState {
  ls_next : nat;
  ls_end : option nat;
  ls_calls : list Call
}.

Section HitDetection.
(** What a truthy callback result is. *)
Context {R : Type}.
Variable replay : t.
(** [skippedFeaturesHash], keyed by uid *)
Variable skippedFeaturesHash : gmap nat bool.
(** the callback: [None] stands for every falsy result *)
Variable featureCallback : Feature -> option R.
Variable opt_hitExtent : option Extent.

(** The test that guards the redraw of one feature. *)
Definition hit_candidate (feature : Feature) : bool :=
  match skippedFeaturesHash !! uid feature with
  | None =>
      match geometry feature with
      | Some geometryExtent =>
          match opt_hitExtent with
          | None => true
          | Some hitExtent => intersects hitExtent geometryExtent
          end
      | None => false
      end
  | Some _ => false
  end.

(** The [while] loop for one style group.  [Ok (Some result)] is the
    [return result] inside the loop; [Ok None] means the loop ended. *)
Fixpoint feature_loop (next : nat) (groupStart : nat)
    (end_ : option nat) (calls : list Call)
    : result (option R) * LoopState :=
  match next with
  | 0%nat => (Ok None, mkLoopState 0 end_ calls)
  | S featureIndex =>
      match startIndices replay !! featureIndex with
      | Some start =>
          if (groupStart <=? start)%nat then
            match startIndicesFeature replay !! featureIndex with
            | None =>
                (Throw TypeError, mkLoopState next end_ calls)
            | Some feature =>
                if hit_candidate feature then
                  let calls :=
                    calls ++ [Clear; DrawElements start end_;
                              FeatureCallback feature] in
                  match featureCallback feature with
                  | Some result =>
                      (Ok (Some result), mkLoopState next end_ calls)
                  | None =>
                      feature_loop featureIndex groupStart (Some start)
                                   calls
                  end
                else
                  feature_loop featureIndex groupStart (Some start) calls
            end
          else (Ok None, mkLoopState next end_ calls)
      | None => (Ok None, mkLoopState next end_ calls)
      end
  end.

(** The [for] loop over the style groups, last group first; [i] counts
    the groups still to do. *)
Fixpoint style_loop (i : nat) (st : LoopState)
    : result (option R) * LoopState :=
  match i with
  | 0%nat => (Ok None, st)
  | S i' =>
      let nextStyle := styles_ replay !! i' in
      let calls := ls_calls st ++ [Uniform4fv nextStyle] in
      match styleIndices_ replay !! i' with
      | Some groupStart =>
          match feature_loop (ls_next st) groupStart (ls_end st) calls
          with
          | (Ok None, st') => style_loop i' st'
          | other => other
          end
      | None => style_loop i' (mkLoopState (ls_next st) (ls_end st) calls)
      end
  end.

(** The value returned ([None] is [undefined]) and the calls made. *)
Definition drawHitDetectionReplayOneByOne
    : result (option R) * list Call :=
  let next := (length (startIndices replay) - 1)%nat in
  (* [startIndices[featureIndex + 1]], undefined on an empty array *)
  let end_ :=
    startIndices replay !! (length (startIndices replay) - 1)%nat in
  let '(res, st) :=
    style_loop (length (styleIndices_ replay))
               (mkLoopState next end_ []) in
  (res, ls_calls st).

End HitDetection.

(** Calls that [drawReplay] makes on the GL context between the saving and
    the restoring of the depth state: [setFillStyle_] (a [uniform4fv] of
    the colour), [drawElements] with its range, and the clearing of the
    depth buffer after a partial draw. *)
Inductive ReplayCall : Type :=
  | SetFillStyle (color : option Color)
  | DrawRange (start end_ : option nat)
  | ClearDepth.

(** The loop variables of [drawReplaySkipping_] besides [i]:
    [featureIndex + 1], [start], [end] and the calls made so far. *)
Record SkipState : Type := mkSkipState {
  ss_next : nat;
  ss_start : option nat;
  ss_end : option nat;
  ss_calls : list ReplayCall
}.

Section Replay.
Variable replay : t.
(** [skippedFeaturesHash], keyed by uid *)
Variable skippedFeaturesHash : gmap nat bool.

(** [skippedFeaturesHash[featureUid]], read as a condition. *)
Definition is_skipped (feature : Feature) : bool :=
  match skippedFeaturesHash !! uid feature with
  | Some b => b
  | None => false
  end.

(** [start !== end] *)
Definition differ (start end_ : option nat) : bool :=
  negb (bool_decide (start = end_)).

(** [if (start !== end) { drawElements(start, end); clear(DEPTH) }] *)
Definition draw_pending (start end_ : option nat) (calls : list ReplayCall)
    : list ReplayCall :=
  if differ start end_
  then calls ++ [DrawRange start end_; ClearDepth]
  else calls.

(** The [while] loop of [drawReplaySkipping_] for one style group. *)
Fixpoint skip_feature_loop (next groupStart : nat) (start end_ : option nat)
    (calls : list ReplayCall) : result SkipState :=
  match next with
  | 0%nat => Ok (mkSkipState 0 start end_ calls)
  | S featureIndex =>
      match startIndices replay !! featureIndex with
      | Some featureStart =>
          if (groupStart <=? featureStart)%nat then
            match startIndicesFeature replay !! featureIndex with
            | None => Throw TypeError
            | Some feature =>
                if is_skipped feature then
                  skip_feature_loop featureIndex groupStart
                    (Some featureStart) (Some featureStart)
                    (draw_pending start end_ calls)
                else
                  skip_feature_loop featureIndex groupStart
                    (Some featureStart) end_ calls
            end
          else Ok (mkSkipState next start end_ calls)
      | None => Ok (mkSkipState next start end_ calls)
      end
  end.

(** The [for] loop of [drawReplaySkipping_] over the style groups, last
    group first; [i] counts the groups still to do. *)
Fixpoint skip_style_loop (i : nat) (st : SkipState) : result SkipState :=
  match i with
  | 0%nat => Ok st
  | S i' =>
      let nextStyle := styles_ replay !! i' in
      let calls := ss_calls st ++ [SetFillStyle nextStyle] in
      let groupStart := styleIndices_ replay !! i' in
      st' <-- match groupStart with
              | Some g =>
                  skip_feature_loop (ss_next st) g (ss_start st) (ss_end st)
                                    calls
              | None =>
                  Ok (mkSkipState (ss_next st) (ss_start st) (ss_end st)
                                  calls)
              end;;
      skip_style_loop i'
        (mkSkipState (ss_next st') groupStart groupStart
           (draw_pending (ss_start st') (ss_end st') (ss_calls st')))
  end.

Definition drawReplaySkipping_ : result (list ReplayCall) :=
  let next := (length (startIndices replay) - 1)%nat in
  (* [startIndices[featureIndex + 1]], undefined on an empty array *)
  let start :=
    startIndices replay !! (length (startIndices replay) - 1)%nat in
  st <-- skip_style_loop (length (styleIndices_ replay))
                         (mkSkipState next start start []);;
  Ok (ss_calls st).

(** The [for] loop of [drawReplay] over the style groups, last group
    first. *)
Fixpoint group_loop (i : nat) (end_ : option nat) (calls : list ReplayCall)
    : list ReplayCall :=
  match i with
  | 0%nat => calls
  | S i' =>
      let start := styleIndices_ replay !! i' in
      let nextStyle := styles_ replay !! i' in
      group_loop i' start
                 (calls ++ [SetFillStyle nextStyle; DrawRange start end_])
  end.

(** [drawReplay]: the calls it makes besides those on the depth state,
    which are the only ones the [hitDetection] flag decides about. *)
Definition drawReplay : result (list ReplayCall) :=
  if negb (bool_decide (skippedFeaturesHash = ∅))
  then drawReplaySkipping_
  else
    let end_ :=
      startIndices replay !! (length (startIndices replay) - 1)%nat in
    Ok (group_loop (length (styleIndices_ replay)) end_ []).

End Replay.

End WebGLPolygonReplay.

(* ================================================================== *)
(** * Statements in the words of the specification, and sample inputs  *)
(* ================================================================== *)

(** The alpha the specification asks for: the [maxAlpha] argument for a cell
    that equals ([===]) the nodata value, the [minAlpha] argument for any
    other cell. *)
Definition spec_alpha (nodata : value) (minAlpha maxAlpha : number)
    (cell : number) : number :=
  if strict_equals (VNum cell) nodata then maxAlpha else minAlpha.

(** The composite style, in the words of its contract.  [apply] is handed
    the matrices of the channels that have a band index, in RGB order
    (a channel without band index is left out, the order is kept), and the
    nodata values of these matrices in the same order. *)
Definition Channel : Type := option (list number * value).

(** The three band indices of the style, and how many of them are
    defined. *)
Definition rgb_indices (s : RGB.t) : list (option number) :=
  [Monochrome.getBandIndex (RGB.getRed s);
   Monochrome.getBandIndex (RGB.getGreen s);
   Monochrome.getBandIndex (RGB.getBlue s)].

Definition indexed_channels (s : RGB.t) : nat :=
  length (List.filter (fun index : option number =>
                         match index with Some _ => true | None => false end)
                      (rgb_indices s)).

(** A channel with a band index takes the next matrix handed over; a
    channel without one is missing. *)
Definition take_channel (index : option number)
    (given : list (list number * value))
    : Channel * list (list number * value) :=
  match index, given with
  | Some _, g :: rest => (Some g, rest)
  | _, _ => (None, given)
  end.

(** The red, green and blue channel of a call of [apply]. *)
Definition spec_channels (s : RGB.t) (matrices : list (list number))
    (nodata : list value) : Channel * Channel * Channel :=
  let given := combine matrices nodata in
  let '(r, given) :=
    take_channel (Monochrome.getBandIndex (RGB.getRed s)) given in
  let '(g, given) :=
    take_channel (Monochrome.getBandIndex (RGB.getGreen s)) given in
  let '(b, _) :=
    take_channel (Monochrome.getBandIndex (RGB.getBlue s)) given in
  (r, g, b).

(** The cells of a composite are those of the first channel that is
    present. *)
Definition spec_cells (channels : Channel * Channel * Channel) : nat :=
  let '(r, g, b) := channels in
  match r, g, b with
  | Some (m, _), _, _ => length m
  | None, Some (m, _), _ => length m
  | None, None, Some (m, _) => length m
  | None, None, None => 0%nat
  end.

(** Cell [i] of a channel is nodata when the channel is missing or the cell
    equals ([===]) the nodata value of the channel. *)
Definition spec_channel_nodata (channel : Channel) (i : nat) : bool :=
  match channel with
  | Some (m, nodata) => strict_equals (cell_at m i) nodata
  | None => true
  end.

(** The alpha of cell [i] of a composite: the [maxAlpha] argument when the
    cell is nodata in each of the three channels, the [minAlpha] argument
    otherwise. *)
Definition spec_alpha_rgb (channels : Channel * Channel * Channel)
    (minAlpha maxAlpha : number) (i : nat) : number :=
  let '(r, g, b) := channels in
  if spec_channel_nodata r i && spec_channel_nodata g i &&
     spec_channel_nodata b i
  then maxAlpha else minAlpha.

(** The colour component of cell [i] of a channel: the cell stretched
    between the bounds of the channel's style to 0..255, rounded and
    clamped; 0 for a missing channel. *)
Definition spec_level (style : Monochrome.t) (channel : Channel) (i : nat)
    : number :=
  match channel with
  | Some (m, _) =>
      let min := to_number (of_field (Monochrome.getMin style)) in
      let max := to_number (of_field (Monochrome.getMax style)) in
      clamp
        (Num.round
           (Num.mul (Fin 255)
              (Num.div (Num.sub (to_number (cell_at m i)) min)
                       (Num.sub max min))))
        (Fin 0) (Fin 255)
  | None => Fin 0
  end.

(** The red, green and blue written for cell [i] of a composite. *)
Definition spec_colour_rgb (s : RGB.t) (channels : Channel * Channel * Channel)
    (i : nat) : list number :=
  let '(r, g, b) := channels in
  [spec_level (RGB.getRed s) r i; spec_level (RGB.getGreen s) g i;
   spec_level (RGB.getBlue s) b i].

(** A composite of a green and a blue band, without red. *)
Definition sample_rgb : RGB.t :=
  RGB.new
    (RGB.mkOptions
       (Some (Monochrome.setBandIndex
                (Monochrome.new (Monochrome.mkOptions (Some (Fin 0))
                                   (Some (Fin 10)) None))
                None))
       (Some (Monochrome.new (Monochrome.mkOptions (Some (Fin 0))
                                (Some (Fin 10)) (Some (Fin 0)))))
       (Some (Monochrome.new (Monochrome.mkOptions (Some (Fin 0))
                                (Some (Fin 10)) (Some (Fin 1)))))).


(** A pseudocolor style with two breakpoints given out of order. *)
Definition sample_pseudocolor : Pseudocolor.t :=
  Pseudocolor.new
    (Pseudocolor.mkOptions (Some (Fin 0)) (Some (Fin 10)) None None None None
       (Some [(Fin 7, mkColor (Fin 0) (Fin 0) (Fin 255) (Fin 1));
              (Fin 3, mkColor (Fin 255) (Fin 0) (Fin 0) (Fin 1))])).

(** A pseudocolor style whose minimum lies above its maximum. *)
Definition inverted_pseudocolor : Pseudocolor.t :=
  Pseudocolor.new
    (Pseudocolor.mkOptions (Some (Fin 10)) (Some (Fin 0)) None None None None
       None).

(** The style with its breakpoint list replaced by [bps], inserted in that
    order. *)
Definition with_breakpoints (s : Pseudocolor.t)
    (bps : list Pseudocolor.PseudocolorMap) : Pseudocolor.t :=
  fold_left Pseudocolor.addBreakpoint bps (Pseudocolor.clearBreakpoints s).

(** Breakpoint values that are numbers other than NaN and pairwise
    different. *)
Fixpoint distinct_values (bps : list Pseudocolor.PseudocolorMap) : bool :=
  match bps with
  | [] => true
  | p :: rest =>
      match fst p with NaN => false | _ => true end &&
      forallb (fun q => negb (Num.eqb (fst p) (fst q))) rest &&
      distinct_values rest
  end.

(** Ascending by value. *)
Definition ascending (bps : list Pseudocolor.PseudocolorMap) : Prop :=
  StronglySorted (fun p q => Num.le (fst p) (fst q) = true) bps.

Definition red_c : Color := mkColor (Fin 255) (Fin 0) (Fin 0) (Fin 1).
Definition blue_c : Color := mkColor (Fin 0) (Fin 0) (Fin 255) (Fin 1).

(** A categorized style over [0, 10] without breakpoints. *)
Definition plain_categorized : Pseudocolor.t :=
  Pseudocolor.new
    (Pseudocolor.mkOptions (Some (Fin 0)) (Some (Fin 10)) None None None
       (Some CATEGORIZED) None).

(** The cells of a band that are not its null value. *)
Definition valid_cells (matrix : list number) (nullValue : value)
    : list number :=
  List.filter (fun cell => negb (strict_equals (VNum cell) nullValue)) matrix.






(** A band whose two cells both hold the null value, and the 2 x 2 band of
    the end-to-end scenario of the specification. *)
Definition unit_extent : Extent := mkExtent (Fin 0) (Fin 0) (Fin 2) (Fin 2).

(** The band a constructor call gives; the band without cells stands in
    where the call throws, which it does on none of the samples. *)
Definition constructed (r : result Band.t) : Band.t :=
  match r with
  | Ok band => band
  | Throw _ =>
      Band.mk FLOAT64 VNull unit_extent (Fin 0, Fin 0) false
        (Matrix.mk [] (Fin 0) (Fin 1, Fin 1) false)
        (Band.mkStat NaN NaN NaN NaN NaN) 0
  end.



Definition sample_options : Band.Options :=
  Band.mkOptions (Some false) unit_extent (VNum (Fin (-9999)))
    [Fin 1; Fin 2; Fin (-9999); Fin 4] None (Fin 1, Fin 1) (Fin 2) INT16.

Definition sample_band : Band.t :=
  constructed (Band.new true sample_options).


(** Stand-ins for the functions outside the sources, used to run the model
    on sample inputs.  [sample_toString] agrees with the language on
    integers and on the special values. *)
Definition sample_toString (n : number) : string :=
  match n with
  | NaN => "NaN"
  | PInf => "Infinity"
  | NInf => "-Infinity"
  | Fin q =>
      let r := Qred q in
      if (Qden r =? 1)%positive then pretty (Qnum r)
      else pretty (Qnum r) +:+ "/" +:+ pretty (Z.pos (Qden r))
  end.

Definition sample_asString (c : Color) : string :=
  "rgba(" +:+ color_to_str sample_toString c +:+ ")".

Definition sample_externals : Externals :=
  mkExternals
    sample_toString
    sample_asString
    true
    (* bands that already share a grid *)
    (fun bands _ =>
       match bands with
       | b :: _ =>
           Ok (mkAligned (map Band.getCoverageData bands)
                 (mkAlignedProperties (Band.getExtent b) (Band.getOrigin b)
                    (Band.getStride b) (Band.getResolution b)))
       | [] => Throw TypeError
       end)
    (* one cell that covers the band, carrying its first colour *)
    (fun band cellCoords _ _ _ _ _ =>
       [mkGridCell (cellCoords ++ firstn 4 (Band.getCoverageData band))
                   (Band.getExtent band)])
    (fun resolution pixelRatio => Num.div resolution pixelRatio)
    (fun p q => if string_dec (proj_code p) (proj_code q) then true else false)
    (* a fan of triangles over the ring *)
    (fun flat _ stride =>
       (flat,
        flat_map (fun i => [Fin 0; Num.of_nat (S i); Num.of_nat (S (S i))])
                 (seq 0 (length flat / stride - 2))))
    (* the slice of whole points, moved *)
    (fun flat offset end_ stride dx dy =>
       match offset with
       | Some o =>
           flat_map (fun j => [Num.add (to_number (cell_at flat j)) dx;
                               Num.add (to_number (cell_at flat (S j))) dy])
                    (map (fun k => (o + stride * k)%nat)
                         (seq 0 ((end_ - o) / stride)))
       | None => []
       end).

(** A source without bands, and one holding [sample_band]. *)
Definition sample_projection : Projection :=
  mkProjection "EPSG:3857"
    (mkExtent (Fin (-180)) (Fin (-90)) (Fin 180) (Fin 90)) true.

Definition empty_source : CoverageSource.t :=
  CoverageSource.mk None None [] 0 false sample_projection LOADING.

Definition sample_source : CoverageSource.t :=
  CoverageSource.mk None None [sample_band] 1 false sample_projection READY.

(** A monochrome style with min explicitly 0 and max 10. *)
Definition zero_min_style : Monochrome.t :=
  Monochrome.new (Monochrome.mkOptions (Some (Fin 0)) (Some (Fin 10)) None).

(** A layer on [sample_source] with the default style, and three frames:
    a first frame, a frame of a zoom animation at a finer resolution, and
    the frame after the animation at that same resolution. *)
Definition sample_layer : CoverageLayer.t :=
  CoverageLayer.mk (Some (StyleMonochrome (Monochrome.defaultStyle None)))
                   None false false 5 sample_source.

Definition first_frame : FrameState :=
  mkFrameState 0 0 (mkExtent (Fin 0) (Fin 0) (Fin 2) (Fin 2))
               (mkViewState sample_projection (Fin 1)) (Fin 1).

Definition animation_frame : FrameState :=
  mkFrameState 1 0
    (mkExtent (Fin (1 # 2)) (Fin (1 # 2)) (Fin (3 # 2)) (Fin (3 # 2)))
    (mkViewState sample_projection (Fin (1 # 2))) (Fin 1).

Definition settled_frame : FrameState :=
  mkFrameState 0 0
    (mkExtent (Fin (1 # 2)) (Fin (1 # 2)) (Fin (3 # 2)) (Fin (3 # 2)))
    (mkViewState sample_projection (Fin (1 # 2))) (Fin 1).

Definition fresh_webgl_renderer : WebGLCoverageLayerRenderer.t :=
  WebGLCoverageLayerRenderer.mk None None None None None [] None None None
                                None true.

Definition fresh_canvas_renderer : CanvasCoverageLayerRenderer.t :=
  CanvasCoverageLayerRenderer.mk None None None None None None None None
                                 None true.

(** The renderer, and the layer with its style object, after a call. *)
Definition webgl_after (r : WebGLCoverageLayerRenderer.t)
    (layer : CoverageLayer.t) (frameState : FrameState)
    : WebGLCoverageLayerRenderer.t * CoverageLayer.t :=
  let o := WebGLCoverageLayerRenderer.prepareFrame sample_externals r layer
             frameState in
  (out_renderer o, CoverageLayer.with_style layer (out_style o)).

Definition canvas_after (r : CanvasCoverageLayerRenderer.t)
    (layer : CoverageLayer.t) (frameState : FrameState)
    : CanvasCoverageLayerRenderer.t * CoverageLayer.t :=
  let o := CanvasCoverageLayerRenderer.prepareFrame sample_externals r layer
             frameState in
  (out_renderer o, CoverageLayer.with_style layer (out_style o)).

(** The features the callback was called with, in call order. *)
Definition callback_features (calls : list WebGLPolygonReplay.Call)
    : list WebGLPolygonReplay.Feature :=
  flat_map (fun c => match c with
                     | WebGLPolygonReplay.FeatureCallback f => [f]
                     | _ => []
                     end) calls.

(** No polygon is drawn before a fill style is set. *)
Definition style_first (calls : list WebGLPolygonReplay.DrawCall) : bool :=
  match calls with
  | [] => true
  | WebGLPolygonReplay.SetFillStrokeStyle _ :: _ => true
  | _ => false
  end.

(** Walking a list of features until the callback gives a truthy value:
    the features walked and the value. *)
Fixpoint visit_until_hit {R} (callback : WebGLPolygonReplay.Feature -> option R)
    (features : list WebGLPolygonReplay.Feature)
    : list WebGLPolygonReplay.Feature * option R :=
  match features with
  | [] => ([], None)
  | f :: rest =>
      match callback f with
      | Some r => ([f], Some r)
      | None =>
          let '(visited, r) := visit_until_hit callback rest in
          (f :: visited, r)
      end
  end.

(** Three features drawn in the order a, b, c in two style groups. *)
Definition feature_a : WebGLPolygonReplay.Feature :=
  WebGLPolygonReplay.mkFeature 1 (Some unit_extent).
Definition feature_b : WebGLPolygonReplay.Feature :=
  WebGLPolygonReplay.mkFeature 2 (Some unit_extent).
Definition feature_c : WebGLPolygonReplay.Feature :=
  WebGLPolygonReplay.mkFeature 3 (Some unit_extent).

Definition sample_square : WebGLPolygonReplay.Polygon :=
  WebGLPolygonReplay.mkPolygon
    [Fin 0; Fin 0; Fin 2; Fin 0; Fin 2; Fin 2; Fin 0; Fin 2] [8%nat] 2.

Definition sample_calls : list WebGLPolygonReplay.DrawCall :=
  [WebGLPolygonReplay.SetFillStrokeStyle (Some red_c);
   WebGLPolygonReplay.DrawPolygon sample_square feature_a;
   WebGLPolygonReplay.DrawPolygon sample_square feature_b;
   WebGLPolygonReplay.SetFillStrokeStyle (Some blue_c);
   WebGLPolygonReplay.DrawPolygon sample_square feature_c].

Definition sample_replay : WebGLPolygonReplay.t :=
  match WebGLPolygonReplay.accumulate sample_externals (Fin 0, Fin 0)
          sample_calls with
  | Ok replay => replay
  | Throw _ => WebGLPolygonReplay.new (Fin 0, Fin 0)
  end.

(** Invariants of a replay while it is being filled.  [grows r r']: from
    [r] to [r'] only the vertex and index buffers changed, and the index
    buffer did not shrink. *)
Definition grows (r r' : WebGLPolygonReplay.t) : Prop :=
  WebGLPolygonReplay.origin r' = WebGLPolygonReplay.origin r /\
  WebGLPolygonReplay.startIndices r' = WebGLPolygonReplay.startIndices r /\
  WebGLPolygonReplay.startIndicesFeature r' =
  WebGLPolygonReplay.startIndicesFeature r /\
  WebGLPolygonReplay.styles_ r' = WebGLPolygonReplay.styles_ r /\
  WebGLPolygonReplay.styleIndices_ r' = WebGLPolygonReplay.styleIndices_ r /\
  WebGLPolygonReplay.state_fillColor r' =
  WebGLPolygonReplay.state_fillColor r /\
  WebGLPolygonReplay.state_changed r' = WebGLPolygonReplay.state_changed r /\
  forall ixs, WebGLPolygonReplay.indices r = Some ixs ->
    exists ixs', WebGLPolygonReplay.indices r' = Some ixs' /\
                 (length ixs <= length ixs')%nat.

(** One start index per recorded feature, and no recorded index beyond the
    index buffer. *)
Definition consistent (r : WebGLPolygonReplay.t) : Prop :=
  length (WebGLPolygonReplay.startIndices r) =
  length (WebGLPolygonReplay.startIndicesFeature r) /\
  exists ixs,
    WebGLPolygonReplay.indices r = Some ixs /\
    Forall (fun s => (s <= length ixs)%nat)
           (WebGLPolygonReplay.startIndices r) /\
    Forall (fun s => (s <= length ixs)%nat)
           (WebGLPolygonReplay.styleIndices_ r).

(** A fill style is set, and the first style group starts no later than
    any recorded feature. *)
Definition styled (r : WebGLPolygonReplay.t) : Prop :=
  WebGLPolygonReplay.state_fillColor r <> None /\
  match WebGLPolygonReplay.styleIndices_ r with
  | [] => WebGLPolygonReplay.startIndices r = [] /\
          WebGLPolygonReplay.state_changed r = true
  | g :: _ => Forall (fun s => (g <= s)%nat)
                     (WebGLPolygonReplay.startIndices r)
  end.

(** Order of two breaks by value, strict. *)
Definition value_lt (p q : Pseudocolor.PseudocolorMap) : Prop :=
  Num.lt (fst p) (fst q) = true.

(** Adjacent elements of the sorted array are never out of order. *)
Definition locally_sorted (arr : list Pseudocolor.PseudocolorMap) : Prop :=
  Sorted (fun p q => Num.lt (fst q) (fst p) = false) arr.

(** The first loop, restricted to the cells it does not skip. *)
Definition stat_step (acc : number * number * number * number)
    (cell : number) : number * number * number * number :=
  let '(min, max, sum, count) := acc in
  (if Num.lt cell min then cell else min,
   if Num.gt cell max then cell else max,
   Num.add sum cell,
   Num.add count (Fin 1)).

(** The outcome of the loops of the hit detection after the features
    [processed]: a hit with its value, or no hit, the loop variable at [k]
    and the condition [stopped]. *)
Definition loop_outcome {R}
    (callback : WebGLPolygonReplay.Feature -> option R)
    (candidate : WebGLPolygonReplay.Feature -> bool)
    (run : result (option R) * WebGLPolygonReplay.LoopState)
    (calls : list WebGLPolygonReplay.Call)
    (processed : list WebGLPolygonReplay.Feature) (k : nat)
    (stopped : Prop) : Prop :=
  match visit_until_hit callback (List.filter candidate processed) with
  | (v, Some x) =>
      fst run = Ok (Some x) /\
      callback_features (WebGLPolygonReplay.ls_calls (snd run)) =
      callback_features calls ++ v
  | (v, None) =>
      fst run = Ok None /\
      WebGLPolygonReplay.ls_next (snd run) = k /\
      callback_features (WebGLPolygonReplay.ls_calls (snd run)) =
      callback_features calls ++ v /\
      stopped
  end.

(** Stand-ins for [parseFloat] and [toUpperCase] on the sample file below:
    the numbers 0 to 9 by their digit, NaN for any other string, and the
    letters a to z to upper case. *)
Definition sample_parseFloat (s : string) : number :=
  match s with
  | String c EmptyString =>
      let n := nat_of_ascii c in
      if (48 <=? n)%nat && (n <=? 57)%nat then Num.of_nat (n - 48) else NaN
  | _ => NaN
  end.

Definition upper_ascii (c : ascii) : ascii :=
  let n := nat_of_ascii c in
  if (97 <=? n)%nat && (n <=? 122)%nat then ascii_of_nat (n - 32) else c.

Fixpoint sample_toUpperCase (s : string) : string :=
  match s with
  | EmptyString => EmptyString
  | String c rest => String (upper_ascii c) (sample_toUpperCase rest)
  end.

(** The lines of a 2 x 2 grid file, header names in lower case and in an
    order of their own, and the file. *)
Definition sample_grid_lines : list string :=
  ["nrows 2"; "ncols 2"; "cellsize 1"; "xllcorner 0"; "yllcorner 0";
   "nodata_value 9"; "1 2"; "9 4"].

Fixpoint join_lines (lines : list string) : string :=
  match lines with
  | [] => EmptyString
  | [line] => line
  | line :: rest => line +:+ String "010" (join_lines rest)
  end.

Definition sample_grid : string := join_lines sample_grid_lines.

(** The same file with its first two header lines exchanged. *)
Definition sample_grid_swapped : string :=
  join_lines
    ["ncols 2"; "nrows 2"; "cellsize 1"; "xllcorner 0"; "yllcorner 0";
     "nodata_value 9"; "1 2"; "9 4"].

(* ================================================================== *)
(** * Call sequences and notions used by the further properties        *)
(* ================================================================== *)

(** The calls that change or read a monochrome style. *)
Inductive MonochromeCall : Type :=
  | CallSetMin (min : option number)
  | CallSetMax (max : option number)
  | CallSetBandIndex (band : option number)
  | CallGetChecksum.

Definition monochrome_call (toString : number -> string) (s : Monochrome.t)
    (c : MonochromeCall) : Monochrome.t :=
  match c with
  | CallSetMin min => Monochrome.setMin s min
  | CallSetMax max => Monochrome.setMax s max
  | CallSetBandIndex band => Monochrome.setBandIndex s band
  | CallGetChecksum => snd (Monochrome.getChecksum toString s)
  end.

(** A string without a comma. *)
Fixpoint comma_free (s : string) : bool :=
  match s with
  | EmptyString => true
  | String c rest => negb (Ascii.eqb c ","%char) && comma_free rest
  end.

(** A bound of a monochrome style as its checksum shows it. *)
Definition shown (toString : number -> string) (x : option number) : string :=
  match x with
  | Some m => toString m
  | None => "-"
  end.

(** A break strictly inside the range of a pseudocolor style. *)
Definition in_range (min max : number) (p : Pseudocolor.PseudocolorMap)
    : bool :=
  Num.gt (fst p) min && Num.lt (fst p) max.

(** The breaks that bound the intervals of a pseudocolor style: the lower
    end with the start colour, the breakpoints strictly inside the range in
    sorted order, the upper end with the end colour. *)
Definition boundaries (s : Pseudocolor.t) (min max : number)
    : list Pseudocolor.PseudocolorMap :=
  (min, Pseudocolor.getStartColor s) ::
  List.filter (in_range min max)
    (stableSort Pseudocolor.by_value (Pseudocolor.getBreakpoints s)) ++
  [(max, Pseudocolor.getEndColor s)].

(** The intervals between consecutive breaks. *)
Fixpoint consecutive (bounds : list Pseudocolor.PseudocolorMap)
    : list Pseudocolor.PseudocolorInterval :=
  match bounds with
  | a :: rest =>
      match rest with
      | b :: _ =>
          Pseudocolor.mkInterval a b (Num.sub (fst b) (fst a)) ::
          consecutive rest
      | [] => []
      end
  | [] => []
  end.

(** A colour whose red, green and blue are finite numbers. *)
Definition finite_color (c : Color) : bool :=
  Num.is_finite (red c) && Num.is_finite (green c) && Num.is_finite (blue c).

(** The first three numbers of [out] equal ([===]) the red, green and blue
    of [c]. *)
Definition same_rgb (out : list number) (c : Color) : bool :=
  match out with
  | r :: g :: b :: _ =>
      Num.eqb r (red c) && Num.eqb g (green c) && Num.eqb b (blue c)
  | _ => false
  end.

(** Whether a call draws position [p] of the index buffer, and how often a
    list of calls does. *)
Definition draws_position (p : nat) (c : WebGLPolygonReplay.ReplayCall)
    : bool :=
  match c with
  | WebGLPolygonReplay.DrawRange (Some s) (Some e) =>
      (s <=? p)%nat && (p <? e)%nat
  | _ => false
  end.

Definition times_drawn (calls : list WebGLPolygonReplay.ReplayCall) (p : nat)
    : nat :=
  length (List.filter (draws_position p) calls).

(** Position [p] lies in the index range of the [k]-th feature of a
    finished replay, from its start index up to the next start index. *)
Definition in_feature (replay : WebGLPolygonReplay.t) (p k : nat) : bool :=
  match WebGLPolygonReplay.startIndices replay !! k,
        WebGLPolygonReplay.startIndices replay !! S k with
  | Some s, Some e => (s <=? p)%nat && (p <? e)%nat
  | _, _ => false
  end.

(** The [k]-th feature is in the hash of skipped features with a truthy
    value. *)
Definition feature_skipped (replay : WebGLPolygonReplay.t)
    (skipped : gmap nat bool) (k : nat) : bool :=
  match WebGLPolygonReplay.startIndicesFeature replay !! k with
  | Some f => WebGLPolygonReplay.is_skipped skipped f
  | None => false
  end.

(** Position [p] belongs to the [k]-th feature and that feature is not
    skipped; position [p] belongs to some feature that is not skipped. *)
Definition shows (replay : WebGLPolygonReplay.t) (skipped : gmap nat bool)
    (p k : nat) : bool :=
  in_feature replay p k && negb (feature_skipped replay skipped k).

Definition to_draw (replay : WebGLPolygonReplay.t) (skipped : gmap nat bool)
    (p : nat) : bool :=
  existsb (shows replay skipped p)
    (seq 0 (length (WebGLPolygonReplay.startIndicesFeature replay))).

(** A list of numbers that never decreases. *)
Definition nondecreasing (l : list nat) : Prop :=
  forall i j a b, (i <= j)%nat -> l !! i = Some a -> l !! j = Some b ->
                  (a <= b)%nat.

(** While a replay is filled: the start indices and the length of the
    index buffer never decrease and begin at 0, the style indices never
    decrease, and every style index is the start index of a feature. *)
Definition ordered (r : WebGLPolygonReplay.t) : Prop :=
  exists ixs,
    WebGLPolygonReplay.indices r = Some ixs /\
    nondecreasing (WebGLPolygonReplay.startIndices r ++ [length ixs]) /\
    nondecreasing (WebGLPolygonReplay.styleIndices_ r) /\
    Forall (fun g => In g (WebGLPolygonReplay.startIndices r))
           (WebGLPolygonReplay.styleIndices_ r) /\
    (WebGLPolygonReplay.startIndices r ++ [length ixs]) !! 0%nat = Some 0%nat.

(** 1 when position [p] lies in the range from [s] up to [e], else 0. *)
Definition within (s e p : nat) : nat :=
  if (s <=? p)%nat && (p <? e)%nat then 1%nat else 0%nat.

(** The number of features with an index from [a] up to [b] that are not
    skipped and hold position [p]. *)
Definition shown_between (replay : WebGLPolygonReplay.t)
    (skipped : gmap nat bool) (p a b : nat) : nat :=
  length (List.filter (shows replay skipped p) (seq a (b - a))).

(** A call that does not hand an undefined colour to the fill style. *)
Definition colour_given (c : WebGLPolygonReplay.ReplayCall) : Prop :=
  match c with
  | WebGLPolygonReplay.SetFillStyle None => False
  | _ => True
  end.

(** While a replay is filled: there are at least as many colours as style
    groups, and one more while a colour waits for its first feature. *)
Definition coloured (r : WebGLPolygonReplay.t) : Prop :=
  (length (WebGLPolygonReplay.styleIndices_ r) +
   (if WebGLPolygonReplay.state_changed r then 1 else 0) <=
   length (WebGLPolygonReplay.styles_ r))%nat.

(** The upper-case name of a header line, and the names of the first six
    lines of a grid file. *)
Definition header_word (toUpperCase : string -> string) (line : string)
    : string :=
  match ArcGrid.header_name toUpperCase line with
  | Some name => name
  | None => EmptyString
  end.

Definition header_words (toUpperCase : string -> string)
    (source : list string) : list string :=
  map (header_word toUpperCase) (take 6 source).

(** The header object after the lines [lines] were entered into [h0]. *)
Definition header_of (parseFloat : string -> number)
    (toUpperCase : string -> string) (lines : list string)
    (h0 : gmap string number) : gmap string number :=
  fold_left
    (fun h line =>
       <[header_word toUpperCase line :=
           ArcGrid.header_value parseFloat line]> h)
    lines h0.

(* ================================================================== *)
(** * Part II. Properties                                              *)
(* ================================================================== *)

(** ** Numbers *)

Lemma Qltb_lt (a b : Q) : Num.Qltb a b = true <-> a < b.
Proof.
  unfold Num.Qltb. rewrite negb_true_iff.
  split; intro H.
  - apply Qnot_le_lt. intro Hle. apply Qle_bool_iff in Hle. congruence.
  - destruct (Qle_bool b a) eqn:E; [|reflexivity].
    apply Qle_bool_iff in E. exfalso. apply (Qlt_not_le _ _ H E).
Qed.

Lemma Qltb_false (a b : Q) : Num.Qltb a b = false <-> b <= a.
Proof.
  unfold Num.Qltb. rewrite negb_false_iff. apply Qle_bool_iff.
Qed.

Lemma sign_Gt (q : Q) : Num.sign q = Gt <-> 0 < q.
Proof.
  unfold Num.sign, Qlt. simpl. rewrite Z.mul_1_r. rewrite Z.compare_gt_iff. tauto.
Qed.

Lemma sign_Lt (q : Q) : Num.sign q = Lt <-> q < 0.
Proof.
  unfold Num.sign, Qlt. simpl. rewrite Z.mul_1_r. rewrite Z.compare_lt_iff. tauto.
Qed.

Lemma sign_Eq (q : Q) : Num.sign q = Eq <-> q == 0.
Proof.
  unfold Num.sign, Qeq. simpl. rewrite Z.mul_1_r. rewrite Z.compare_eq_iff. tauto.
Qed.

(** The comparator test of the sort, [a - b > 0], is [b < a]. *)
Lemma gt_sub_zero (a b : number) :
  Num.gt (Num.sub a b) (Fin 0) = Num.lt b a.
Proof.
  destruct a as [| | |x], b as [| | |y]; try reflexivity.
  unfold Num.gt, Num.sub, Num.lt.
  destruct (Num.Qltb y x) eqn:E.
  - apply Qltb_lt. apply Qltb_lt in E. rewrite Qred_correct. lra.
  - apply Qltb_false. apply Qltb_false in E. rewrite Qred_correct. lra.
Qed.

Lemma lt_asym (a b : number) : Num.lt a b = true -> Num.lt b a = false.
Proof.
  destruct a as [| | |x], b as [| | |y]; simpl; try congruence.
  intros H. apply Qltb_lt in H. apply Qltb_false. lra.
Qed.

Lemma lt_irrefl (a : number) : Num.lt a a = false.
Proof.
  destruct a as [| | |x]; simpl; try reflexivity.
  apply Qltb_false. lra.
Qed.

Lemma lt_trans (a b c : number) :
  Num.lt a b = true -> Num.lt b c = true -> Num.lt a c = true.
Proof.
  destruct a as [| | |x], b as [| | |y], c as [| | |z]; simpl; try congruence.
  rewrite !Qltb_lt. lra.
Qed.

Lemma le_trans (a b c : number) :
  Num.le a b = true -> Num.le b c = true -> Num.le a c = true.
Proof.
  destruct a as [| | |x], b as [| | |y], c as [| | |z]; simpl; try congruence.
  rewrite !Qle_bool_iff. lra.
Qed.

Lemma le_refl (a : number) : a <> NaN -> Num.le a a = true.
Proof.
  destruct a as [| | |x]; simpl; try congruence.
  intros _. apply Qle_bool_iff. lra.
Qed.

Lemma lt_le (a b : number) : Num.lt a b = true -> Num.le a b = true.
Proof.
  destruct a as [| | |x], b as [| | |y]; simpl; try congruence.
  rewrite Qltb_lt, Qle_bool_iff. lra.
Qed.

(** Among numbers other than NaN, [<] is total up to [===]. *)
Lemma lt_total (a b : number) :
  a <> NaN -> b <> NaN ->
  Num.lt a b = true \/ Num.eqb a b = true \/ Num.lt b a = true.
Proof.
  destruct a as [| | |x], b as [| | |y]; simpl; try congruence; auto.
  intros _ _.
  destruct (Qlt_le_dec x y) as [H|H].
  - left. now apply Qltb_lt.
  - destruct (Qlt_le_dec y x) as [H'|H'].
    + right. right. now apply Qltb_lt.
    + right. left. apply Qeq_bool_iff. lra.
Qed.

Lemma not_lt_le (a b : number) :
  a <> NaN -> b <> NaN -> Num.lt a b = false -> Num.le b a = true.
Proof.
  destruct a as [| | |x], b as [| | |y]; simpl; try congruence.
  intros _ _. rewrite Qltb_false, Qle_bool_iff. tauto.
Qed.

#[global] Arguments Num.lt : simpl never.
#[global] Arguments Num.gt : simpl never.
#[global] Arguments Num.le : simpl never.
#[global] Arguments Num.eqb : simpl never.
#[global] Arguments Num.add : simpl never.
#[global] Arguments Num.sub : simpl never.
#[global] Arguments Num.mul : simpl never.
#[global] Arguments Num.div : simpl never.

(** ** The styling loops write cell after cell *)

Lemma fold_push_all {A B} (f : B -> list A) (cells : list B) (init : list A) :
  fold_left (fun interleaved cell => push_all interleaved (f cell)) cells init
  = init ++ flat_map f cells.
Proof.
  revert init. induction cells as [|c cells IH]; intros init; simpl.
  - now rewrite app_nil_r.
  - rewrite IH. unfold push_all. now rewrite <- app_assoc.
Qed.

Lemma length_flat_map_const {A B} (f : B -> list A) (n : nat) (cells : list B) :
  (forall c, In c cells -> length (f c) = n) ->
  length (flat_map f cells) = (n * length cells)%nat.
Proof.
  induction cells as [|c cells IH]; intros H; simpl.
  - lia.
  - rewrite length_app, H by (now left). rewrite IH; [lia|].
    intros c' Hc. apply H. now right.
Qed.

(** ** Alpha polarity and layout of the styled matrix *)

Lemma flat_map_ext_in {A B} (f g : A -> list B) (l : list A) :
  (forall a, In a l -> f a = g a) -> flat_map f l = flat_map g l.
Proof.
  induction l as [|a l IH]; intros H; simpl; [reflexivity|].
  rewrite H by (now left). f_equal. apply IH. intros b Hb. apply H. now right.
Qed.

Lemma Monochrome_apply_cells (s : Monochrome.t) (matrix : list number)
    (nodata : value) (minAlpha maxAlpha : number) :
  exists min range,
    Monochrome.apply s matrix nodata minAlpha maxAlpha =
    flat_map (Monochrome.apply_cell min range nodata minAlpha maxAlpha) matrix.
Proof.
  unfold Monochrome.apply. do 2 eexists. rewrite fold_push_all. reflexivity.
Qed.

Lemma Pseudocolor_apply_cells (s : Pseudocolor.t) (matrix : list number)
    (nodata : value) (minAlpha maxAlpha : number) :
  Pseudocolor.apply s matrix nodata minAlpha maxAlpha =
  flat_map
    (Pseudocolor.apply_cell
       (match Pseudocolor.getMin s with Some m => m | None => PInf end)
       (match Pseudocolor.getMax s with Some m => m | None => NInf end)
       (Pseudocolor.createIntervals_ s
          (match Pseudocolor.getMin s with Some m => m | None => PInf end)
          (match Pseudocolor.getMax s with Some m => m | None => NInf end))
       (mode_eqb (Pseudocolor.getMode s) CATEGORIZED)
       nodata minAlpha maxAlpha)
    matrix.
Proof.
  unfold Pseudocolor.apply. now rewrite fold_push_all.
Qed.

Lemma RGB_apply_cells (s : RGB.t) (matrices : list (option (list number)))
    (nodata : list value) (minAlpha maxAlpha : number) :
  RGB.apply s matrices nodata minAlpha maxAlpha =
  flat_map
    (RGB.apply_cell s (fst (RGB.spliced s matrices nodata))
                    (snd (RGB.spliced s matrices nodata)) minAlpha maxAlpha)
    (seq 0 (length (RGB.refMatrix (fst (RGB.spliced s matrices nodata))))).
Proof.
  unfold RGB.apply. destruct (RGB.spliced s matrices nodata) as [ms nd].
  now rewrite fold_push_all.
Qed.

(** [apply] of the composite style against its contract: the splicing
    loop puts every matrix and nodata value handed over at the place of its
    channel, and the main loop walks the cells of the first channel that is
    present. *)
Lemma RGB_apply_contract (s : RGB.t) (matrices : list (list number))
    (nodata : list value) (minAlpha maxAlpha : number) :
  length matrices = indexed_channels s ->
  length nodata = length matrices ->
  RGB.apply s (map Some matrices) nodata minAlpha maxAlpha =
  flat_map
    (fun i =>
       spec_colour_rgb s (spec_channels s matrices nodata) i ++
       [spec_alpha_rgb (spec_channels s matrices nodata) minAlpha maxAlpha i])
    (seq 0 (spec_cells (spec_channels s matrices nodata))).
Proof.
  intros Hm Hn. rewrite RGB_apply_cells.
  destruct s as [[rmin rmax rband rck] [gmin gmax gband gck]
                   [bmin bmax bband bck]].
  unfold indexed_channels, rgb_indices in Hm.
  destruct rband as [rb|], gband as [gb|], bband as [bb|]; cbn in Hm;
    destruct matrices as [|m1 [|m2 [|m3 [|m4 ms]]]]; try discriminate Hm;
    cbn in Hn;
    destruct nodata as [|v1 [|v2 [|v3 [|v4 vs]]]]; try discriminate Hn;
    (apply flat_map_ext_in; intros i _; reflexivity).
Qed.


Lemma interval_color_length (categorized : bool) (cell : number)
    (intervals : list Pseudocolor.PseudocolorInterval) :
  length (Pseudocolor.interval_color categorized cell intervals) = 3%nat \/
  Pseudocolor.interval_color categorized cell intervals = [].
Proof.
  induction intervals as [|iv rest IH]; simpl; [now right|].
  destruct (Num.le cell (fst (Pseudocolor.higher iv))); [|exact IH].
  destruct categorized; now left.
Qed.

(** C1. For each of the three style engines, every matrix, nodata value and
    pair of alpha arguments: [apply] writes, cell after cell in input order,
    the colour components of the cell followed by its alpha, and that alpha
    is the [maxAlpha] argument when the cell equals the nodata value and the
    [minAlpha] argument otherwise.  Monochrome and RGB always write three
    colour components; Pseudocolor writes three or none.  RGB is called as
    its contract says, with the matrices of the channels that have a band
    index, in RGB order, and their nodata values: it writes the cells of the
    first channel that is present, and a cell is nodata when each channel is
    missing or holds at that cell the nodata value of its own matrix. *)
Theorem alpha_polarity (minAlpha maxAlpha : number) :
  (forall (s : Monochrome.t) (matrix : list number) (nodata : value),
     exists colour : number -> list number,
       (forall cell, length (colour cell) = 3%nat) /\
       Monochrome.apply s matrix nodata minAlpha maxAlpha =
       flat_map (fun cell =>
                   colour cell ++ [spec_alpha nodata minAlpha maxAlpha cell])
                matrix) /\
  (forall (s : Pseudocolor.t) (matrix : list number) (nodata : value),
     exists colour : number -> list number,
       (forall cell, length (colour cell) = 3%nat \/ colour cell = []) /\
       Pseudocolor.apply s matrix nodata minAlpha maxAlpha =
       flat_map (fun cell =>
                   colour cell ++ [spec_alpha nodata minAlpha maxAlpha cell])
                matrix) /\
  (forall (s : RGB.t) (matrices : list (list number)) (nodata : list value),
     length matrices = indexed_channels s ->
     length nodata = length matrices ->
     let channels := spec_channels s matrices nodata in
     (forall i, length (spec_colour_rgb s channels i) = 3%nat) /\
     RGB.apply s (map Some matrices) nodata minAlpha maxAlpha =
     flat_map (fun i =>
                 spec_colour_rgb s channels i ++
                 [spec_alpha_rgb channels minAlpha maxAlpha i])
              (seq 0 (spec_cells channels))).
Proof.
  split; [|split].
  - intros s matrix nodata.
    destruct (Monochrome_apply_cells s matrix nodata minAlpha maxAlpha)
      as (min & range & ->).
    exists (fun cell =>
              firstn 3 (Monochrome.apply_cell min range nodata
                                              minAlpha maxAlpha cell)).
    split; [reflexivity|]. reflexivity.
  - intros s matrix nodata. rewrite Pseudocolor_apply_cells.
    set (min := match Pseudocolor.getMin s with Some m => m | None => PInf end).
    set (max := match Pseudocolor.getMax s with Some m => m | None => NInf end).
    exists (fun cell =>
              if Num.lt cell min || Num.gt cell max
              then (let v := if Num.lt cell min then Fin 0 else Fin 255 in
                    [v; v; v])
              else Pseudocolor.interval_color
                     (mode_eqb (Pseudocolor.getMode s) CATEGORIZED) cell
                     (Pseudocolor.createIntervals_ s min max)).
    split; [|reflexivity].
    intros cell. destruct (Num.lt cell min || Num.gt cell max).
    + now left.
    + apply interval_color_length.
  - intros s matrices nodata Hm Hn channels. split.
    + intros i. unfold spec_colour_rgb.
      now destruct channels as [[r g] b].
    + now apply RGB_apply_contract.
Qed.

Lemma alpha_polarity_witness :
  RGB.apply sample_rgb (map Some [[Fin 1; Fin 5]; [Fin 5; Fin 5]])
            [VNum (Fin 5); VNum (Fin 5)] (Fin 1) (Fin 0) =
  [Fin 0; Fin 26; Fin 128; Fin 1;
   Fin 0; Fin 128; Fin 128; Fin 0].
Proof.
  exact (proj2 (proj2 (proj2 (alpha_polarity (Fin 1) (Fin 0))) sample_rgb
                  [[Fin 1; Fin 5]; [Fin 5; Fin 5]]
                  [VNum (Fin 5); VNum (Fin 5)] eq_refl eq_refl)).
Defined.

(** With distinct alpha arguments the alpha tells nodata cells apart. *)
Lemma spec_alpha_iff (nodata : value) (minAlpha maxAlpha cell : number) :
  minAlpha <> maxAlpha ->
  (spec_alpha nodata minAlpha maxAlpha cell = maxAlpha <->
   strict_equals (VNum cell) nodata = true).
Proof.
  unfold spec_alpha. intros Hne.
  destruct (strict_equals (VNum cell) nodata); split; congruence.
Qed.

(** Strict equality of a cell that is not NaN with a numeric nodata value is
    equality of the two numbers. *)
Lemma strict_equals_num (x y : Q) :
  strict_equals (VNum (Fin x)) (VNum (Fin y)) = true <-> x == y.
Proof. simpl. apply Qeq_bool_iff. Qed.








(** ** Pseudocolor: cells out of range *)

Lemma Pseudocolor_apply_app (s : Pseudocolor.t) (m1 m2 : list number)
    (nodata : value) (minAlpha maxAlpha : number) :
  Pseudocolor.apply s (m1 ++ m2) nodata minAlpha maxAlpha =
  Pseudocolor.apply s m1 nodata minAlpha maxAlpha ++
  Pseudocolor.apply s m2 nodata minAlpha maxAlpha.
Proof. rewrite !Pseudocolor_apply_cells. apply flat_map_app. Qed.

(** C6, as stated, fails: with min = 10 and max = 0 the cell 5 is strictly
    above the maximum, and it is written black, not white. *)
Lemma out_of_range_counterexample :
  Pseudocolor.getMin inverted_pseudocolor = Some (Fin 10) /\
  Pseudocolor.getMax inverted_pseudocolor = Some (Fin 0) /\
  Num.gt (Fin 5) (Fin 0) = true /\
  Pseudocolor.apply inverted_pseudocolor [Fin 5] VNull (Fin 1) (Fin 0) =
  [Fin 0; Fin 0; Fin 0; Fin 1].
Proof. repeat split; reflexivity. Qed.

(** C6, amended.  For a Pseudocolor style with defined min and max, the three
    colour entries written for a cell (those that follow the output of the
    cells before it) are 0, 0, 0 when the cell is strictly below min, and
    255, 255, 255 when it is strictly above max and not strictly below min,
    whatever the start and end colours and the breakpoints. *)
Theorem out_of_range_colours (s : Pseudocolor.t) (min max : number)
    (before after : list number) (cell : number) (nodata : value)
    (minAlpha maxAlpha : number) :
  Pseudocolor.getMin s = Some min ->
  Pseudocolor.getMax s = Some max ->
  let out :=
    Pseudocolor.apply s (before ++ cell :: after) nodata minAlpha maxAlpha in
  let k := length (Pseudocolor.apply s before nodata minAlpha maxAlpha) in
  (Num.lt cell min = true ->
   firstn 3 (skipn k out) = [Fin 0; Fin 0; Fin 0]) /\
  (Num.gt cell max = true -> Num.lt cell min = false ->
   firstn 3 (skipn k out) = [Fin 255; Fin 255; Fin 255]).
Proof.
  intros Hmin Hmax out k. subst out k.
  rewrite Pseudocolor_apply_app, drop_app_length.
  rewrite (Pseudocolor_apply_cells s (cell :: after)), Hmin, Hmax.
  cbn [flat_map]. unfold Pseudocolor.apply_cell.
  split.
  - intros ->. reflexivity.
  - intros Hgt Hlt. rewrite Hlt, Hgt. reflexivity.
Qed.

Lemma out_of_range_colours_witness :
  firstn 3 (skipn 4 (Pseudocolor.apply sample_pseudocolor
                       [Fin 1; Fin (-2); Fin 12] VNull (Fin 1) (Fin 0)))
  = [Fin 0; Fin 0; Fin 0] /\
  firstn 3 (skipn 8 (Pseudocolor.apply sample_pseudocolor
                       [Fin 1; Fin (-2); Fin 12] VNull (Fin 1) (Fin 0)))
  = [Fin 255; Fin 255; Fin 255].
Proof.
  split.
  - apply (proj1 (out_of_range_colours sample_pseudocolor (Fin 0) (Fin 10)
                    [Fin 1] [Fin 12] (Fin (-2)) VNull (Fin 1) (Fin 0)
                    eq_refl eq_refl)).
    reflexivity.
  - apply (proj2 (out_of_range_colours sample_pseudocolor (Fin 0) (Fin 10)
                    [Fin 1; Fin (-2)] [] (Fin 12) VNull (Fin 1) (Fin 0)
                    eq_refl eq_refl)); reflexivity.
Defined.

(** ** Pseudocolor: order of the breakpoints *)


Lemma sort_insert_by_value (x : Pseudocolor.PseudocolorMap)
    (arr : list Pseudocolor.PseudocolorMap) :
  sort_insert Pseudocolor.by_value x arr =
  match arr with
  | [] => [x]
  | y :: rest =>
      if Num.lt (fst y) (fst x)
      then y :: sort_insert Pseudocolor.by_value x rest
      else x :: arr
  end.
Proof.
  destruct arr as [|y rest]; [reflexivity|].
  cbn [sort_insert]. unfold Pseudocolor.by_value. now rewrite gt_sub_zero.
Qed.

Lemma sort_insert_perm {A} (cmp : A -> A -> number) (x : A) (arr : list A) :
  Permutation (x :: arr) (sort_insert cmp x arr).
Proof.
  induction arr as [|y rest IH]; simpl; [reflexivity|].
  destruct (Num.gt (cmp x y) (Fin 0)); [|reflexivity].
  rewrite perm_swap. now apply perm_skip.
Qed.

Lemma stableSort_perm {A} (cmp : A -> A -> number) (arr : list A) :
  Permutation arr (stableSort cmp arr).
Proof.
  induction arr as [|x arr IH]; simpl; [reflexivity|].
  rewrite <- sort_insert_perm. now apply perm_skip.
Qed.

(** Sorting twice is sorting once: a sorted array is left as it is. *)
Lemma sort_insert_sorted_head (x : Pseudocolor.PseudocolorMap)
    (arr : list Pseudocolor.PseudocolorMap) :
  match arr with
  | [] => True
  | y :: _ => Num.lt (fst y) (fst x) = false
  end ->
  sort_insert Pseudocolor.by_value x arr = x :: arr.
Proof.
  rewrite sort_insert_by_value. destruct arr as [|y rest]; [reflexivity|].
  now intros ->.
Qed.


Lemma sort_insert_locally_sorted (x : Pseudocolor.PseudocolorMap)
    (arr : list Pseudocolor.PseudocolorMap) :
  locally_sorted arr ->
  locally_sorted (sort_insert Pseudocolor.by_value x arr).
Proof.
  unfold locally_sorted.
  induction arr as [|y rest IH]; intros Hs; rewrite sort_insert_by_value.
  - repeat constructor.
  - destruct (Num.lt (fst y) (fst x)) eqn:E.
    + apply Sorted_inv in Hs as [Hs Hd]. constructor; [now apply IH|].
      rewrite sort_insert_by_value. destruct rest as [|z rest'].
      * constructor. now apply lt_asym.
      * destruct (Num.lt (fst z) (fst x)).
        -- constructor. now inversion Hd.
        -- constructor. now apply lt_asym.
    + constructor; [assumption|]. now constructor.
Qed.

Lemma stableSort_locally_sorted (arr : list Pseudocolor.PseudocolorMap) :
  locally_sorted (stableSort Pseudocolor.by_value arr).
Proof.
  induction arr as [|x arr IH]; simpl; [constructor|].
  now apply sort_insert_locally_sorted.
Qed.

Lemma stableSort_fixes_sorted (arr : list Pseudocolor.PseudocolorMap) :
  locally_sorted arr -> stableSort Pseudocolor.by_value arr = arr.
Proof.
  unfold locally_sorted.
  induction arr as [|x arr IH]; intros Hs; simpl; [reflexivity|].
  apply Sorted_inv in Hs as [Hs Hd]. rewrite IH by assumption.
  apply sort_insert_sorted_head. destruct arr; [exact I|]. now inversion Hd.
Qed.

Lemma stableSort_idempotent (arr : list Pseudocolor.PseudocolorMap) :
  stableSort Pseudocolor.by_value (stableSort Pseudocolor.by_value arr) =
  stableSort Pseudocolor.by_value arr.
Proof. apply stableSort_fixes_sorted, stableSort_locally_sorted. Qed.

Lemma eqb_sym (a b : number) : Num.eqb a b = Num.eqb b a.
Proof.
  destruct a as [| | |x], b as [| | |y]; try reflexivity.
  unfold Num.eqb.
  destruct (Qeq_bool x y) eqn:E, (Qeq_bool y x) eqn:E'; try reflexivity.
  - apply Qeq_bool_iff in E. symmetry in E. apply Qeq_bool_iff in E. congruence.
  - apply Qeq_bool_iff in E'. symmetry in E'. apply Qeq_bool_iff in E'.
    congruence.
Qed.

Lemma forallb_perm {A} (f : A -> bool) (l l' : list A) :
  Permutation l l' -> forallb f l = true -> forallb f l' = true.
Proof.
  intros Hp. rewrite !forallb_forall. intros H x Hx. apply H.
  apply Permutation_in with l'; [now symmetry|assumption].
Qed.

Lemma distinct_values_perm (l l' : list Pseudocolor.PseudocolorMap) :
  Permutation l l' -> distinct_values l = true -> distinct_values l' = true.
Proof.
  induction 1 as [|x l l' Hp IH|x y l|l l' l'' _ IH1 _ IH2]; simpl.
  - trivial.
  - rewrite !andb_true_iff. intros [[Hn Hf] Hd].
    repeat split; [assumption| |now apply IH].
    now apply forallb_perm with l.
  - rewrite !andb_true_iff. rewrite (eqb_sym (fst y) (fst x)). tauto.
  - auto.
Qed.

Lemma distinct_values_cons (p : Pseudocolor.PseudocolorMap)
    (rest : list Pseudocolor.PseudocolorMap) :
  distinct_values (p :: rest) = true ->
  fst p <> NaN /\
  Forall (fun q => Num.eqb (fst p) (fst q) = false) rest /\
  distinct_values rest = true.
Proof.
  simpl. rewrite !andb_true_iff. intros [[Hn Hf] Hd].
  repeat split; [now destruct (fst p)| |assumption].
  apply List.Forall_forall. intros q Hq.
  rewrite forallb_forall in Hf. apply negb_true_iff. now apply Hf.
Qed.

Lemma distinct_values_numbers (l : list Pseudocolor.PseudocolorMap) :
  distinct_values l = true -> Forall (fun q => fst q <> NaN) l.
Proof.
  induction l as [|p l IH]; intros H; [constructor|].
  apply distinct_values_cons in H as (Hn & _ & Hd).
  constructor; auto.
Qed.

Lemma sort_insert_strongly_sorted (x : Pseudocolor.PseudocolorMap)
    (arr : list Pseudocolor.PseudocolorMap) :
  fst x <> NaN ->
  Forall (fun q => fst q <> NaN /\ Num.eqb (fst x) (fst q) = false) arr ->
  StronglySorted value_lt arr ->
  StronglySorted value_lt (sort_insert Pseudocolor.by_value x arr).
Proof.
  intros Hx. induction arr as [|y rest IH]; intros Hf Hs.
  - repeat constructor.
  - rewrite sort_insert_by_value.
    apply StronglySorted_inv in Hs as [Hs Hy].
    apply Forall_cons_iff in Hf as [[Hyn Hxy] Hf].
    destruct (Num.lt (fst y) (fst x)) eqn:E.
    + constructor; [now apply IH|].
      apply Permutation_Forall with (x :: rest);
        [apply sort_insert_perm|].
      constructor; assumption.
    + assert (Hlt : value_lt x y).
      { destruct (lt_total (fst x) (fst y) Hx Hyn) as [H|[H|H]];
          [exact H|congruence|congruence]. }
      constructor; [now constructor|].
      constructor; [assumption|].
      eapply List.Forall_impl; [|exact Hy].
      intros z Hz. unfold value_lt in *. eapply lt_trans; eassumption.
Qed.

Lemma stableSort_strongly_sorted (arr : list Pseudocolor.PseudocolorMap) :
  distinct_values arr = true ->
  StronglySorted value_lt (stableSort Pseudocolor.by_value arr).
Proof.
  induction arr as [|x arr IH]; intros Hd; simpl; [constructor|].
  apply distinct_values_cons in Hd as (Hx & Hf & Hd).
  apply sort_insert_strongly_sorted; [assumption| |now apply IH].
  apply Permutation_Forall with arr; [apply stableSort_perm|].
  pose proof (distinct_values_numbers arr Hd) as Hn.
  rewrite List.Forall_forall in *. intros q Hq. split; auto.
Qed.

(** Two arrays strictly ascending by value with the same elements are the
    same array. *)
Lemma strongly_sorted_unique (l1 l2 : list Pseudocolor.PseudocolorMap) :
  StronglySorted value_lt l1 -> StronglySorted value_lt l2 ->
  Permutation l1 l2 -> l1 = l2.
Proof.
  revert l2. induction l1 as [|a t1 IH]; intros l2 H1 H2 Hp.
  - now apply Permutation_nil in Hp.
  - destruct l2 as [|b t2].
    + symmetry in Hp. now apply Permutation_nil in Hp.
    + apply StronglySorted_inv in H1 as [H1 Ha].
      apply StronglySorted_inv in H2 as [H2 Hb].
      rewrite List.Forall_forall in Ha, Hb.
      assert (Hab : a = b).
      { assert (Hin : In a (b :: t2))
          by (apply Permutation_in with (a :: t1); [assumption|now left]).
        assert (Hin' : In b (a :: t1)).
        { apply Permutation_in with (b :: t2); [now symmetry|now left]. }
        destruct Hin as [->|Hin]; [reflexivity|].
        destruct Hin' as [->|Hin']; [reflexivity|].
        specialize (Ha _ Hin'). specialize (Hb _ Hin).
        unfold value_lt in *. apply lt_asym in Ha. congruence. }
      subst b. f_equal. apply IH; try assumption.
      now apply Permutation_cons_inv in Hp.
Qed.

Lemma stableSort_perm_distinct (l l' : list Pseudocolor.PseudocolorMap) :
  Permutation l l' -> distinct_values l = true ->
  stableSort Pseudocolor.by_value l = stableSort Pseudocolor.by_value l'.
Proof.
  intros Hp Hd. apply strongly_sorted_unique.
  - now apply stableSort_strongly_sorted.
  - apply stableSort_strongly_sorted. now apply distinct_values_perm with l.
  - rewrite <- !stableSort_perm. assumption.
Qed.

Lemma createIntervals_sorted (s : Pseudocolor.t) (min max : number) :
  Pseudocolor.createIntervals_ s min max =
  (let '(intervals, prev) :=
     fold_left (Pseudocolor.interval_step min max)
               (stableSort Pseudocolor.by_value (Pseudocolor.getBreakpoints s))
               ([], (min, Pseudocolor.getStartColor s)) in
   intervals ++
   [Pseudocolor.mkInterval prev (max, Pseudocolor.getEndColor s)
                           (Num.sub max (fst prev))]).
Proof.
  unfold Pseudocolor.createIntervals_.
  now destruct (Pseudocolor.getBreakpoints s).
Qed.

Lemma addBreakpoints_fields (bps : list Pseudocolor.PseudocolorMap)
    (s : Pseudocolor.t) :
  let s' := fold_left Pseudocolor.addBreakpoint bps s in
  Pseudocolor.getMin s' = Pseudocolor.getMin s /\
  Pseudocolor.getMax s' = Pseudocolor.getMax s /\
  Pseudocolor.getStartColor s' = Pseudocolor.getStartColor s /\
  Pseudocolor.getEndColor s' = Pseudocolor.getEndColor s /\
  Pseudocolor.getMode s' = Pseudocolor.getMode s /\
  Pseudocolor.getBreakpoints s' = Pseudocolor.getBreakpoints s ++ bps.
Proof.
  revert s. induction bps as [|bp bps IH]; intros s; simpl.
  - now rewrite app_nil_r.
  - destruct (IH (Pseudocolor.addBreakpoint s bp))
      as (-> & -> & -> & -> & -> & ->).
    simpl. now rewrite <- app_assoc.
Qed.

Lemma with_breakpoints_fields (s : Pseudocolor.t)
    (bps : list Pseudocolor.PseudocolorMap) :
  let s' := with_breakpoints s bps in
  Pseudocolor.getMin s' = Pseudocolor.getMin s /\
  Pseudocolor.getMax s' = Pseudocolor.getMax s /\
  Pseudocolor.getStartColor s' = Pseudocolor.getStartColor s /\
  Pseudocolor.getEndColor s' = Pseudocolor.getEndColor s /\
  Pseudocolor.getMode s' = Pseudocolor.getMode s /\
  Pseudocolor.getBreakpoints s' = bps.
Proof.
  unfold with_breakpoints.
  destruct (addBreakpoints_fields bps (Pseudocolor.clearBreakpoints s))
    as (-> & -> & -> & -> & -> & ->).
  now repeat split.
Qed.

(** The output depends on the breakpoints through their sorted array only. *)
Lemma apply_same_sorted (s s' : Pseudocolor.t) (matrix : list number)
    (nodata : value) (minAlpha maxAlpha : number) :
  Pseudocolor.getMin s' = Pseudocolor.getMin s ->
  Pseudocolor.getMax s' = Pseudocolor.getMax s ->
  Pseudocolor.getStartColor s' = Pseudocolor.getStartColor s ->
  Pseudocolor.getEndColor s' = Pseudocolor.getEndColor s ->
  Pseudocolor.getMode s' = Pseudocolor.getMode s ->
  stableSort Pseudocolor.by_value (Pseudocolor.getBreakpoints s') =
  stableSort Pseudocolor.by_value (Pseudocolor.getBreakpoints s) ->
  Pseudocolor.apply s' matrix nodata minAlpha maxAlpha =
  Pseudocolor.apply s matrix nodata minAlpha maxAlpha.
Proof.
  intros Hmin Hmax Hs He Hm Hb.
  rewrite !Pseudocolor_apply_cells, !createIntervals_sorted.
  now rewrite Hmin, Hmax, Hs, He, Hm, Hb.
Qed.

(** The style always works on the stably sorted breakpoints: handing them in
    already sorted that way changes nothing. *)
Lemma apply_presorted_stable (s : Pseudocolor.t) (matrix : list number)
    (nodata : value) (minAlpha maxAlpha : number) :
  Pseudocolor.apply
    (with_breakpoints s
       (stableSort Pseudocolor.by_value (Pseudocolor.getBreakpoints s)))
    matrix nodata minAlpha maxAlpha =
  Pseudocolor.apply s matrix nodata minAlpha maxAlpha.
Proof.
  destruct (with_breakpoints_fields s
              (stableSort Pseudocolor.by_value (Pseudocolor.getBreakpoints s)))
    as (H1 & H2 & H3 & H4 & H5 & H6).
  apply apply_same_sorted; try assumption.
  rewrite H6. apply stableSort_idempotent.
Qed.

(** C7, as stated, fails: two breakpoints of equal value in the two possible
    orders are both ascending by value, and the styles built from them
    colour the cell 7 differently. *)
Lemma breakpoint_order_counterexample :
  Permutation [(Fin 5, red_c); (Fin 5, blue_c)]
              [(Fin 5, blue_c); (Fin 5, red_c)] /\
  ascending [(Fin 5, blue_c); (Fin 5, red_c)] /\
  Pseudocolor.apply
    (with_breakpoints plain_categorized [(Fin 5, red_c); (Fin 5, blue_c)])
    [Fin 7] VNull (Fin 1) (Fin 0) = [Fin 0; Fin 0; Fin 255; Fin 1] /\
  Pseudocolor.apply
    (with_breakpoints plain_categorized [(Fin 5, blue_c); (Fin 5, red_c)])
    [Fin 7] VNull (Fin 1) (Fin 0) = [Fin 255; Fin 0; Fin 0; Fin 1].
Proof.
  split; [apply perm_swap|]. split; [|split; reflexivity].
  repeat constructor.
Qed.

(** C7, amended.  When the breakpoint values are numbers other than NaN and
    pairwise different, [apply] gives the same output for every order in
    which the same breakpoints are inserted, the ascending order included.
    (Breakpoints of equal value keep their insertion order.) *)
Theorem breakpoint_order_irrelevant (s : Pseudocolor.t)
    (bps : list Pseudocolor.PseudocolorMap) (matrix : list number)
    (nodata : value) (minAlpha maxAlpha : number) :
  Permutation (Pseudocolor.getBreakpoints s) bps ->
  distinct_values (Pseudocolor.getBreakpoints s) = true ->
  Pseudocolor.apply (with_breakpoints s bps) matrix nodata minAlpha maxAlpha =
  Pseudocolor.apply s matrix nodata minAlpha maxAlpha.
Proof.
  intros Hp Hd.
  destruct (with_breakpoints_fields s bps) as (H1 & H2 & H3 & H4 & H5 & H6).
  apply apply_same_sorted; try assumption.
  rewrite H6. symmetry. now apply stableSort_perm_distinct.
Qed.

Lemma breakpoint_order_irrelevant_witness :
  Pseudocolor.apply
    (with_breakpoints sample_pseudocolor
       [(Fin 3, mkColor (Fin 255) (Fin 0) (Fin 0) (Fin 1));
        (Fin 7, mkColor (Fin 0) (Fin 0) (Fin 255) (Fin 1))])
    [Fin 1; Fin 5; Fin 9] VNull (Fin 1) (Fin 0) =
  Pseudocolor.apply sample_pseudocolor [Fin 1; Fin 5; Fin 9] VNull
                    (Fin 1) (Fin 0).
Proof.
  apply (breakpoint_order_irrelevant sample_pseudocolor).
  - apply perm_swap.
  - reflexivity.
Defined.

(** ** Band statistics *)

Lemma Qred_inject_Z (z : Z) : Qred (inject_Z z) = inject_Z z.
Proof.
  unfold Qred, inject_Z.
  generalize (Z.ggcd_gcd z 1) (Z.ggcd_correct_divisors z 1).
  destruct (Z.ggcd z 1) as (g, (aa, bb)). simpl.
  intros Hg [Ha Hb]. rewrite Z.gcd_1_r in Hg. subst g.
  rewrite Z.mul_1_l in Ha, Hb. now subst.
Qed.

Lemma of_nat_succ (k : nat) :
  Num.add (Num.of_nat k) (Fin 1) = Num.of_nat (S k).
Proof.
  unfold Num.add, Num.of_nat. f_equal.
  rewrite <- (Qred_inject_Z (Z.of_nat (S k))). apply Qred_complete.
  rewrite Nat2Z.inj_succ. unfold Z.succ. rewrite inject_Z_plus. reflexivity.
Qed.


Lemma pass1_valid (nullValue : value) (matrix : list number)
    (acc : number * number * number * number) :
  fold_left (Band.pass1 nullValue) matrix acc =
  fold_left stat_step (valid_cells matrix nullValue) acc.
Proof.
  revert acc. induction matrix as [|c matrix IH]; intros acc.
  - reflexivity.
  - unfold valid_cells. cbn [fold_left List.filter].
    fold (valid_cells matrix nullValue).
    unfold Band.pass1 at 2. destruct acc as [[[mn mx] sm] ct].
    destruct (negb (strict_equals (VNum c) nullValue));
      cbn [fold_left]; apply IH.
Qed.

Lemma pass2_valid (nullValue : value) (avg : number) (matrix : list number)
    (variance : number) :
  fold_left (Band.pass2 nullValue avg) matrix variance =
  fold_left (fun v cell => Num.add v (Num.square (Num.sub cell avg)))
            (valid_cells matrix nullValue) variance.
Proof.
  revert variance. induction matrix as [|c matrix IH]; intros v.
  - reflexivity.
  - unfold valid_cells. cbn [fold_left List.filter].
    fold (valid_cells matrix nullValue).
    unfold Band.pass2 at 2.
    destruct (negb (strict_equals (VNum c) nullValue));
      cbn [fold_left]; apply IH.
Qed.

Lemma stat_step_components (cells : list number) (mn mx sm ct : number) :
  fold_left stat_step cells (mn, mx, sm, ct) =
  (fold_left (fun m c => if Num.lt c m then c else m) cells mn,
   fold_left (fun m c => if Num.gt c m then c else m) cells mx,
   fold_left Num.add cells sm,
   fold_left (fun k _ => Num.add k (Fin 1)) cells ct).
Proof.
  revert mn mx sm ct. induction cells as [|c cells IH]; intros; simpl.
  - reflexivity.
  - apply IH.
Qed.

Lemma count_fold (cells : list number) (k : nat) :
  fold_left (fun n _ => Num.add n (Fin 1)) cells (Num.of_nat k) =
  Num.of_nat (k + length cells).
Proof.
  revert k. induction cells as [|c cells IH]; intros k; simpl.
  - now rewrite Nat.add_0_r.
  - rewrite of_nat_succ, IH. f_equal. lia.
Qed.










Lemma statistics_of_components (matrix : list number) (nullValue : value) :
  let valid := valid_cells matrix nullValue in
  let sum := fold_left Num.add valid (Fin 0) in
  let count := Num.of_nat (length valid) in
  Band.statistics_of matrix nullValue =
  Band.mkStat
    (fold_left (fun m c => if Num.lt c m then c else m) valid PInf)
    (fold_left (fun m c => if Num.gt c m then c else m) valid NInf)
    sum count
    (Num.div
       (fold_left
          (fun v cell =>
             Num.add v (Num.square (Num.sub cell (Num.div sum count))))
          valid (Fin 0))
       count).
Proof.
  intros valid sum count. unfold Band.statistics_of.
  rewrite pass1_valid, stat_step_components, pass2_valid.
  pose proof (count_fold (valid_cells matrix nullValue) 0) as Hc.
  change (Num.of_nat 0) with (Fin 0) in Hc. cbn [Nat.add] in Hc.
  now rewrite !Hc.
Qed.





(** The end-to-end scenario of the specification: cells 1, 2, nodata, 4. *)
Example sample_band_statistics :
  Band.getStatistics sample_band =
  Band.mkStat (Fin 1) (Fin 4) (Fin 7) (Fin 3) (Fin (14 # 9)).
Proof. reflexivity. Qed.

(** ** Checksums *)

(** C2.  The checksum of a Pseudocolor style whose minimum is defined is
    ["p"], the minimum, and the breakpoints: styles that differ in maximum,
    band index, mode, start colour or end colour have the same checksum.
    With an undefined minimum the first call throws. *)
Theorem pseudocolor_checksum_blind (toString : number -> string)
    (asString : Color -> string) (min : number)
    (breakpoints : list Pseudocolor.PseudocolorMap)
    (max1 max2 : option number) (band1 band2 : number)
    (start1 start2 end1 end2 : Color) (mode1 mode2 : PseudocolorMode) :
  fst (Pseudocolor.getChecksum toString asString
         (Pseudocolor.mk (Some min) max1 (Some band1) start1 end1 mode1
                         breakpoints None)) =
  fst (Pseudocolor.getChecksum toString asString
         (Pseudocolor.mk (Some min) max2 (Some band2) start2 end2 mode2
                         breakpoints None)) /\
  fst (Pseudocolor.getChecksum toString asString
         (Pseudocolor.mk None max1 (Some band1) start1 end1 mode1
                         breakpoints None)) = Throw TypeError.
Proof. split; reflexivity. Qed.

Example pseudocolor_checksum_sample :
  fst (Pseudocolor.getChecksum sample_toString sample_asString
         sample_pseudocolor) = Ok "p0(7,rgba(0,0,255,1),3,rgba(255,0,0,1))" /\
  fst (Pseudocolor.getChecksum sample_toString sample_asString
         (Pseudocolor.setMax sample_pseudocolor (Some (Fin 99)))) =
  Ok "p0(7,rgba(0,0,255,1),3,rgba(255,0,0,1))".
Proof. split; reflexivity. Qed.

(** After a call that threw, the cached checksum is ["p"]: the next call
    returns it. *)
Example pseudocolor_checksum_after_throw :
  let s := Pseudocolor.new
             (Pseudocolor.mkOptions None None None None None None None) in
  let '(first, s1) :=
    Pseudocolor.getChecksum sample_toString sample_asString s in
  first = Throw TypeError /\
  fst (Pseudocolor.getChecksum sample_toString sample_asString s1) = Ok "p".
Proof. split; reflexivity. Qed.

Example monochrome_checksum_sample :
  fst (Monochrome.getChecksum sample_toString zero_min_style) = "m0,0,10" /\
  fst (Monochrome.getChecksum sample_toString
         (Monochrome.setMax zero_min_style (Some (Fin 11)))) = "m0,0,11" /\
  fst (Monochrome.getChecksum sample_toString
         (Monochrome.defaultStyle None)) = "m0,-,-".
Proof. repeat split; reflexivity. Qed.

(** ** fillMissingValues *)

(** C8.  A Monochrome style constructed with min 0 and max 10 has both
    fields set, and [fillMissingValues] replaces its min by the minimum of
    the band: the test [!this.getMin()] takes 0 for a missing value. *)
Theorem fill_overwrites_zero :
  Monochrome.getMin zero_min_style = Some (Fin 0) /\
  Monochrome.getMax zero_min_style = Some (Fin 10) /\
  Band.min (Band.getStatistics sample_band) = Fin 1 /\
  Monochrome.getMin (Monochrome.fillMissingValues zero_min_style [sample_band])
  = Some (Fin 1) /\
  fst (Monochrome.getChecksum sample_toString zero_min_style) = "m0,0,10" /\
  fst (Monochrome.getChecksum sample_toString
         (Monochrome.fillMissingValues zero_min_style [sample_band]))
  = "m0,1,10".
Proof. repeat split; reflexivity. Qed.

(** What does hold: bounds that are set to numbers other than 0 and NaN are
    left alone, and so is the cached checksum. *)
Lemma fill_keeps_truthy_bounds (s : Monochrome.t) (bands : list Band.t)
    (min max : number) :
  Monochrome.getMin s = Some min -> Monochrome.getMax s = Some max ->
  Num.truthy min = true -> Num.truthy max = true ->
  Monochrome.fillMissingValues s bands = s.
Proof.
  intros Hmin Hmax Tmin Tmax. unfold Monochrome.fillMissingValues.
  destruct (Monochrome.getBandIndex s); [|reflexivity].
  destruct (array_get bands n); [|reflexivity].
  rewrite Hmin. cbn [of_field truthy]. rewrite Tmin. cbn [negb andb].
  rewrite Hmax. cbn [of_field truthy]. rewrite Tmax. reflexivity.
Qed.

Lemma fill_keeps_truthy_bounds_pseudocolor (s : Pseudocolor.t)
    (bands : list Band.t) (min max : number) :
  Pseudocolor.getMin s = Some min -> Pseudocolor.getMax s = Some max ->
  Num.truthy min = true -> Num.truthy max = true ->
  Pseudocolor.fillMissingValues s bands = s.
Proof.
  intros Hmin Hmax Tmin Tmax. unfold Pseudocolor.fillMissingValues.
  destruct (Pseudocolor.getBandIndex s); [|reflexivity].
  destruct (array_get bands n); [|reflexivity].
  rewrite Hmin. cbn [of_field truthy]. rewrite Tmin. cbn [negb andb].
  rewrite Hmax. cbn [of_field truthy]. rewrite Tmax. reflexivity.
Qed.

(** ** getStyledBand *)

Lemma getStyledBand_missing_band (X : Externals) (src : CoverageSource.t)
    (s : Monochrome.t) (index : number) (minAlpha maxAlpha : number) :
  Monochrome.getBandIndex s = Some index ->
  array_get (CoverageSource.getBands src) index = None ->
  CoverageSource.getStyledBand X src (StyleMonochrome s) minAlpha maxAlpha =
  Throw TypeError.
Proof.
  intros Hi Hb. unfold CoverageSource.getStyledBand. now rewrite Hi, Hb.
Qed.

Lemma getStyledBand_undefined_index (X : Externals) (src : CoverageSource.t)
    (s : Monochrome.t) (minAlpha maxAlpha : number) :
  Monochrome.getBandIndex s = None ->
  CoverageSource.getStyledBand X src (StyleMonochrome s) minAlpha maxAlpha =
  Ok None.
Proof.
  intros Hi. unfold CoverageSource.getStyledBand. now rewrite Hi.
Qed.

(** C5.  On a source without bands, [getStyledBand] with the default
    monochrome style (band 0), with a pseudocolor style (band 0) and with
    the default RGB style (bands 0, 1, 2) throws a TypeError instead of
    returning null, whatever the functions outside the sources do. *)
Theorem getStyledBand_throws (X : Externals) :
  CoverageSource.getStyledBand X empty_source
    (StyleMonochrome (Monochrome.defaultStyle None)) (Fin 1) (Fin 0)
  = Throw TypeError /\
  CoverageSource.getStyledBand X empty_source
    (StylePseudocolor sample_pseudocolor) (Fin 1) (Fin 0)
  = Throw TypeError /\
  CoverageSource.getStyledBand X empty_source
    (StyleRGB (RGB.new (RGB.mkOptions None None None))) (Fin 1) (Fin 0)
  = Throw TypeError /\
  CoverageSource.getStyledBand X sample_source
    (StyleMonochrome (Monochrome.defaultStyle (Some (Fin 3)))) (Fin 1) (Fin 0)
  = Throw TypeError.
Proof. repeat split; reflexivity. Qed.

(** ** prepareFrame: reuse of the cached batch *)

(** C3, as stated, fails.  A first frame is rendered at resolution 1.  Then
    come two consecutive calls with equal view resolution 1/2 and equal
    layer revision, the second with its extent inside the rendered extent:
    the first of them runs during an animation and returns early, the
    second finds the cached resolution 1 different from 1/2 and replaces
    the cached replay group. *)
Lemma reuse_counterexample :
  let '(r1, layer1) :=
    webgl_after fresh_webgl_renderer sample_layer first_frame in
  let '(r2, layer2) := webgl_after r1 layer1 animation_frame in
  let second :=
    WebGLCoverageLayerRenderer.prepareFrame sample_externals r2 layer2
      settled_frame in
  vs_resolution (fs_viewState animation_frame) =
  vs_resolution (fs_viewState settled_frame) /\
  CoverageLayer.getRevision layer1 = CoverageLayer.getRevision layer2 /\
  (exists rendered,
      WebGLCoverageLayerRenderer.renderedExtent r2 = Some rendered /\
      containsExtent rendered (fs_extent settled_frame) = true) /\
  out_result second = Ok true /\
  WebGLCoverageLayerRenderer.replayGroup (out_renderer second) <>
  WebGLCoverageLayerRenderer.replayGroup r2.
Proof.
  vm_compute. repeat split; try reflexivity.
  - eexists. split; reflexivity.
  - discriminate.
Qed.

(** C3, amended.  For both renderers: when the layer has a style whose
    checksum can be computed, the view resolution and the layer revision
    equal the cached [renderedResolution] and [renderedRevision] of the
    renderer, and the extent of the frame (for the canvas renderer, after
    the world-wrap widening) is contained in the cached [renderedExtent],
    then [prepareFrame] returns true, computes no styled band and builds no
    grid, and leaves every cached field of the renderer as it was, the
    replay group and the coverage cache included. *)
Theorem reuse_cached_batch (X : Externals) (layer : CoverageLayer.t)
    (frameState : FrameState) (style : CoverageStyle) (checksum : string)
    (rendered : Extent) :
  CoverageLayer.getStyle layer = Some style ->
  fst (Style.getChecksum (toString X) (asString X) style) = Ok checksum ->
  (forall r : CanvasCoverageLayerRenderer.t,
     opt_num_eqb (CanvasCoverageLayerRenderer.renderedResolution r)
                 (vs_resolution (fs_viewState frameState)) = true ->
     opt_nat_eqb (CanvasCoverageLayerRenderer.renderedRevision r)
                 (CoverageLayer.getRevision layer) = true ->
     CanvasCoverageLayerRenderer.renderedExtent r = Some rendered ->
     containsExtent rendered
       (CanvasCoverageLayerRenderer.wrapped_extent layer frameState) = true ->
     let o := CanvasCoverageLayerRenderer.prepareFrame X r layer frameState in
     out_result o = Ok true /\ out_events o = [] /\
     CanvasCoverageLayerRenderer.set_replayGroupChanged (out_renderer o) false
     = CanvasCoverageLayerRenderer.set_replayGroupChanged r false) /\
  (forall r : WebGLCoverageLayerRenderer.t,
     opt_num_eqb (WebGLCoverageLayerRenderer.renderedResolution r)
                 (vs_resolution (fs_viewState frameState)) = true ->
     opt_nat_eqb (WebGLCoverageLayerRenderer.renderedRevision r)
                 (CoverageLayer.getRevision layer) = true ->
     WebGLCoverageLayerRenderer.renderedExtent r = Some rendered ->
     containsExtent rendered (fs_extent frameState) = true ->
     let o := WebGLCoverageLayerRenderer.prepareFrame X r layer frameState in
     out_result o = Ok true /\ out_events o = [] /\
     WebGLCoverageLayerRenderer.set_replayGroupChanged (out_renderer o) false
     = WebGLCoverageLayerRenderer.set_replayGroupChanged r false).
Proof.
  intros Hstyle Hsum. split.
  - intros r Hres Hrev Hext Hin o. subst o.
    unfold CanvasCoverageLayerRenderer.prepareFrame.
    rewrite Hstyle.
    destruct (Style.getChecksum (toString X) (asString X) style)
      as [c style'].
    cbn [fst] in Hsum. subst c.
    destruct (_ || _); [now repeat split|].
    unfold CanvasCoverageLayerRenderer.reusable.
    rewrite Hres, Hrev, Hext. cbn [andb]. rewrite Hin.
    now repeat split.
  - intros r Hres Hrev Hext Hin o. subst o.
    unfold WebGLCoverageLayerRenderer.prepareFrame.
    rewrite Hstyle.
    destruct (Style.getChecksum (toString X) (asString X) style)
      as [c style'].
    cbn [fst] in Hsum. subst c.
    destruct (_ || _); [now repeat split|].
    unfold WebGLCoverageLayerRenderer.reusable.
    rewrite Hres, Hrev, Hext. cbn [andb]. rewrite Hin.
    now repeat split.
Qed.

Lemma reuse_cached_batch_witness :
  out_result
    (CanvasCoverageLayerRenderer.prepareFrame sample_externals
       (fst (canvas_after fresh_canvas_renderer sample_layer first_frame))
       (snd (canvas_after fresh_canvas_renderer sample_layer first_frame))
       first_frame) = Ok true /\
  out_events
    (WebGLCoverageLayerRenderer.prepareFrame sample_externals
       (fst (webgl_after fresh_webgl_renderer sample_layer first_frame))
       (snd (webgl_after fresh_webgl_renderer sample_layer first_frame))
       first_frame) = [].
Proof.
  pose proof (reuse_cached_batch sample_externals
                (snd (canvas_after fresh_canvas_renderer sample_layer
                                   first_frame))
                first_frame
                (StyleMonochrome
                   (Monochrome.mk (Some (Fin 1)) (Some (Fin 4))
                                  (Some (Fin 0)) (Some "m0,1,4")))
                "m0,1,4" (mkExtent (Fin 0) (Fin 0) (Fin 2) (Fin 2))
                eq_refl eq_refl) as [Hcanvas Hwebgl].
  split.
  - apply (Hcanvas
             (fst (canvas_after fresh_canvas_renderer sample_layer
                                first_frame)));
      vm_compute; reflexivity.
  - apply (Hwebgl
             (fst (webgl_after fresh_webgl_renderer sample_layer
                               first_frame)));
      vm_compute; reflexivity.
Defined.

(** ** Hit detection, feature by feature *)

Section HitDetectionProofs.
Context {R : Type}.
Variable replay : WebGLPolygonReplay.t.
Variable skipped : gmap nat bool.
Variable callback : WebGLPolygonReplay.Feature -> option R.
Variable hitExtent : option Extent.

Let features := WebGLPolygonReplay.startIndicesFeature replay.
Let starts := WebGLPolygonReplay.startIndices replay.
Let candidate := WebGLPolygonReplay.hit_candidate skipped hitExtent.

(** The features with an index below [n], last drawn first. *)
Let below (n : nat) : list WebGLPolygonReplay.Feature :=
  rev (firstn n features).

Lemma below_S (n : nat) (f : WebGLPolygonReplay.Feature) :
  features !! n = Some f -> below (S n) = f :: below n.
Proof.
  intros H. unfold below. rewrite (take_S_r _ _ _ H).
  now rewrite rev_app_distr.
Qed.

Lemma callback_features_app (a b : list WebGLPolygonReplay.Call) :
  callback_features (a ++ b) = callback_features a ++ callback_features b.
Proof. apply flat_map_app. Qed.

Lemma visit_app_none (a b : list WebGLPolygonReplay.Feature)
    (v : list WebGLPolygonReplay.Feature) :
  visit_until_hit callback a = (v, None) ->
  visit_until_hit callback (a ++ b) =
  (v ++ fst (visit_until_hit callback b),
   snd (visit_until_hit callback b)).
Proof.
  revert v. induction a as [|f a IH]; intros v; simpl.
  - intros [= <-]. now destruct (visit_until_hit callback b).
  - destruct (callback f); [discriminate|].
    destruct (visit_until_hit callback a) as [va ra].
    intros [= <- ->]. now rewrite (IH va eq_refl).
Qed.


Lemma feature_loop_outcome (next groupStart : nat) (end_ : option nat)
    (calls : list WebGLPolygonReplay.Call) :
  length starts = S (length features) ->
  (next <= length features)%nat ->
  exists processed k,
    (k <= next)%nat /\
    below next = processed ++ below k /\
    loop_outcome callback candidate
      (WebGLPolygonReplay.feature_loop replay skipped callback hitExtent
         next groupStart end_ calls)
      calls processed k
      (k = 0%nat \/
       exists start, starts !! (k - 1)%nat = Some start /\
                     (start < groupStart)%nat).
Proof.
  intros Hlen. revert end_ calls.
  induction next as [|featureIndex IH]; intros end_ calls Hn.
  - exists [], 0%nat. split; [lia|]. split; [reflexivity|].
    unfold loop_outcome. simpl. rewrite app_nil_r. auto.
  - cbn [WebGLPolygonReplay.feature_loop]. fold starts features.
    destruct (starts !! featureIndex) as [start|] eqn:Es.
    2:{ apply lookup_ge_None in Es. lia. }
    destruct (groupStart <=? start)%nat eqn:Eg.
    + destruct (features !! featureIndex) as [f|] eqn:Ef.
      2:{ apply lookup_ge_None in Ef. lia. }
      fold (candidate f).
      destruct (candidate f) eqn:Ec.
      * destruct (callback f) as [x|] eqn:Ecb.
        -- exists [f], featureIndex. split; [lia|].
           split; [now apply below_S|].
           unfold loop_outcome. cbn [List.filter]. rewrite Ec.
           cbn [visit_until_hit]. rewrite Ecb.
           cbn [fst snd WebGLPolygonReplay.ls_calls].
           split; [reflexivity|].
           now rewrite callback_features_app.
        -- destruct (IH (Some start)
                        (calls ++ [WebGLPolygonReplay.Clear;
                                   WebGLPolygonReplay.DrawElements start end_;
                                   WebGLPolygonReplay.FeatureCallback f]))
             as (processed & k & Hk & Hb & Ho); [lia|].
           exists (f :: processed), k. split; [lia|].
           split; [rewrite (below_S _ _ Ef), Hb; reflexivity|].
           unfold loop_outcome in *. cbn [List.filter]. rewrite Ec.
           cbn [visit_until_hit]. rewrite Ecb.
           destruct (visit_until_hit callback
                       (List.filter candidate processed)) as [v [x|]];
             rewrite callback_features_app in Ho; simpl in Ho;
             rewrite <- app_assoc in Ho; exact Ho.
      * destruct (IH (Some start) calls)
          as (processed & k & Hk & Hb & Ho); [lia|].
        exists (f :: processed), k. split; [lia|].
        split; [rewrite (below_S _ _ Ef), Hb; reflexivity|].
        unfold loop_outcome in *. cbn [List.filter]. rewrite Ec. exact Ho.
    + exists [], (S featureIndex). split; [lia|]. split; [reflexivity|].
      unfold loop_outcome. simpl. rewrite app_nil_r.
      repeat split. right. exists start.
      rewrite Nat.sub_0_r. split; [assumption|].
      apply Nat.leb_gt in Eg. lia.
Qed.

Lemma style_loop_outcome (i : nat) (st : WebGLPolygonReplay.LoopState) :
  length starts = S (length features) ->
  (WebGLPolygonReplay.ls_next st <= length features)%nat ->
  exists processed k,
    (k <= WebGLPolygonReplay.ls_next st)%nat /\
    below (WebGLPolygonReplay.ls_next st) = processed ++ below k /\
    loop_outcome callback candidate
      (WebGLPolygonReplay.style_loop replay skipped callback hitExtent i st)
      (WebGLPolygonReplay.ls_calls st) processed k
      (forall groupStart,
         (0 < i)%nat ->
         WebGLPolygonReplay.styleIndices_ replay !! 0%nat = Some groupStart ->
         Forall (fun start => (groupStart <= start)%nat) starts ->
         k = 0%nat).
Proof.
  intros Hlen. revert st. induction i as [|i IH]; intros st Hn.
  - exists [], (WebGLPolygonReplay.ls_next st).
    split; [lia|]. split; [reflexivity|].
    unfold loop_outcome. simpl. rewrite app_nil_r.
    repeat split. intros; lia.
  - cbn [WebGLPolygonReplay.style_loop].
    set (calls := WebGLPolygonReplay.ls_calls st ++
                  [WebGLPolygonReplay.Uniform4fv
                     (WebGLPolygonReplay.styles_ replay !! i)]).
    assert (Hcalls : callback_features calls =
                     callback_features (WebGLPolygonReplay.ls_calls st)).
    { unfold calls. rewrite callback_features_app. simpl.
      now rewrite app_nil_r. }
    destruct (WebGLPolygonReplay.styleIndices_ replay !! i)
      as [groupStart|] eqn:Eg.
    + destruct (feature_loop_outcome (WebGLPolygonReplay.ls_next st)
                  groupStart (WebGLPolygonReplay.ls_end st) calls Hlen Hn)
        as (p1 & k1 & Hk1 & Hb1 & Ho1).
      unfold loop_outcome in Ho1.
      destruct (visit_until_hit callback (List.filter candidate p1))
        as [v1 [x|]] eqn:Ev1.
      * destruct (WebGLPolygonReplay.feature_loop _ _ _ _ _ _ _ _)
          as [res st1].
        cbn [fst snd] in Ho1. destruct Ho1 as [-> Hc1].
        exists p1, k1. split; [assumption|]. split; [assumption|].
        unfold loop_outcome. rewrite Ev1. cbn [fst snd].
        split; [reflexivity|]. now rewrite Hc1, Hcalls.
      * destruct (WebGLPolygonReplay.feature_loop _ _ _ _ _ _ _ _)
          as [res st1].
        cbn [fst snd] in Ho1. destruct Ho1 as (-> & Hnext & Hc1 & Hstop).
        destruct (IH st1) as (p2 & k2 & Hk2 & Hb2 & Ho2); [lia|].
        exists (p1 ++ p2), k2. split; [lia|].
        split; [rewrite Hb1, <- Hnext, Hb2; now rewrite app_assoc|].
        unfold loop_outcome in *.
        rewrite List.filter_app, (visit_app_none _ _ _ Ev1).
        destruct (visit_until_hit callback (List.filter candidate p2))
          as [v2 [y|]]; cbn [fst snd].
        -- destruct Ho2 as [Hr Hc2]. split; [assumption|].
           now rewrite Hc2, Hc1, Hcalls, app_assoc.
        -- destruct Ho2 as (Hr & Hn2 & Hc2 & Hstop2).
           split; [assumption|]. split; [assumption|].
           split; [now rewrite Hc2, Hc1, Hcalls, app_assoc|].
           intros g0 _ Hg0 Hall.
           destruct i as [|i'].
           ++ assert (groupStart = g0) by congruence. subst g0.
              destruct Hstop as [Hz|(start & Hs & Hlt)]; [lia|].
              rewrite Forall_forall in Hall.
              specialize (Hall start (list_elem_of_lookup_2 _ _ _ Hs)).
              lia.
           ++ apply (Hstop2 g0); [lia|assumption|assumption].
    + destruct (IH (WebGLPolygonReplay.mkLoopState
                      (WebGLPolygonReplay.ls_next st)
                      (WebGLPolygonReplay.ls_end st) calls))
        as (p & k & Hk & Hb & Ho); [exact Hn|].
      cbn [WebGLPolygonReplay.ls_next WebGLPolygonReplay.ls_calls] in *.
      exists p, k. split; [assumption|]. split; [assumption|].
      unfold loop_outcome in *.
      destruct (visit_until_hit callback (List.filter candidate p))
        as [v [x|]].
      * now rewrite <- Hcalls.
      * destruct Ho as (Hr & Hn2 & Hc & Hstop).
        repeat split; [assumption|assumption|now rewrite <- Hcalls|].
        intros g0 _ Hg0 Hall. destruct i as [|i']; [congruence|].
        apply (Hstop g0); [lia|assumption|assumption].
Qed.

Lemma visit_until_hit_spec (fs : list WebGLPolygonReplay.Feature) :
  let '(v, r) := visit_until_hit callback fs in
  v `prefix_of` fs /\
  match r with
  | Some x =>
      exists pre f, v = pre ++ [f] /\
                    Forall (fun g => callback g = None) pre /\
                    callback f = Some x
  | None => v = fs /\ Forall (fun g => callback g = None) fs
  end.
Proof.
  induction fs as [|f fs IH]; simpl.
  - split; [reflexivity|]. split; [reflexivity|constructor].
  - destruct (callback f) as [x|] eqn:E.
    + split; [apply prefix_cons, prefix_nil|].
      exists [], f. repeat split; [constructor|assumption].
    + destruct (visit_until_hit callback fs) as [v [x|]].
      * destruct IH as (Hp & pre & g & -> & Hpre & Hg).
        split; [now apply prefix_cons|].
        exists (f :: pre), g. repeat split; [now constructor|assumption].
      * destruct IH as (Hp & -> & Hall).
        split; [reflexivity|]. split; [reflexivity|now constructor].
Qed.

End HitDetectionProofs.


(** *** Filling the replay keeps its arrays in step *)

Lemma grows_refl (r : WebGLPolygonReplay.t) : grows r r.
Proof. unfold grows. repeat split. intros ixs H. now exists ixs. Qed.

Lemma grows_trans (r1 r2 r3 : WebGLPolygonReplay.t) :
  grows r1 r2 -> grows r2 r3 -> grows r1 r3.
Proof.
  unfold grows.
  intros (A1 & A2 & A3 & A4 & A5 & A6 & A7 & A8)
         (B1 & B2 & B3 & B4 & B5 & B6 & B7 & B8).
  repeat split; try congruence.
  intros ixs H. destruct (A8 ixs H) as (ixs' & H' & Hle).
  destruct (B8 ixs' H') as (ixs'' & H'' & Hle').
  exists ixs''. split; [assumption|lia].
Qed.

Lemma drawCoordinates_grows (X : Externals) (r r' : WebGLPolygonReplay.t)
    (flat : list number) (holes : list (list number)) (stride : nat) :
  WebGLPolygonReplay.drawCoordinates_ X r flat holes stride = Ok r' ->
  grows r r'.
Proof.
  unfold WebGLPolygonReplay.drawCoordinates_.
  destruct (WebGLPolygonReplay.vertices r) as [vs|]; [|discriminate].
  destruct (WebGLPolygonReplay.indices r) as [ixs|] eqn:E; [|discriminate].
  intros [= <-]. unfold grows. cbn. repeat split.
  intros ixs0 H. rewrite E in H. injection H as <-.
  eexists. split; [reflexivity|]. rewrite length_app. lia.
Qed.

Lemma multi_fold_throw (X : Externals) (flat : list number) (stride : nat)
    (endss : list (list nat)) (e : js_error) :
  fold_left (WebGLPolygonReplay.multi_step X flat stride) endss (Throw e) =
  Throw e.
Proof. induction endss as [|ends endss IH]; [reflexivity|exact IH]. Qed.

Lemma multi_fold_grows (X : Externals) (flat : list number) (stride : nat)
    (endss : list (list nat)) (r r' : WebGLPolygonReplay.t)
    (start start' : option nat) :
  fold_left (WebGLPolygonReplay.multi_step X flat stride) endss
            (Ok (r, start)) = Ok (r', start') ->
  grows r r'.
Proof.
  revert r start. induction endss as [|ends endss IH]; intros r start.
  - intros [= <- <-]. apply grows_refl.
  - cbn [fold_left].
    unfold WebGLPolygonReplay.multi_step at 2. cbn [bind].
    destruct ends as [|end0 rest].
    + cbn [bind]. apply IH.
    + destruct (translate X flat start end0 stride _ _) as [|c ring].
      * cbn [bind]. apply IH.
      * destruct (WebGLPolygonReplay.drawCoordinates_ X r (c :: ring) _ stride)
          as [r1|e] eqn:E; cbn [bind].
        -- intros H. apply drawCoordinates_grows in E.
           eapply grows_trans; [exact E|]. eapply IH. exact H.
        -- rewrite multi_fold_throw. discriminate.
Qed.

Lemma consistent_grows (r r' : WebGLPolygonReplay.t) :
  consistent r -> grows r r' -> consistent r'.
Proof.
  intros (Hlen & ixs & Hi & Hs & Hg)
         (A1 & A2 & A3 & A4 & A5 & A6 & A7 & A8).
  destruct (A8 ixs Hi) as (ixs' & Hi' & Hle).
  unfold consistent. rewrite A2, A3, A5. split; [assumption|].
  exists ixs'. split; [assumption|].
  split; (eapply List.Forall_impl; [|eassumption]); intros; cbn in *; lia.
Qed.

Lemma styled_grows (r r' : WebGLPolygonReplay.t) :
  styled r -> grows r r' -> styled r'.
Proof.
  intros [Hf Hs] (A1 & A2 & A3 & A4 & A5 & A6 & A7 & A8).
  unfold styled. now rewrite A2, A5, A6, A7.
Qed.

Lemma consistent_record (r : WebGLPolygonReplay.t) (ixs : list number)
    (index : nat) (feature : WebGLPolygonReplay.Feature) :
  consistent r -> WebGLPolygonReplay.indices r = Some ixs ->
  (index <= length ixs)%nat ->
  consistent (WebGLPolygonReplay.record_feature r index feature).
Proof.
  intros (Hlen & ixs0 & Hi & Hs & Hg) Hix Hle.
  rewrite Hi in Hix. injection Hix as ->.
  unfold consistent, WebGLPolygonReplay.record_feature. cbn.
  split; [rewrite !length_app; simpl; lia|].
  exists ixs. split; [assumption|]. split.
  - apply Forall_app. split; [assumption|]. now repeat constructor.
  - destruct (WebGLPolygonReplay.state_changed r); [|assumption].
    apply Forall_app. split; [assumption|]. now repeat constructor.
Qed.

Lemma styled_record (r : WebGLPolygonReplay.t) (index : nat)
    (feature : WebGLPolygonReplay.Feature) :
  styled r ->
  Forall (fun g => (g <= index)%nat) (WebGLPolygonReplay.styleIndices_ r) ->
  styled (WebGLPolygonReplay.record_feature r index feature).
Proof.
  intros [Hf Hs] Hg.
  unfold styled, WebGLPolygonReplay.record_feature. cbn.
  split; [assumption|].
  destruct (WebGLPolygonReplay.styleIndices_ r) as [|g sI] eqn:E.
  - destruct Hs as [-> ->]. simpl. now repeat constructor.
  - assert (Hgi : (g <= index)%nat) by now inversion Hg.
    destruct (WebGLPolygonReplay.state_changed r); simpl;
      (apply Forall_app; split; [assumption|now repeat constructor]).
Qed.

Lemma consistent_style_bound (r : WebGLPolygonReplay.t) (ixs : list number) :
  consistent r -> WebGLPolygonReplay.indices r = Some ixs ->
  Forall (fun g => (g <= length ixs)%nat) (WebGLPolygonReplay.styleIndices_ r).
Proof.
  intros (_ & ixs0 & Hi & _ & Hg) Hix. rewrite Hi in Hix.
  now injection Hix as ->.
Qed.

Lemma drawPolygon_keeps (X : Externals) (r r' : WebGLPolygonReplay.t)
    (g : WebGLPolygonReplay.Polygon) (f : WebGLPolygonReplay.Feature) :
  WebGLPolygonReplay.drawPolygon X r g f = Ok r' ->
  consistent r -> consistent r' /\ (styled r -> styled r').
Proof.
  unfold WebGLPolygonReplay.drawPolygon. intros H Hc.
  destruct (WebGLPolygonReplay.ends g) as [|end0 rest];
    [injection H as <-; tauto|].
  destruct (translate X _ _ _ _ _ _) as [|c ring];
    [injection H as <-; tauto|].
  destruct (WebGLPolygonReplay.indices r) as [ixs|] eqn:Ei; [|discriminate].
  apply drawCoordinates_grows in H. split.
  - eapply consistent_grows; [|exact H].
    now apply consistent_record with ixs.
  - intros Hs. eapply styled_grows; [|exact H].
    apply styled_record; [assumption|].
    now apply consistent_style_bound.
Qed.

Lemma drawMultiPolygon_keeps (X : Externals) (r r' : WebGLPolygonReplay.t)
    (g : WebGLPolygonReplay.MultiPolygon) (f : WebGLPolygonReplay.Feature) :
  WebGLPolygonReplay.drawMultiPolygon X r g f = Ok r' ->
  consistent r -> consistent r' /\ (styled r -> styled r').
Proof.
  unfold WebGLPolygonReplay.drawMultiPolygon. intros H Hc.
  destruct (WebGLPolygonReplay.indices r) as [ixs|] eqn:Ei; [|discriminate].
  destruct (fold_left _ _ _) as [[r1 start1]|e] eqn:Ef; [|discriminate].
  cbn [bind fst] in H. apply multi_fold_grows in Ef.
  pose proof (consistent_grows _ _ Hc Ef) as Hc1.
  destruct (WebGLPolygonReplay.indices r1) as [ixs1|] eqn:Ei1; [|discriminate].
  destruct (length ixs <? length ixs1)%nat eqn:El; injection H as <-.
  - apply Nat.ltb_lt in El. split.
    + apply consistent_record with ixs1; [assumption|assumption|lia].
    + intros Hs. apply styled_record; [now apply styled_grows with r|].
      destruct Ef as (_ & _ & _ & _ & -> & _).
      now apply consistent_style_bound.
  - split; [assumption|]. intros Hs. now apply styled_grows with r.
Qed.

Lemma setFillStrokeStyle_keeps (r : WebGLPolygonReplay.t)
    (fill : option Color) :
  (consistent r -> consistent (WebGLPolygonReplay.setFillStrokeStyle r fill))
  /\ (styled r -> styled (WebGLPolygonReplay.setFillStrokeStyle r fill)).
Proof.
  unfold WebGLPolygonReplay.setFillStrokeStyle.
  destruct (match WebGLPolygonReplay.state_fillColor r with
            | Some current => _
            | None => true
            end); [|tauto].
  split.
  - intros Hc. exact Hc.
  - intros [Hf Hs]. unfold styled. cbn. split; [discriminate|].
    destruct (WebGLPolygonReplay.styleIndices_ r); [|assumption].
    now destruct Hs as [-> _].
Qed.

Lemma draw_call_keeps (X : Externals) (r r' : WebGLPolygonReplay.t)
    (c : WebGLPolygonReplay.DrawCall) :
  WebGLPolygonReplay.draw_call X (Ok r) c = Ok r' ->
  consistent r -> consistent r' /\ (styled r -> styled r').
Proof.
  destruct c as [fill|g f|g f]; cbn [WebGLPolygonReplay.draw_call bind].
  - intros [= <-] Hc.
    destruct (setFillStrokeStyle_keeps r fill). tauto.
  - apply drawPolygon_keeps.
  - apply drawMultiPolygon_keeps.
Qed.

Lemma draw_calls_throw (X : Externals)
    (calls : list WebGLPolygonReplay.DrawCall) (e : js_error) :
  fold_left (WebGLPolygonReplay.draw_call X) calls (Throw e) = Throw e.
Proof. induction calls as [|c calls IH]; [reflexivity|exact IH]. Qed.

Lemma draw_calls_keep (X : Externals)
    (calls : list WebGLPolygonReplay.DrawCall)
    (r r' : WebGLPolygonReplay.t) :
  fold_left (WebGLPolygonReplay.draw_call X) calls (Ok r) = Ok r' ->
  consistent r -> consistent r' /\ (styled r -> styled r').
Proof.
  revert r. induction calls as [|c calls IH]; intros r.
  - intros [= <-]. tauto.
  - cbn [fold_left].
    destruct (WebGLPolygonReplay.draw_call X (Ok r) c) as [r1|e] eqn:E.
    + intros H Hc. destruct (draw_call_keeps X r r1 c E Hc) as [Hc1 Hs1].
      destruct (IH r1 H Hc1) as [Hc' Hs']. tauto.
    + rewrite draw_calls_throw. discriminate.
Qed.

Lemma new_consistent (origin : number * number) :
  consistent (WebGLPolygonReplay.new origin).
Proof.
  unfold consistent. cbn. split; [reflexivity|].
  exists []. repeat split; constructor.
Qed.

(** What [accumulate] leaves behind: one start index per feature plus the
    closing one; and, when a fill style was set before the first polygon, a
    first style group that starts no later than any feature. *)
Lemma accumulate_arrays (X : Externals) (origin : number * number)
    (calls : list WebGLPolygonReplay.DrawCall)
    (replay : WebGLPolygonReplay.t) :
  WebGLPolygonReplay.accumulate X origin calls = Ok replay ->
  length (WebGLPolygonReplay.startIndices replay) =
  S (length (WebGLPolygonReplay.startIndicesFeature replay)) /\
  (style_first calls = true ->
   WebGLPolygonReplay.startIndicesFeature replay <> [] ->
   exists groupStart,
     WebGLPolygonReplay.styleIndices_ replay !! 0%nat = Some groupStart /\
     Forall (fun start => (groupStart <= start)%nat)
            (WebGLPolygonReplay.startIndices replay)).
Proof.
  unfold WebGLPolygonReplay.accumulate.
  destruct (fold_left _ calls _) as [r|e] eqn:Ef; [|discriminate].
  cbn [bind]. unfold WebGLPolygonReplay.finish.
  destruct (WebGLPolygonReplay.indices r) as [ixs|] eqn:Ei; [|discriminate].
  intros [= <-]. cbn.
  destruct (draw_calls_keep X calls _ r Ef (new_consistent origin))
    as [Hc _].
  pose proof Hc as (Hlen & ixs0 & Hi & Hs & Hg).
  rewrite Ei in Hi. injection Hi as <-.
  split; [rewrite length_app; simpl; lia|].
  intros Hfirst Hne.
  assert (Hst : styled r).
  { destruct calls as [|[fill|g f|g f] rest]; try discriminate.
    - injection Ef as <-. now cbn in Hne.
    - cbn [fold_left WebGLPolygonReplay.draw_call bind] in Ef.
      destruct (setFillStrokeStyle_keeps (WebGLPolygonReplay.new origin) fill)
        as [Hc0 _].
      destruct (draw_calls_keep X rest _ r Ef
                  (Hc0 (new_consistent origin))) as [_ Hs0].
      apply Hs0. unfold styled. cbn. split; [discriminate|]. now split. }
  destruct Hst as [_ Hst].
  destruct (WebGLPolygonReplay.styleIndices_ r) as [|g sI] eqn:Es.
  - destruct Hst as [Hnil _]. rewrite Hnil in Hlen.
    destruct (WebGLPolygonReplay.startIndicesFeature r); [congruence|].
    discriminate.
  - exists g. split; [reflexivity|].
    apply Forall_app. split; [assumption|].
    constructor; [|constructor]. now inversion Hg.
Qed.

(** C9.  For every replay accumulated by drawing calls and [finish], every
    set of skipped features, every callback and every hit extent: the
    callback is called on the candidate features (not skipped, with a
    geometry, meeting the hit extent when one is given) in reverse drawing
    order, without leaving one out, up to and including the first one for
    which it gives a truthy value; that value is returned and no further
    feature is visited; when no call gives a truthy value the result is
    undefined, and then every candidate was visited provided a fill style
    was set before the first polygon was drawn. *)
Theorem hit_detection_one_by_one {R : Type} (X : Externals)
    (origin : number * number) (calls : list WebGLPolygonReplay.DrawCall)
    (replay : WebGLPolygonReplay.t) (skippedFeaturesHash : gmap nat bool)
    (featureCallback : WebGLPolygonReplay.Feature -> option R)
    (opt_hitExtent : option Extent) :
  WebGLPolygonReplay.accumulate X origin calls = Ok replay ->
  let run :=
    WebGLPolygonReplay.drawHitDetectionReplayOneByOne replay
      skippedFeaturesHash featureCallback opt_hitExtent in
  let candidates :=
    List.filter
      (WebGLPolygonReplay.hit_candidate skippedFeaturesHash opt_hitExtent)
      (rev (WebGLPolygonReplay.startIndicesFeature replay)) in
  let visited := callback_features (snd run) in
  visited `prefix_of` candidates /\
  match fst run with
  | Ok (Some result) =>
      exists earlier feature,
        visited = earlier ++ [feature] /\
        Forall (fun f => featureCallback f = None) earlier /\
        featureCallback feature = Some result
  | Ok None =>
      Forall (fun f => featureCallback f = None) visited /\
      (style_first calls = true -> visited = candidates)
  | Throw _ => False
  end.
Proof.
  intros Hacc run candidates visited.
  destruct (accumulate_arrays X origin calls replay Hacc) as [Hlen Hstyle].
  subst run candidates visited.
  unfold WebGLPolygonReplay.drawHitDetectionReplayOneByOne.
  set (st0 := WebGLPolygonReplay.mkLoopState _ _ _).
  assert (Hnext : WebGLPolygonReplay.ls_next st0 =
                  length (WebGLPolygonReplay.startIndicesFeature replay)).
  { unfold st0. cbn [WebGLPolygonReplay.ls_next]. rewrite Hlen. lia. }
  destruct (style_loop_outcome replay skippedFeaturesHash featureCallback
              opt_hitExtent
              (length (WebGLPolygonReplay.styleIndices_ replay)) st0 Hlen)
    as (processed & k & Hk & Hb & Ho); [lia|].
  rewrite Hnext, firstn_all in Hb. rewrite Hnext in Hk.
  destruct (WebGLPolygonReplay.style_loop _ _ _ _ _ _) as [res st].
  cbn [fst snd]. unfold loop_outcome in Ho. cbn [fst snd] in Ho.
  pose proof (visit_until_hit_spec featureCallback
                (List.filter
                   (WebGLPolygonReplay.hit_candidate skippedFeaturesHash
                                                     opt_hitExtent)
                   processed)) as Hv.
  destruct (visit_until_hit featureCallback _) as [v [x|]].
  - destruct Ho as [-> Hc]. destruct Hv as [Hp Hex].
    unfold st0 in Hc. cbn [WebGLPolygonReplay.ls_calls] in Hc.
    rewrite Hc. cbn [app callback_features flat_map].
    split; [|exact Hex].
    rewrite Hb, List.filter_app. now apply prefix_app_r.
  - destruct Ho as (-> & _ & Hc & Hstop). destruct Hv as (_ & -> & Hall).
    unfold st0 in Hc. cbn [WebGLPolygonReplay.ls_calls] in Hc.
    rewrite Hc. cbn [app callback_features flat_map].
    split; [rewrite Hb, List.filter_app; now apply prefix_app_r|].
    split; [assumption|].
    intros Hfirst.
    assert (Hk0 : k = 0%nat).
    { destruct (WebGLPolygonReplay.startIndicesFeature replay) eqn:Ef.
      - cbn [length] in Hk. lia.
      - destruct (Hstyle Hfirst) as (g0 & Hg0 & Hall0); [discriminate|].
        apply (Hstop g0); [|assumption|assumption].
        apply lookup_lt_Some in Hg0. lia. }
    subst k. cbn [firstn rev] in Hb. rewrite app_nil_r in Hb.
    now rewrite Hb.
Qed.

Lemma hit_detection_one_by_one_witness :
  WebGLPolygonReplay.drawHitDetectionReplayOneByOne sample_replay
    ({[ 3%nat := true ]} : gmap nat bool)
    (fun f => if (WebGLPolygonReplay.uid f =? 2)%nat then Some f else None)
    None
  = (Ok (Some feature_b),
     [WebGLPolygonReplay.Uniform4fv
        (Some (mkColor (Fin 0) (Fin 0) (Fin 1) (Fin 1)));
      WebGLPolygonReplay.Uniform4fv
        (Some (mkColor (Fin 1) (Fin 0) (Fin 0) (Fin 1)));
      WebGLPolygonReplay.Clear;
      WebGLPolygonReplay.DrawElements 6 (Some 12%nat);
      WebGLPolygonReplay.FeatureCallback feature_b]) /\
  callback_features
    (snd (WebGLPolygonReplay.drawHitDetectionReplayOneByOne sample_replay
            ({[ 3%nat := true ]} : gmap nat bool)
            (fun f => if (WebGLPolygonReplay.uid f =? 2)%nat
                      then Some f else None)
            None))
  `prefix_of`
  List.filter
    (WebGLPolygonReplay.hit_candidate ({[ 3%nat := true ]} : gmap nat bool)
                                      None)
    (rev (WebGLPolygonReplay.startIndicesFeature sample_replay)).
Proof.
  assert (Hacc : WebGLPolygonReplay.accumulate sample_externals
                   (Fin 0, Fin 0) sample_calls = Ok sample_replay)
    by (vm_compute; reflexivity).
  split; [vm_compute; reflexivity|].
  exact (proj1 (hit_detection_one_by_one sample_externals (Fin 0, Fin 0)
                  sample_calls sample_replay
                  ({[ 3%nat := true ]} : gmap nat bool)
                  (fun f => if (WebGLPolygonReplay.uid f =? 2)%nat
                            then Some f else None) None Hacc)).
Defined.

(* ================================================================== *)
(** * Part III. Further properties of the code                         *)
(* ================================================================== *)

(** ** Band: the statistics follow the null value *)









(** ** Band: minimum and maximum are cells of the band *)

Lemma min_fold_attained (cells : list number) (m : number) :
  let m' := fold_left (fun m c => if Num.lt c m then c else m) cells m in
  (m' = m /\ Forall (fun c => Num.lt c m = false) cells) \/ In m' cells.
Proof.
  revert m. induction cells as [|a cells IH]; intros m; simpl.
  - left. split; [reflexivity | constructor].
  - destruct (Num.lt a m) eqn:E.
    + destruct (IH a) as [[H1 H2]|H]; [|right; right; exact H].
      right. left. now rewrite H1.
    + destruct (IH m) as [[H1 H2]|H]; [|right; right; exact H].
      left. split; [exact H1 | constructor; assumption].
Qed.

Lemma max_fold_attained (cells : list number) (m : number) :
  let m' := fold_left (fun m c => if Num.gt c m then c else m) cells m in
  (m' = m /\ Forall (fun c => Num.gt c m = false) cells) \/ In m' cells.
Proof.
  revert m. induction cells as [|a cells IH]; intros m; simpl.
  - left. split; [reflexivity | constructor].
  - destruct (Num.gt a m) eqn:E.
    + destruct (IH a) as [[H1 H2]|H]; [|right; right; exact H].
      right. left. now rewrite H1.
    + destruct (IH m) as [[H1 H2]|H]; [|right; right; exact H].
      left. split; [exact H1 | constructor; assumption].
Qed.

Lemma min_fold_below (cells : list number) (m : number) :
  m <> NaN ->
  let m' := fold_left (fun m c => if Num.lt c m then c else m) cells m in
  m' <> NaN /\ Num.le m' m = true /\
  forall c, In c cells -> c <> NaN -> Num.le m' c = true.
Proof.
  revert m. induction cells as [|a cells IH]; intros m Hm; simpl.
  - repeat split; [exact Hm | now apply le_refl | intros c []].
  - set (m1 := if Num.lt a m then a else m).
    assert (Hm1 : m1 <> NaN).
    { unfold m1. destruct (Num.lt a m) eqn:E; [|exact Hm].
      intros ->. discriminate E. }
    assert (Hle : Num.le m1 m = true).
    { unfold m1. destruct (Num.lt a m) eqn:E;
        [now apply lt_le | now apply le_refl]. }
    destruct (IH m1 Hm1) as (H1 & H2 & H3).
    repeat split; [exact H1 | eapply le_trans; eassumption |].
    intros c [<-|Hc] Hn; [|now apply H3].
    eapply le_trans; [exact H2|].
    unfold m1. destruct (Num.lt a m) eqn:E;
      [now apply le_refl | now apply not_lt_le].
Qed.

Lemma max_fold_above (cells : list number) (m : number) :
  m <> NaN ->
  let m' := fold_left (fun m c => if Num.gt c m then c else m) cells m in
  m' <> NaN /\ Num.le m m' = true /\
  forall c, In c cells -> c <> NaN -> Num.le c m' = true.
Proof.
  revert m. induction cells as [|a cells IH]; intros m Hm; simpl.
  - repeat split; [exact Hm | now apply le_refl | intros c []].
  - set (m1 := if Num.gt a m then a else m).
    assert (Hm1 : m1 <> NaN).
    { unfold m1. destruct (Num.gt a m) eqn:E; [|exact Hm].
      intros ->. unfold Num.gt in E. destruct m; discriminate E. }
    assert (Hle : Num.le m m1 = true).
    { unfold m1. destruct (Num.gt a m) eqn:E;
        [now apply lt_le | now apply le_refl]. }
    destruct (IH m1 Hm1) as (H1 & H2 & H3).
    repeat split; [exact H1 | eapply le_trans; eassumption |].
    intros c [<-|Hc] Hn; [|now apply H3].
    eapply le_trans; [|exact H2].
    unfold m1. destruct (Num.gt a m) eqn:E;
      [now apply le_refl | now apply not_lt_le].
Qed.

(** X2. After [calculateStatistics], if some counted cell (a cell that is
    not the null value) is a number other than NaN, then the minimum and
    the maximum are each the value of a counted cell, and the minimum is
    not above the maximum.  NaN cells are counted but never become an
    extreme. *)
Theorem statistics_extremes_attained (band : Band.t) (cell : number) :
  let stat := Band.getStatistics (Band.calculateStatistics band) in
  let valid :=
    valid_cells (Band.getCoverageData band) (Band.getNullValue band) in
  In cell valid -> cell <> NaN ->
  In (Band.min stat) valid /\ In (Band.max stat) valid /\
  Num.le (Band.min stat) (Band.max stat) = true.
Proof.
  intros stat valid Hin Hn.
  unfold stat, Band.calculateStatistics, Band.getStatistics.
  cbn [Band.statistics_].
  rewrite statistics_of_components. cbn [Band.min Band.max].
  fold valid.
  assert (Hmin : In (fold_left (fun m c => if Num.lt c m then c else m)
                               valid PInf) valid).
  { destruct (min_fold_attained valid PInf) as [[H1 H2]|H]; [|exact H].
    rewrite H1. rewrite List.Forall_forall in H2. specialize (H2 _ Hin).
    destruct cell; try discriminate H2; try contradiction; exact Hin. }
  assert (Hmax : In (fold_left (fun m c => if Num.gt c m then c else m)
                               valid NInf) valid).
  { destruct (max_fold_attained valid NInf) as [[H1 H2]|H]; [|exact H].
    rewrite H1. rewrite List.Forall_forall in H2. specialize (H2 _ Hin).
    destruct cell; try discriminate H2; try contradiction; exact Hin. }
  repeat split; [exact Hmin | exact Hmax |].
  destruct (min_fold_below valid PInf) as (_ & _ & Hlo); [discriminate|].
  destruct (max_fold_above valid NInf) as (_ & _ & Hhi); [discriminate|].
  eapply le_trans; [apply (Hlo cell Hin Hn) | apply (Hhi cell Hin Hn)].
Qed.

Lemma statistics_extremes_attained_witness :
  In (Fin 2) (valid_cells (Band.getCoverageData sample_band)
                          (Band.getNullValue sample_band)) /\
  In (Band.min (Band.getStatistics (Band.calculateStatistics sample_band)))
     (valid_cells (Band.getCoverageData sample_band)
                  (Band.getNullValue sample_band)).
Proof.
  assert (Hin : In (Fin 2) (valid_cells (Band.getCoverageData sample_band)
                                        (Band.getNullValue sample_band)))
    by (vm_compute; tauto).
  split; [exact Hin|].
  apply (statistics_extremes_attained sample_band (Fin 2) Hin).
  discriminate.
Defined.

(** ** Monochrome: the grey levels *)

Lemma Qltb_inject_Z (a b : Z) :
  Num.Qltb (inject_Z a) (inject_Z b) = (a <? b)%Z.
Proof.
  unfold Num.Qltb, Qle_bool. simpl. rewrite !Z.mul_1_r.
  now rewrite Z.ltb_antisym.
Qed.

Lemma clamp_byte (z : Z) :
  clamp (Fin (inject_Z z)) (Fin 0) (Fin 255) =
  Fin (inject_Z (Z.max 0 (Z.min 255 z))).
Proof.
  change (Fin 0) with (Fin (inject_Z 0)).
  change (Fin 255) with (Fin (inject_Z 255)).
  unfold clamp, Num.max, Num.lt. rewrite Qltb_inject_Z.
  destruct (Z.ltb_spec z 0) as [H|H].
  - unfold Num.min, Num.lt. rewrite Qltb_inject_Z.
    replace (Z.max 0 (Z.min 255 z)) with 0%Z by lia. reflexivity.
  - unfold Num.min, Num.lt. rewrite Qltb_inject_Z.
    destruct (Z.ltb_spec 255 z) as [H'|H'].
    + replace (Z.max 0 (Z.min 255 z)) with 255%Z by lia. reflexivity.
    + replace (Z.max 0 (Z.min 255 z)) with z by lia. reflexivity.
Qed.

Lemma clamp_round_byte (x : number) :
  let v := clamp (Num.round x) (Fin 0) (Fin 255) in
  v = NaN \/ exists z : Z, (0 <= z <= 255)%Z /\ v = Fin (inject_Z z).
Proof.
  destruct x as [| | |q]; cbn zeta.
  - left. reflexivity.
  - right. exists 0%Z. split; [lia | reflexivity].
  - right. exists 255%Z. split; [lia | reflexivity].
  - right. unfold Num.round. rewrite clamp_byte.
    eexists. split; [|reflexivity]. lia.
Qed.

Lemma Monochrome_apply_flat (s : Monochrome.t) (matrix : list number)
    (nodata : value) (minAlpha maxAlpha : number) :
  Monochrome.apply s matrix nodata minAlpha maxAlpha =
  flat_map
    (Monochrome.apply_cell
       (match Monochrome.getMin s with Some m => m | None => PInf end)
       (Num.sub (match Monochrome.getMax s with Some m => m | None => NInf end)
                (match Monochrome.getMin s with Some m => m | None => PInf end))
       nodata minAlpha maxAlpha)
    matrix.
Proof.
  unfold Monochrome.apply. now rewrite fold_push_all.
Qed.

(** X3. Whatever the style and the cells, [Monochrome.apply] writes for
    every cell the same number three times, followed by the alpha of the
    cell, and that number is NaN or an integer between 0 and 255. *)
Theorem monochrome_grey_levels (s : Monochrome.t) (matrix : list number)
    (nodata : value) (minAlpha maxAlpha : number) :
  exists grey : number -> number,
    (forall cell,
       grey cell = NaN \/
       exists z : Z, (0 <= z <= 255)%Z /\ grey cell = Fin (inject_Z z)) /\
    Monochrome.apply s matrix nodata minAlpha maxAlpha =
    flat_map
      (fun cell =>
         [grey cell; grey cell; grey cell;
          if strict_equals (VNum cell) nodata then maxAlpha else minAlpha])
      matrix.
Proof.
  rewrite Monochrome_apply_flat.
  set (min := match Monochrome.getMin s with Some m => m | None => PInf end).
  set (max := match Monochrome.getMax s with Some m => m | None => NInf end).
  exists (fun cell =>
            clamp (Num.round
                     (Num.mul (Fin 255)
                        (Num.div (Num.sub cell min) (Num.sub max min))))
                  (Fin 0) (Fin 255)).
  split; [|reflexivity].
  intros cell. apply clamp_round_byte.
Qed.

Lemma grey_finite (lo hi c : Q) :
  lo < hi ->
  clamp (Num.round
           (Num.mul (Fin 255)
              (Num.div (Num.sub (Fin c) (Fin lo))
                       (Num.sub (Fin hi) (Fin lo)))))
        (Fin 0) (Fin 255) =
  Fin (inject_Z
         (Z.max 0 (Z.min 255
            (Qfloor (255 * ((c - lo) / (hi - lo)) + (1 # 2)))))).
Proof.
  intros Hlt. unfold Num.sub, Num.div.
  assert (Hs : Num.sign (Qred (hi - lo)) = Gt).
  { apply sign_Gt. rewrite Qred_correct. lra. }
  rewrite Hs. unfold Num.mul, Num.round. rewrite clamp_byte.
  do 4 f_equal. apply Qfloor_comp. now rewrite !Qred_correct.
Qed.













(** ** Monochrome: the checksum *)

Lemma monochrome_cache_call (toString : number -> string)
    (s : Monochrome.t) (c : MonochromeCall) :
  (Monochrome.checksum_ s = None \/
   Monochrome.checksum_ s = Some (Monochrome.checksum_string toString s)) ->
  let s' := monochrome_call toString s c in
  Monochrome.checksum_ s' = None \/
  Monochrome.checksum_ s' = Some (Monochrome.checksum_string toString s').
Proof.
  intros H. destruct c; cbn; try (left; reflexivity).
  unfold Monochrome.getChecksum.
  destruct (Monochrome.checksum_ s) as [c|] eqn:E; cbn.
  - rewrite E. exact H.
  - right. reflexivity.
Qed.

Lemma monochrome_cache_calls (toString : number -> string)
    (calls : list MonochromeCall) (s : Monochrome.t) :
  (Monochrome.checksum_ s = None \/
   Monochrome.checksum_ s = Some (Monochrome.checksum_string toString s)) ->
  let s' := fold_left (monochrome_call toString) calls s in
  Monochrome.checksum_ s' = None \/
  Monochrome.checksum_ s' = Some (Monochrome.checksum_string toString s').
Proof.
  revert s. induction calls as [|c calls IH]; intros s H; simpl.
  - exact H.
  - apply IH. now apply monochrome_cache_call.
Qed.

(** X7. The cached checksum of a monochrome style is never stale: after
    the constructor and any sequence of [setMin], [setMax], [setBandIndex]
    and [getChecksum] calls, [getChecksum] returns the string computed from
    the current band index, min and max. *)
Theorem monochrome_checksum_current (toString : number -> string)
    (options : Monochrome.Options) (calls : list MonochromeCall) :
  let s := fold_left (monochrome_call toString) calls
                     (Monochrome.new options) in
  fst (Monochrome.getChecksum toString s) =
  Monochrome.checksum_string toString s /\
  Monochrome.checksum_ (snd (Monochrome.getChecksum toString s)) =
  Some (Monochrome.checksum_string toString s).
Proof.
  intros s.
  assert (H : Monochrome.checksum_ s = None \/
              Monochrome.checksum_ s =
              Some (Monochrome.checksum_string toString s)).
  { apply monochrome_cache_calls. left. reflexivity. }
  unfold Monochrome.getChecksum.
  destruct (Monochrome.checksum_ s) as [c|] eqn:E; cbn.
  - destruct H as [H|H]; [discriminate|]. injection H as ->.
    split; [reflexivity | exact E].
  - split; reflexivity.
Qed.

Lemma append_nil_l (s : string) : EmptyString +:+ s = s.
Proof. reflexivity. Qed.

Lemma append_cons (x : ascii) (a s : string) :
  String x a +:+ s = String x (a +:+ s).
Proof. reflexivity. Qed.

Lemma comma_split (a c b d : string) :
  comma_free a = true -> comma_free c = true ->
  a +:+ "," +:+ b = c +:+ "," +:+ d -> a = c /\ b = d.
Proof.
  revert c. induction a as [|x a IH]; intros [|y c] Ha Hc E;
    rewrite ?append_cons, ?append_nil_l in E; simpl in Ha, Hc.
  - injection E as E. subst. split; reflexivity.
  - injection E as E1 E2. subst y. discriminate Hc.
  - injection E as E1 E2. subst x. discriminate Ha.
  - injection E as E1 E. subst y.
    apply andb_prop in Ha, Hc.
    destruct (IH c (proj2 Ha) (proj2 Hc) E) as [-> ->].
    split; reflexivity.
Qed.

(** X8. The checksum of a monochrome style tells its parameters apart:
    when no rendered number holds a comma, two styles with a band index
    have the same checksum string only if their band index, their min and
    their max are rendered to the same strings (an undefined bound being
    rendered as a dash). *)
Theorem monochrome_checksum_injective (toString : number -> string)
    (s1 s2 : Monochrome.t) (b1 b2 : number) :
  Monochrome.getBandIndex s1 = Some b1 ->
  Monochrome.getBandIndex s2 = Some b2 ->
  comma_free (toString b1) = true ->
  comma_free (toString b2) = true ->
  comma_free (shown toString (Monochrome.getMin s1)) = true ->
  comma_free (shown toString (Monochrome.getMin s2)) = true ->
  Monochrome.checksum_string toString s1 =
  Monochrome.checksum_string toString s2 ->
  toString b1 = toString b2 /\
  shown toString (Monochrome.getMin s1) =
  shown toString (Monochrome.getMin s2) /\
  shown toString (Monochrome.getMax s1) =
  shown toString (Monochrome.getMax s2).
Proof.
  intros B1 B2 C1 C2 M1 M2 E.
  unfold Monochrome.checksum_string in E. rewrite B1, B2 in E.
  fold (shown toString (Monochrome.getMin s1)) in E.
  fold (shown toString (Monochrome.getMax s1)) in E.
  fold (shown toString (Monochrome.getMin s2)) in E.
  fold (shown toString (Monochrome.getMax s2)) in E.
  rewrite !append_cons, !append_nil_l in E. injection E as E.
  destruct (comma_split _ _ _ _ C1 C2 E) as [Hb E'].
  destruct (comma_split _ _ _ _ M1 M2 E') as [Hmin Hmax].
  repeat split; assumption.
Qed.

Lemma monochrome_checksum_injective_witness :
  sample_toString (Fin 0) = sample_toString (Fin 0) /\
  shown sample_toString (Monochrome.getMin zero_min_style) =
  shown sample_toString
    (Monochrome.getMin
       (Monochrome.new
          (Monochrome.mkOptions (Some (Fin (0 # 5))) (Some (Fin 10)) None)))
  /\
  shown sample_toString (Monochrome.getMax zero_min_style) =
  shown sample_toString
    (Monochrome.getMax
       (Monochrome.new
          (Monochrome.mkOptions (Some (Fin (0 # 5))) (Some (Fin 10)) None))).
Proof.
  apply (monochrome_checksum_injective sample_toString zero_min_style
           (Monochrome.new
              (Monochrome.mkOptions (Some (Fin (0 # 5))) (Some (Fin 10))
                                    None))
           (Fin 0) (Fin 0));
    vm_compute; reflexivity.
Defined.

(** ** Pseudocolor: the intervals *)

Lemma consecutive_cons (a b : Pseudocolor.PseudocolorMap)
    (rest : list Pseudocolor.PseudocolorMap) :
  consecutive (a :: b :: rest) =
  Pseudocolor.mkInterval a b (Num.sub (fst b) (fst a)) ::
  consecutive (b :: rest).
Proof. reflexivity. Qed.

Lemma interval_fold_consecutive (min max : number)
    (e : Pseudocolor.PseudocolorMap) (l : list Pseudocolor.PseudocolorMap) :
  forall ivs prev,
    fst (fold_left (Pseudocolor.interval_step min max) l (ivs, prev)) ++
    [Pseudocolor.mkInterval
       (snd (fold_left (Pseudocolor.interval_step min max) l (ivs, prev))) e
       (Num.sub (fst e)
          (fst (snd (fold_left (Pseudocolor.interval_step min max) l
                               (ivs, prev)))))]
    = ivs ++ consecutive (prev :: List.filter (in_range min max) l ++ [e]).
Proof.
  induction l as [|p l IH]; intros ivs prev.
  - reflexivity.
  - cbn [fold_left List.filter].
    replace (Pseudocolor.interval_step min max (ivs, prev) p)
      with (if in_range min max p
            then (ivs ++ [Pseudocolor.mkInterval prev p
                            (Num.sub (fst p) (fst prev))], p)
            else (ivs, prev)) by reflexivity.
    destruct (in_range min max p) eqn:E.
    + rewrite IH. rewrite <- app_comm_cons, consecutive_cons.
      now rewrite <- app_assoc.
    + apply IH.
Qed.

Lemma createIntervals_consecutive (s : Pseudocolor.t) (min max : number) :
  Pseudocolor.createIntervals_ s min max = consecutive (boundaries s min max).
Proof.
  rewrite createIntervals_sorted.
  pose proof (interval_fold_consecutive min max
                (max, Pseudocolor.getEndColor s)
                (stableSort Pseudocolor.by_value
                   (Pseudocolor.getBreakpoints s))
                [] (min, Pseudocolor.getStartColor s)) as H.
  set (F := fold_left _ _ _) in H.
  match goal with
  | |- context [fold_left ?f ?l ?i] => change (fold_left f l i) with F
  end.
  clearbody F. destruct F as [ivs prev]. exact H.
Qed.

Lemma consecutive_length (a e : Pseudocolor.PseudocolorMap)
    (l : list Pseudocolor.PseudocolorMap) :
  length (consecutive (a :: l ++ [e])) = S (length l).
Proof.
  revert a. induction l as [|p l IH]; intros a.
  - reflexivity.
  - rewrite <- app_comm_cons, consecutive_cons. cbn [length].
    now rewrite IH.
Qed.

Lemma filter_length_perm {A} (f : A -> bool) (l l' : list A) :
  Permutation l l' -> length (List.filter f l) = length (List.filter f l').
Proof.
  induction 1 as [|x l l' _ IH|x y l|l l' l'' _ IH1 _ IH2]; simpl.
  - reflexivity.
  - destruct (f x); simpl; congruence.
  - destruct (f x), (f y); reflexivity.
  - congruence.
Qed.

(** X9. The intervals that [createIntervals_] builds are the gaps between
    consecutive breaks of one list: the lower end with the start colour,
    then the breakpoints whose value lies strictly between min and max in
    sorted order, then the upper end with the end colour.  Breakpoints at or
    outside the ends are ignored, and there is one interval more than
    breakpoints strictly inside. *)
Theorem createIntervals_structure (s : Pseudocolor.t) (min max : number) :
  Pseudocolor.createIntervals_ s min max =
  consecutive (boundaries s min max) /\
  length (Pseudocolor.createIntervals_ s min max) =
  S (length (List.filter (in_range min max) (Pseudocolor.getBreakpoints s))).
Proof.
  split; [apply createIntervals_consecutive|].
  rewrite createIntervals_consecutive. unfold boundaries.
  rewrite consecutive_length. f_equal.
  symmetry. apply filter_length_perm, stableSort_perm.
Qed.

(** ** Pseudocolor: the colours at the ends of the range *)

Lemma finite_color_components (c : Color) :
  finite_color c = true ->
  exists r g b, red c = Fin r /\ green c = Fin g /\ blue c = Fin b.
Proof.
  unfold finite_color. destruct c as [r g b al]. cbn [red green blue].
  destruct r, g, b; try discriminate. intros _. repeat eexists.
Qed.

Lemma lerp_at_zero (a b r : Q) :
  r == 0 -> Num.eqb (lerp (Fin a) (Fin b) (Fin r)) (Fin a) = true.
Proof.
  intros H. unfold lerp, Num.add, Num.mul, Num.sub, Num.eqb.
  apply Qeq_bool_iff. rewrite !Qred_correct, H. ring.
Qed.

Lemma lerp_at_one (a b r : Q) :
  r == 1 -> Num.eqb (lerp (Fin a) (Fin b) (Fin r)) (Fin b) = true.
Proof.
  intros H. unfold lerp, Num.add, Num.mul, Num.sub, Num.eqb.
  apply Qeq_bool_iff. rewrite !Qred_correct, H. ring.
Qed.

Lemma ratio_zero (lo v : Q) :
  lo < v ->
  exists r, Num.div (Num.sub (Fin lo) (Fin lo)) (Num.sub (Fin v) (Fin lo))
            = Fin r /\ r == 0.
Proof.
  intros H. unfold Num.sub, Num.div.
  assert (Hs : Num.sign (Qred (v - lo)) = Gt).
  { apply sign_Gt. rewrite Qred_correct. lra. }
  rewrite Hs. eexists. split; [reflexivity|].
  rewrite !Qred_correct. unfold Qdiv.
  assert (E : lo - lo == 0) by ring. rewrite E. ring.
Qed.

Lemma ratio_one (pv hi : Q) :
  pv < hi ->
  exists r, Num.div (Num.sub (Fin hi) (Fin pv)) (Num.sub (Fin hi) (Fin pv))
            = Fin r /\ r == 1.
Proof.
  intros H. unfold Num.sub, Num.div.
  assert (Hs : Num.sign (Qred (hi - pv)) = Gt).
  { apply sign_Gt. rewrite Qred_correct. lra. }
  rewrite Hs. eexists. split; [reflexivity|].
  rewrite !Qred_correct. unfold Qdiv. apply Qmult_inv_r. lra.
Qed.

Lemma in_range_finite (lo hi : Q) (p : Pseudocolor.PseudocolorMap) :
  in_range (Fin lo) (Fin hi) p = true ->
  exists v, fst p = Fin v /\ lo < v /\ v < hi.
Proof.
  unfold in_range, Num.gt, Num.lt.
  destruct (fst p) as [| | |v]; try discriminate.
  intros H. apply andb_prop in H. destruct H as [H1 H2].
  exists v. split; [reflexivity|]. split; now apply Qltb_lt.
Qed.

Lemma inner_in_range (min max : number)
    (l : list Pseudocolor.PseudocolorMap) :
  Forall (fun p => in_range min max p = true)
         (List.filter (in_range min max) l).
Proof.
  apply List.Forall_forall. intros p Hp.
  now apply filter_In in Hp.
Qed.

Lemma inner_forall (P : Pseudocolor.PseudocolorMap -> Prop)
    (min max : number) (bps : list Pseudocolor.PseudocolorMap) :
  Forall P bps ->
  Forall P (List.filter (in_range min max)
              (stableSort Pseudocolor.by_value bps)).
Proof.
  intros H. apply List.Forall_forall. intros p Hp.
  apply filter_In in Hp. destruct Hp as [Hp _].
  rewrite List.Forall_forall in H. apply H.
  eapply Permutation_in; [|exact Hp].
  apply Permutation_sym, stableSort_perm.
Qed.

Lemma Pseudocolor_apply_one (s : Pseudocolor.t) (min max cell : number)
    (nodata : value) (minAlpha maxAlpha : number) :
  Pseudocolor.getMin s = Some min -> Pseudocolor.getMax s = Some max ->
  Pseudocolor.apply s [cell] nodata minAlpha maxAlpha =
  Pseudocolor.apply_cell min max (consecutive (boundaries s min max))
    (mode_eqb (Pseudocolor.getMode s) CATEGORIZED) nodata minAlpha maxAlpha
    cell.
Proof.
  intros Hmin Hmax. rewrite Pseudocolor_apply_cells, Hmin, Hmax.
  cbn [flat_map]. now rewrite app_nil_r, createIntervals_consecutive.
Qed.

Lemma start_of_range (lo v : Q) (sc : Color) (h : Pseudocolor.PseudocolorMap)
    (rest : list Pseudocolor.PseudocolorInterval) (tail : list number) :
  fst h = Fin v -> lo < v ->
  finite_color sc = true -> finite_color (snd h) = true ->
  same_rgb
    (Pseudocolor.interval_color false (Fin lo)
       (Pseudocolor.mkInterval (Fin lo, sc) h
          (Num.sub (fst h) (fst (Fin lo, sc))) :: rest) ++ tail) sc = true.
Proof.
  intros Hv Hlt Hsc Hh.
  destruct (finite_color_components _ Hsc) as (r & g & b & Hr & Hg & Hb).
  destruct (finite_color_components _ Hh) as (r' & g' & b' & Hr' & Hg' & Hb').
  destruct (ratio_zero lo v Hlt) as (q & Hq & Hq0).
  cbn [Pseudocolor.interval_color Pseudocolor.higher Pseudocolor.lower
       Pseudocolor.range fst snd].
  rewrite Hv.
  assert (Hle : Num.le (Fin lo) (Fin v) = true).
  { unfold Num.le. apply Qle_bool_iff. lra. }
  rewrite Hle, Hq, Hr, Hg, Hb, Hr', Hg', Hb'.
  cbn [app same_rgb red green blue]. rewrite Hr, Hg, Hb.
  rewrite !lerp_at_zero by exact Hq0. reflexivity.
Qed.

Lemma end_of_range (hi : Q) (ec : Color) (tail : list number)
    (inner : list Pseudocolor.PseudocolorMap) :
  forall prev pv,
    fst prev = Fin pv -> pv < hi ->
    finite_color (snd prev) = true -> finite_color ec = true ->
    Forall (fun p => exists v, fst p = Fin v /\ v < hi) inner ->
    Forall (fun p => finite_color (snd p) = true) inner ->
    same_rgb
      (Pseudocolor.interval_color false (Fin hi)
         (consecutive (prev :: inner ++ [(Fin hi, ec)])) ++ tail) ec = true.
Proof.
  induction inner as [|p inner IH]; intros prev pv Hpv Hlt Hpc Hec Hin Hcol.
  - destruct (finite_color_components _ Hpc) as (r & g & b & Hr & Hg & Hb).
    destruct (finite_color_components _ Hec)
      as (r' & g' & b' & Hr' & Hg' & Hb').
    destruct (ratio_one pv hi Hlt) as (q & Hq & Hq1).
    cbn [app consecutive Pseudocolor.interval_color Pseudocolor.higher
         Pseudocolor.lower Pseudocolor.range fst snd].
    assert (Hle : Num.le (Fin hi) (Fin hi) = true).
    { unfold Num.le. apply Qle_bool_iff. lra. }
    rewrite Hle, Hpv, Hq, Hr, Hg, Hb, Hr', Hg', Hb'.
    cbn [app same_rgb red green blue]. rewrite Hr', Hg', Hb'.
    rewrite !lerp_at_one by exact Hq1. reflexivity.
  - inversion Hin as [|? ? (v & Hv & Hvlt) Hin']; subst.
    inversion Hcol as [|? ? Hpcol Hcol']; subst.
    rewrite <- app_comm_cons, consecutive_cons.
    cbn [Pseudocolor.interval_color Pseudocolor.higher].
    rewrite Hv.
    assert (Hle : Num.le (Fin hi) (Fin v) = false).
    { unfold Num.le. destruct (Qle_bool hi v) eqn:E; [|reflexivity].
      apply Qle_bool_iff in E. lra. }
    rewrite Hle. now apply (IH p v).
Qed.

(** X10. In interpolate mode the gradient of a pseudocolor style starts at
    the start colour and ends at the end colour: with finite bounds
    min < max and finite colours, a cell equal to min is written with the
    red, green and blue of the start colour and a cell equal to max with
    those of the end colour, whatever breakpoints lie between (finite
    arithmetic taken as exact). *)
Theorem pseudocolor_gradient_ends (s : Pseudocolor.t) (lo hi : Q)
    (nodata : value) (minAlpha maxAlpha : number) :
  Pseudocolor.getMin s = Some (Fin lo) ->
  Pseudocolor.getMax s = Some (Fin hi) ->
  lo < hi ->
  Pseudocolor.getMode s = INTERPOLATE ->
  finite_color (Pseudocolor.getStartColor s) = true ->
  finite_color (Pseudocolor.getEndColor s) = true ->
  Forall (fun p => finite_color (snd p) = true)
         (Pseudocolor.getBreakpoints s) ->
  same_rgb (Pseudocolor.apply s [Fin lo] nodata minAlpha maxAlpha)
           (Pseudocolor.getStartColor s) = true /\
  same_rgb (Pseudocolor.apply s [Fin hi] nodata minAlpha maxAlpha)
           (Pseudocolor.getEndColor s) = true.
Proof.
  intros Hmin Hmax Hlt Hmode Hsc Hec Hbps.
  rewrite !(Pseudocolor_apply_one s (Fin lo) (Fin hi)) by assumption.
  rewrite Hmode. cbn [mode_eqb]. unfold Pseudocolor.apply_cell, boundaries.
  set (inner := List.filter (in_range (Fin lo) (Fin hi))
                  (stableSort Pseudocolor.by_value
                     (Pseudocolor.getBreakpoints s))).
  assert (Hin : Forall (fun p => in_range (Fin lo) (Fin hi) p = true) inner)
    by apply inner_in_range.
  assert (Hcol : Forall (fun p => finite_color (snd p) = true) inner)
    by now apply inner_forall.
  split.
  - assert (E1 : Num.lt (Fin lo) (Fin lo) = false) by apply lt_irrefl.
    assert (E2 : Num.gt (Fin lo) (Fin hi) = false).
    { unfold Num.gt, Num.lt. apply Qltb_false. lra. }
    rewrite E1, E2. cbn [orb].
    destruct inner as [|p inner'].
    + cbn [app]. rewrite consecutive_cons.
      apply (start_of_range lo hi); [reflexivity | exact Hlt | exact Hsc |
                                      exact Hec].
    + inversion Hin as [|? ? Hp _]; subst.
      inversion Hcol as [|? ? Hpc _]; subst.
      destruct (in_range_finite lo hi p Hp) as (v & Hv & Hv1 & Hv2).
      rewrite <- app_comm_cons, consecutive_cons.
      now apply (start_of_range lo v).
  - assert (E1 : Num.lt (Fin hi) (Fin lo) = false).
    { unfold Num.lt. apply Qltb_false. lra. }
    assert (E2 : Num.gt (Fin hi) (Fin hi) = false) by apply lt_irrefl.
    rewrite E1, E2. cbn [orb].
    apply (end_of_range hi _ _ inner _ lo);
      [reflexivity | exact Hlt | exact Hsc | exact Hec | | exact Hcol].
    eapply List.Forall_impl; [|exact Hin].
    intros p Hp. destruct (in_range_finite lo hi p Hp) as (v & Hv & _ & Hv2).
    now exists v.
Qed.

Lemma pseudocolor_gradient_ends_witness :
  same_rgb (Pseudocolor.apply sample_pseudocolor [Fin 0] VNull (Fin 1) (Fin 0))
           (Pseudocolor.getStartColor sample_pseudocolor) = true /\
  same_rgb (Pseudocolor.apply sample_pseudocolor [Fin 10] VNull (Fin 1)
                              (Fin 0))
           (Pseudocolor.getEndColor sample_pseudocolor) = true.
Proof.
  apply (pseudocolor_gradient_ends sample_pseudocolor 0 10 VNull (Fin 1)
           (Fin 0)); try reflexivity.
  repeat constructor.
Defined.

(** ** Pseudocolor: categorized mode *)

Lemma locally_sorted_ascending (l : list Pseudocolor.PseudocolorMap) :
  locally_sorted l -> Forall (fun p => fst p <> NaN) l -> ascending l.
Proof.
  unfold locally_sorted, ascending.
  induction l as [|a l IH]; intros Hs Hn; [constructor|].
  inversion Hs as [|? ? Hs' Hhd]; subst.
  inversion Hn as [|? ? Ha Hn']; subst.
  specialize (IH Hs' Hn'). constructor; [exact IH|].
  destruct l as [|b l']; [constructor|].
  inversion Hhd as [|? ? Hab]; subst.
  inversion Hn' as [|? ? Hb _]; subst.
  assert (Hle : Num.le (fst a) (fst b) = true) by now apply not_lt_le.
  constructor; [exact Hle|].
  inversion IH as [|? ? _ Hall]; subst.
  eapply List.Forall_impl; [|exact Hall].
  intros q Hq. cbv beta in Hq. eapply le_trans; eassumption.
Qed.

Lemma ascending_filter (f : Pseudocolor.PseudocolorMap -> bool)
    (l : list Pseudocolor.PseudocolorMap) :
  ascending l -> ascending (List.filter f l).
Proof.
  unfold ascending. induction 1 as [|a l Hs IH Hall]; simpl; [constructor|].
  destruct (f a); [|exact IH]. constructor; [exact IH|].
  apply List.Forall_forall. intros q Hq. apply filter_In in Hq.
  rewrite List.Forall_forall in Hall. now apply Hall.
Qed.

Lemma categorized_walk (c hi : Q) (e : Pseudocolor.PseudocolorMap)
    (inner : list Pseudocolor.PseudocolorMap) :
  fst e = Fin hi -> c <= hi ->
  forall prev,
    ascending (prev :: inner) ->
    Forall (fun p => exists v, fst p = Fin v) inner ->
    exists p,
      In p (prev :: inner) /\
      Pseudocolor.interval_color true (Fin c)
        (consecutive (prev :: inner ++ [e])) =
      [red (snd p); green (snd p); blue (snd p)] /\
      (p = prev \/ Num.lt (fst p) (Fin c) = true) /\
      Forall (fun q => Num.le (fst q) (fst p) = true \/
                       Num.le (Fin c) (fst q) = true) inner.
Proof.
  intros He Hc. induction inner as [|q inner IH]; intros prev Hasc Hfin.
  - exists prev. repeat split; [now left | | now left | constructor].
    cbn [app consecutive Pseudocolor.interval_color Pseudocolor.higher
         Pseudocolor.lower].
    rewrite He.
    assert (Hle : Num.le (Fin c) (Fin hi) = true)
      by (unfold Num.le; now apply Qle_bool_iff).
    now rewrite Hle.
  - unfold ascending in Hasc.
    inversion Hasc as [|? ? Hasc' Hprev]; subst.
    inversion Hfin as [|? ? (v & Hv) Hfin']; subst.
    rewrite <- app_comm_cons, consecutive_cons.
    cbn [Pseudocolor.interval_color Pseudocolor.higher Pseudocolor.lower].
    destruct (Num.le (Fin c) (fst q)) eqn:E.
    + exists prev. repeat split; [now left | now left |].
      constructor; [now right|].
      inversion Hasc' as [|? ? _ Hq]; subst.
      eapply List.Forall_impl; [|exact Hq].
      intros r Hr. cbv beta in Hr. right. eapply le_trans; eassumption.
    + destruct (IH q Hasc' Hfin') as (p & Hin & Hcol & Hp & Hall).
      exists p. repeat split; [now right | exact Hcol | |].
      * right. destruct Hp as [->|Hp]; [|exact Hp].
        rewrite Hv in E |- *. unfold Num.le in E. unfold Num.lt.
        apply Qltb_lt. destruct (Qle_bool c v) eqn:E'; [discriminate|].
        apply Qnot_le_lt. intros H. apply Qle_bool_iff in H. congruence.
      * constructor; [|exact Hall]. left.
        destruct Hin as [<-|Hin].
        -- apply le_refl. rewrite Hv. discriminate.
        -- inversion Hasc' as [|? ? _ Hq]; subst.
           rewrite List.Forall_forall in Hq. now apply Hq.
Qed.

(** X11. In categorized mode a finite cell within [min, max] is written
    with the colour of one break: the start colour, or the colour of a
    breakpoint strictly inside the range whose value is strictly below the
    cell; no breakpoint inside the range has a value between that break and
    the cell.  So a class is open below and closed above, a cell equal to a
    breakpoint value belongs to the class below it, and the end colour is
    never written.  (Breakpoint values are taken not to be NaN.) *)
Theorem pseudocolor_categorized (s : Pseudocolor.t) (lo hi c : Q)
    (nodata : value) (minAlpha maxAlpha : number) :
  Pseudocolor.getMin s = Some (Fin lo) ->
  Pseudocolor.getMax s = Some (Fin hi) ->
  Pseudocolor.getMode s = CATEGORIZED ->
  Forall (fun p => fst p <> NaN) (Pseudocolor.getBreakpoints s) ->
  lo <= c -> c <= hi ->
  exists p,
    In p ((Fin lo, Pseudocolor.getStartColor s) ::
          Pseudocolor.getBreakpoints s) /\
    Pseudocolor.apply s [Fin c] nodata minAlpha maxAlpha =
    [red (snd p); green (snd p); blue (snd p);
     if strict_equals (VNum (Fin c)) nodata then maxAlpha else minAlpha] /\
    (p = (Fin lo, Pseudocolor.getStartColor s) \/
     in_range (Fin lo) (Fin hi) p = true /\
     Num.lt (fst p) (Fin c) = true) /\
    Forall (fun q => in_range (Fin lo) (Fin hi) q = true ->
                     Num.le (fst q) (fst p) = true \/
                     Num.le (Fin c) (fst q) = true)
           (Pseudocolor.getBreakpoints s).
Proof.
  intros Hmin Hmax Hmode Hnan Hlo Hhi.
  rewrite (Pseudocolor_apply_one s (Fin lo) (Fin hi)) by assumption.
  rewrite Hmode. cbn [mode_eqb]. unfold Pseudocolor.apply_cell, boundaries.
  set (sorted := stableSort Pseudocolor.by_value
                   (Pseudocolor.getBreakpoints s)).
  set (inner := List.filter (in_range (Fin lo) (Fin hi)) sorted).
  assert (Hperm : Permutation (Pseudocolor.getBreakpoints s) sorted)
    by apply stableSort_perm.
  assert (Hin : Forall (fun p => in_range (Fin lo) (Fin hi) p = true) inner)
    by apply inner_in_range.
  assert (Hasc : ascending ((Fin lo, Pseudocolor.getStartColor s) :: inner)).
  { constructor.
    - apply ascending_filter, locally_sorted_ascending.
      + apply stableSort_locally_sorted.
      + eapply Permutation_Forall; eassumption.
    - eapply List.Forall_impl; [|exact Hin].
      intros p Hp. destruct (in_range_finite lo hi p Hp) as (v & Hv & Hv1 & _).
      cbn [fst]. rewrite Hv. unfold Num.le. apply Qle_bool_iff. lra. }
  assert (Hfin : Forall (fun p => exists v, fst p = Fin v) inner).
  { eapply List.Forall_impl; [|exact Hin].
    intros p Hp. destruct (in_range_finite lo hi p Hp) as (v & Hv & _).
    now exists v. }
  destruct (categorized_walk c hi (Fin hi, Pseudocolor.getEndColor s) inner
              eq_refl Hhi _ Hasc Hfin) as (p & Hp & Hcol & Hbelow & Hall).
  assert (E1 : Num.lt (Fin c) (Fin lo) = false).
  { unfold Num.lt. now apply Qltb_false. }
  assert (E2 : Num.gt (Fin c) (Fin hi) = false).
  { unfold Num.gt, Num.lt. now apply Qltb_false. }
  rewrite E1, E2. cbn [orb].
  assert (Hinner : forall q, In q inner ->
                     In q (Pseudocolor.getBreakpoints s) /\
                     in_range (Fin lo) (Fin hi) q = true).
  { intros q Hq. apply filter_In in Hq. destruct Hq as [Hq Hr].
    split; [|exact Hr].
    eapply Permutation_in; [apply Permutation_sym; exact Hperm | exact Hq]. }
  exists p. split; [|split; [|split]].
  - destruct Hp as [<-|Hp]; [now left | right; now apply Hinner].
  - exact (f_equal
             (fun l => l ++ [if strict_equals (VNum (Fin c)) nodata
                             then maxAlpha else minAlpha]) Hcol).
  - destruct Hp as [<-|Hp]; [now left|].
    destruct Hbelow as [->|Hbelow]; [now left|].
    right. split; [now apply Hinner | exact Hbelow].
  - apply List.Forall_forall. intros q Hq Hr.
    rewrite List.Forall_forall in Hall. apply Hall.
    apply filter_In. split; [|exact Hr].
    eapply Permutation_in; eassumption.
Qed.

Lemma pseudocolor_categorized_witness :
  exists p,
    In p ((Fin 0, Pseudocolor.getStartColor plain_categorized) ::
          Pseudocolor.getBreakpoints
            (with_breakpoints plain_categorized [(Fin 5, red_c)])) /\
    Pseudocolor.apply (with_breakpoints plain_categorized [(Fin 5, red_c)])
                      [Fin 5] VNull (Fin 1) (Fin 0) =
    [red (snd p); green (snd p); blue (snd p); Fin 1] /\
    (p = (Fin 0, Pseudocolor.getStartColor plain_categorized) \/
     in_range (Fin 0) (Fin 10) p = true /\ Num.lt (fst p) (Fin 5) = true).
Proof.
  destruct (pseudocolor_categorized
              (with_breakpoints plain_categorized [(Fin 5, red_c)])
              0 10 5 VNull (Fin 1) (Fin 0) eq_refl eq_refl eq_refl)
    as (p & H1 & H2 & H3 & _).
  - repeat constructor. discriminate.
  - unfold Qle. simpl. lia.
  - unfold Qle. simpl. lia.
  - exists p. repeat split; assumption.
Defined.

(** ** Pseudocolor: clone, and the checksum after a failed call *)

Lemma clone_loop_throw (l : list Pseudocolor.PseudocolorMap) (e : js_error) :
  fold_left
    (fun (acc : result (list Pseudocolor.PseudocolorMap))
         (breakpoint : Pseudocolor.PseudocolorMap) =>
       (copied <-- acc;; Throw TypeError))
    l (Throw e) = Throw e.
Proof. induction l as [|p l IH]; [reflexivity | exact IH]. Qed.

(** X12. [Pseudocolor.clone] works only for a style without breakpoints:
    with one breakpoint or more it throws a TypeError; without breakpoints
    it gives the style itself with an empty checksum cache, band index 0
    standing in for an undefined band index. *)
Theorem pseudocolor_clone (s : Pseudocolor.t) :
  (Pseudocolor.getBreakpoints s <> [] ->
   Pseudocolor.clone s = Throw TypeError) /\
  (Pseudocolor.getBreakpoints s = [] ->
   Pseudocolor.clone s =
   Ok (match Pseudocolor.getBandIndex s with
       | Some _ => Pseudocolor.set_checksum s None
       | None => Pseudocolor.setBandIndex s (Some (Fin 0))
       end)).
Proof.
  unfold Pseudocolor.clone. split.
  - destruct (Pseudocolor.getBreakpoints s) as [|p l]; [congruence|].
    intros _. cbn [fold_left bind]. now rewrite clone_loop_throw.
  - intros H. rewrite H. destruct s as [mn mx band sc ec mode bps cs].
    cbn in H. subst bps. destruct band; reflexivity.
Qed.

Lemma pseudocolor_clone_witness :
  Pseudocolor.clone sample_pseudocolor = Throw TypeError.
Proof.
  apply (proj1 (pseudocolor_clone sample_pseudocolor)).
  vm_compute. discriminate.
Defined.

(** X13. A pseudocolor style without min (and with a band index) whose
    checksum is not cached: [getChecksum] throws a TypeError, but it has
    already stored the unfinished checksum, so the next [getChecksum] on
    the same style returns the string p instead of throwing again. *)
Theorem pseudocolor_checksum_after_failure (toString : number -> string)
    (asString : Color -> string) (s : Pseudocolor.t) (band : number) :
  Pseudocolor.checksum_ s = None ->
  Pseudocolor.getMin s = None ->
  Pseudocolor.getBandIndex s = Some band ->
  let first := Pseudocolor.getChecksum toString asString s in
  fst first = Throw TypeError /\
  Pseudocolor.getChecksum toString asString (snd first) =
  (Ok "p", snd first).
Proof.
  intros Hc Hmin Hband first.
  assert (E : first = (Throw TypeError,
                       Pseudocolor.set_checksum s (Some "p"))).
  { unfold first, Pseudocolor.getChecksum. rewrite Hc, Hband.
    unfold Pseudocolor.checksum_operand. rewrite Hmin. reflexivity. }
  rewrite E. split; reflexivity.
Qed.

Lemma pseudocolor_checksum_after_failure_witness :
  fst (Pseudocolor.getChecksum sample_toString sample_asString
         (Pseudocolor.new
            (Pseudocolor.mkOptions None None None None None None None)))
  = Throw TypeError.
Proof.
  exact (proj1 (pseudocolor_checksum_after_failure sample_toString
                  sample_asString
                  (Pseudocolor.new
                     (Pseudocolor.mkOptions None None None None None None
                                            None))
                  (Fin 0) eq_refl eq_refl eq_refl)).
Defined.

(** ** CoverageSource: the styled band *)

Lemma all_counted (cells : list number) :
  valid_cells cells VNull = cells.
Proof.
  unfold valid_cells. induction cells as [|c cells IH]; [reflexivity|].
  cbn [List.filter].
  change (strict_equals (VNum c) VNull) with false. cbn [negb].
  now rewrite IH.
Qed.

Lemma Monochrome_apply_length (s : Monochrome.t) (matrix : list number)
    (nodata : value) (minAlpha maxAlpha : number) :
  length (Monochrome.apply s matrix nodata minAlpha maxAlpha) =
  (4 * length matrix)%nat.
Proof.
  rewrite Monochrome_apply_flat. apply length_flat_map_const.
  intros c _. reflexivity.
Qed.

(** X14. [getStyledBand] with a monochrome style whose band index names a
    band of the source returns a new band that carries the extent, origin,
    stride and resolution of that band, is of type UINT8, not binary and
    without a null value, and whose data are the output of the style:
    four numbers for every cell of the source band, each of them counted
    in the statistics of the new band. *)
Theorem getStyledBand_monochrome (X : Externals) (src : CoverageSource.t)
    (s : Monochrome.t) (index : number) (band : Band.t)
    (minAlpha maxAlpha : number) :
  Monochrome.getBandIndex s = Some index ->
  array_get (CoverageSource.getBands src) index = Some band ->
  exists styled,
    CoverageSource.getStyledBand X src (StyleMonochrome s) minAlpha maxAlpha
    = Ok (Some styled) /\
    Band.getCoverageData styled =
    Monochrome.apply s (Band.getCoverageData band) (Band.getNullValue band)
                     minAlpha maxAlpha /\
    length (Band.getCoverageData styled) =
    (4 * length (Band.getCoverageData band))%nat /\
    Band.count (Band.getStatistics styled) =
    Num.of_nat (4 * length (Band.getCoverageData band)) /\
    Band.getExtent styled = Band.getExtent band /\
    Band.getOrigin styled = Band.getOrigin band /\
    Band.getStride styled = Band.getStride band /\
    Band.getResolution styled = Band.getResolution band /\
    Band.type_ styled = UINT8 /\
    Band.binary_ styled = false /\
    Band.getNullValue styled = VNull.
Proof.
  intros Hindex Hband. unfold CoverageSource.getStyledBand.
  rewrite Hindex, Hband. eexists. split; [reflexivity|].
  repeat split.
  - apply Monochrome_apply_length.
  - unfold Band.getStatistics, Band.new, Band.calculateStatistics.
    cbn [Band.statistics_ Band.getCoverageData Band.matrix_ Matrix.getData
         Matrix.matrix_ Band.getNullValue Band.null_ Band.o_matrix
         Band.o_nodata strict_equals negb].
    rewrite statistics_of_components. cbn [Band.count].
    now rewrite all_counted, Monochrome_apply_length.
Qed.

Lemma getStyledBand_monochrome_witness :
  exists styled,
    CoverageSource.getStyledBand sample_externals sample_source
      (StyleMonochrome zero_min_style) (Fin 1) (Fin 0) = Ok (Some styled) /\
    length (Band.getCoverageData styled) = 16%nat.
Proof.
  destruct (getStyledBand_monochrome sample_externals sample_source
              zero_min_style (Fin 0) sample_band (Fin 1) (Fin 0)
              eq_refl eq_refl) as (styled & H1 & _ & H2 & _).
  exists styled. split; [exact H1 | exact H2].
Defined.

(** ** PolygonReplay: the recorded indices are in order *)

Lemma nondecreasing_bound (l : list nat) (x a : nat) :
  nondecreasing (l ++ [x]) -> In a l -> (a <= x)%nat.
Proof.
  intros H Ha. apply list_elem_of_In, list_elem_of_lookup_1 in Ha.
  destruct Ha as [i Hi].
  apply (H i (length l) a x).
  - apply lookup_lt_Some in Hi. lia.
  - rewrite lookup_app_l; [exact Hi | now apply lookup_lt_Some in Hi].
  - rewrite lookup_app_r by lia. now rewrite Nat.sub_diag.
Qed.

Lemma nondecreasing_prefix (l : list nat) (x : nat) :
  nondecreasing (l ++ [x]) -> nondecreasing l.
Proof.
  intros H i j a b Hij Hi Hj.
  apply (H i j a b Hij).
  - rewrite lookup_app_l; [exact Hi | now apply lookup_lt_Some in Hi].
  - rewrite lookup_app_l; [exact Hj | now apply lookup_lt_Some in Hj].
Qed.

Lemma nondecreasing_snoc (l : list nat) (x : nat) :
  nondecreasing l -> (forall a, In a l -> (a <= x)%nat) ->
  nondecreasing (l ++ [x]).
Proof.
  intros H Hx i j a b Hij Hi Hj.
  destruct (Nat.lt_ge_cases j (length l)) as [Hj'|Hj'].
  - rewrite lookup_app_l in Hi by lia. rewrite lookup_app_l in Hj by lia.
    now apply (H i j).
  - rewrite lookup_app_r in Hj by lia.
    assert (Hb : b = x).
    { destruct (j - length l)%nat; [now injection Hj as <-|].
      discriminate Hj. }
    subst b.
    destruct (Nat.lt_ge_cases i (length l)) as [Hi'|Hi'].
    + rewrite lookup_app_l in Hi by lia. apply Hx.
      apply list_elem_of_In. eapply list_elem_of_lookup_2. exact Hi.
    + rewrite lookup_app_r in Hi by lia.
      destruct (i - length l)%nat; [injection Hi as <-; lia|].
      discriminate Hi.
Qed.

Lemma nondecreasing_raise (l : list nat) (x y : nat) :
  nondecreasing (l ++ [x]) -> (x <= y)%nat -> nondecreasing (l ++ [y]).
Proof.
  intros H Hxy. apply nondecreasing_snoc.
  - now apply nondecreasing_prefix with x.
  - intros a Ha. pose proof (nondecreasing_bound l x a H Ha). lia.
Qed.

Lemma ordered_new (origin : number * number) :
  ordered (WebGLPolygonReplay.new origin).
Proof.
  exists []. cbn. repeat split; try constructor.
  - intros i j a b _ Hi Hj.
    destruct i; [|discriminate Hi]. destruct j; [|discriminate Hj].
    injection Hi as <-. injection Hj as <-. lia.
  - intros i j a b _ Hi. discriminate Hi.
Qed.

Lemma ordered_record (r r1 : WebGLPolygonReplay.t) (ixs ixs1 : list number)
    (feature : WebGLPolygonReplay.Feature) :
  ordered r -> WebGLPolygonReplay.indices r = Some ixs ->
  grows r r1 -> WebGLPolygonReplay.indices r1 = Some ixs1 ->
  ordered (WebGLPolygonReplay.record_feature r1 (length ixs) feature).
Proof.
  intros (ixs0 & Hi & Hs & Hg & Hin & H0) Hix
         (A1 & A2 & A3 & A4 & A5 & A6 & A7 & A8) Hix1.
  rewrite Hi in Hix. injection Hix as ->.
  destruct (A8 ixs Hi) as (ixs' & Hi' & Hle).
  rewrite Hix1 in Hi'. injection Hi' as <-.
  exists ixs1. unfold WebGLPolygonReplay.record_feature. cbn.
  rewrite A2, A5. split; [exact Hix1|]. split; [|split; [|split]].
  - apply nondecreasing_snoc; [exact Hs|].
    intros a Ha. apply in_app_or in Ha. destruct Ha as [Ha|[<-|[]]]; [|lia].
    pose proof (nondecreasing_bound _ _ a Hs Ha). lia.
  - destruct (WebGLPolygonReplay.state_changed r1); [|exact Hg].
    apply nondecreasing_snoc; [exact Hg|].
    intros a Ha. rewrite List.Forall_forall in Hin.
    apply (nondecreasing_bound _ _ a Hs). now apply Hin.
  - assert (Hin' : Forall
                     (fun g => In g (WebGLPolygonReplay.startIndices r ++
                                     [length ixs]))
                     (WebGLPolygonReplay.styleIndices_ r)).
    { eapply List.Forall_impl; [|exact Hin].
      intros a Ha. apply in_or_app. now left. }
    destruct (WebGLPolygonReplay.state_changed r1); [|exact Hin'].
    apply Forall_app. split; [exact Hin'|].
    constructor; [|constructor]. apply in_or_app. right. now left.
  - rewrite lookup_app_l; [exact H0|]. rewrite length_app. simpl. lia.
Qed.

Lemma ordered_grows_recorded (r r' : WebGLPolygonReplay.t) :
  ordered r -> grows r r' -> WebGLPolygonReplay.startIndices r <> [] ->
  ordered r'.
Proof.
  intros (ixs & Hi & Hs & Hg & Hin & H0)
         (A1 & A2 & A3 & A4 & A5 & A6 & A7 & A8) Hne.
  destruct (A8 ixs Hi) as (ixs' & Hi' & Hle).
  exists ixs'. rewrite A2, A5. split; [exact Hi'|].
  split; [|split; [|split]]; try assumption.
  - now apply nondecreasing_raise with (length ixs).
  - destruct (WebGLPolygonReplay.startIndices r) as [|s0 rest];
      [congruence|exact H0].
Qed.

Lemma ordered_same_length (r r' : WebGLPolygonReplay.t)
    (ixs ixs' : list number) :
  ordered r -> grows r r' ->
  WebGLPolygonReplay.indices r = Some ixs ->
  WebGLPolygonReplay.indices r' = Some ixs' ->
  (length ixs' <= length ixs)%nat ->
  ordered r'.
Proof.
  intros (ixs0 & Hi & Hs & Hg & Hin & H0)
         (A1 & A2 & A3 & A4 & A5 & A6 & A7 & A8) Hix Hix' Hle.
  rewrite Hi in Hix. injection Hix as ->.
  destruct (A8 ixs Hi) as (ixs1 & Hi1 & Hle1).
  rewrite Hix' in Hi1. injection Hi1 as <-.
  assert (E : length ixs' = length ixs) by lia.
  exists ixs'. rewrite A2, A5, E. repeat split; assumption.
Qed.

Lemma drawPolygon_ordered (X : Externals) (r r' : WebGLPolygonReplay.t)
    (g : WebGLPolygonReplay.Polygon) (f : WebGLPolygonReplay.Feature) :
  WebGLPolygonReplay.drawPolygon X r g f = Ok r' -> ordered r -> ordered r'.
Proof.
  unfold WebGLPolygonReplay.drawPolygon. intros H Ho.
  destruct (WebGLPolygonReplay.ends g) as [|end0 rest];
    [injection H as <-; exact Ho|].
  destruct (translate X _ _ _ _ _ _) as [|c ring];
    [injection H as <-; exact Ho|].
  destruct (WebGLPolygonReplay.indices r) as [ixs|] eqn:Ei; [|discriminate].
  apply drawCoordinates_grows in H.
  eapply ordered_grows_recorded; [|exact H|].
  - apply (ordered_record r r ixs ixs); auto using grows_refl.
  - cbn. now destruct (WebGLPolygonReplay.startIndices r).
Qed.

Lemma drawMultiPolygon_ordered (X : Externals) (r r' : WebGLPolygonReplay.t)
    (g : WebGLPolygonReplay.MultiPolygon) (f : WebGLPolygonReplay.Feature) :
  WebGLPolygonReplay.drawMultiPolygon X r g f = Ok r' ->
  ordered r -> ordered r'.
Proof.
  unfold WebGLPolygonReplay.drawMultiPolygon. intros H Ho.
  destruct (WebGLPolygonReplay.indices r) as [ixs|] eqn:Ei; [|discriminate].
  destruct (fold_left _ _ _) as [[r1 start1]|e] eqn:Ef; [|discriminate].
  cbn [bind fst] in H. apply multi_fold_grows in Ef.
  destruct (WebGLPolygonReplay.indices r1) as [ixs1|] eqn:Ei1; [|discriminate].
  destruct (length ixs <? length ixs1)%nat eqn:El; injection H as <-.
  - now apply (ordered_record r r1 ixs ixs1).
  - apply Nat.ltb_ge in El. now apply (ordered_same_length r r1 ixs ixs1).
Qed.

Lemma draw_call_ordered (X : Externals) (r r' : WebGLPolygonReplay.t)
    (c : WebGLPolygonReplay.DrawCall) :
  WebGLPolygonReplay.draw_call X (Ok r) c = Ok r' -> ordered r -> ordered r'.
Proof.
  destruct c as [fill|g f|g f]; cbn [WebGLPolygonReplay.draw_call bind].
  - intros [= <-] Ho. unfold WebGLPolygonReplay.setFillStrokeStyle.
    destruct (match WebGLPolygonReplay.state_fillColor r with
              | Some current => _
              | None => true
              end); exact Ho.
  - apply drawPolygon_ordered.
  - apply drawMultiPolygon_ordered.
Qed.

Lemma draw_calls_ordered (X : Externals)
    (calls : list WebGLPolygonReplay.DrawCall)
    (r r' : WebGLPolygonReplay.t) :
  fold_left (WebGLPolygonReplay.draw_call X) calls (Ok r) = Ok r' ->
  ordered r -> ordered r'.
Proof.
  revert r. induction calls as [|c calls IH]; intros r.
  - now intros [= <-].
  - cbn [fold_left].
    destruct (WebGLPolygonReplay.draw_call X (Ok r) c) as [r1|e] eqn:E.
    + intros H Ho. apply (IH r1 H). now apply (draw_call_ordered X r r1 c).
    + rewrite draw_calls_throw. discriminate.
Qed.

(** What [accumulate] leaves behind, besides [accumulate_arrays]: start
    indices that begin at 0 and never decrease, style indices that never
    decrease, each of them the start index of a recorded feature. *)
Lemma accumulate_ordered (X : Externals) (origin : number * number)
    (calls : list WebGLPolygonReplay.DrawCall)
    (replay : WebGLPolygonReplay.t) :
  WebGLPolygonReplay.accumulate X origin calls = Ok replay ->
  nondecreasing (WebGLPolygonReplay.startIndices replay) /\
  nondecreasing (WebGLPolygonReplay.styleIndices_ replay) /\
  Forall (fun g => exists k,
            (k < length (WebGLPolygonReplay.startIndicesFeature replay))%nat /\
            WebGLPolygonReplay.startIndices replay !! k = Some g)
         (WebGLPolygonReplay.styleIndices_ replay) /\
  WebGLPolygonReplay.startIndices replay !! 0%nat = Some 0%nat.
Proof.
  intros Hacc. pose proof (accumulate_arrays X origin calls replay Hacc)
    as [Hlen _].
  revert Hacc Hlen. unfold WebGLPolygonReplay.accumulate.
  destruct (fold_left _ calls _) as [r|e] eqn:Ef; [|discriminate].
  cbn [bind]. unfold WebGLPolygonReplay.finish.
  destruct (WebGLPolygonReplay.indices r) as [ixs|] eqn:Ei; [|discriminate].
  intros [= <-]. cbn. intros Hlen.
  destruct (draw_calls_ordered X calls _ r Ef (ordered_new origin))
    as (ixs0 & Hi & Hs & Hg & Hin & H0).
  rewrite Ei in Hi. injection Hi as <-.
  repeat split; try assumption.
  eapply List.Forall_impl; [|exact Hin].
  intros g Hgin. apply list_elem_of_In, list_elem_of_lookup_1 in Hgin.
  destruct Hgin as [k Hk]. exists k.
  pose proof (lookup_lt_Some _ _ _ Hk) as Hklt.
  rewrite length_app in Hlen. simpl in Hlen.
  split; [lia|]. now rewrite lookup_app_l.
Qed.

(** ** PolygonReplay: what [drawReplay] draws *)

Lemma within_same (s p : nat) : within s s p = 0%nat.
Proof.
  unfold within.
  destruct (Nat.leb_spec s p), (Nat.ltb_spec p s); simpl; lia.
Qed.

Lemma within_split (a b c p : nat) :
  (a <= b)%nat -> (b <= c)%nat ->
  (within a b p + within b c p = within a c p)%nat.
Proof.
  intros H1 H2. unfold within.
  destruct (Nat.leb_spec a p), (Nat.ltb_spec p b), (Nat.leb_spec b p),
    (Nat.ltb_spec p c); simpl; lia.
Qed.

Lemma times_drawn_app (a b : list WebGLPolygonReplay.ReplayCall) (p : nat) :
  times_drawn (a ++ b) p = (times_drawn a p + times_drawn b p)%nat.
Proof. unfold times_drawn. now rewrite List.filter_app, length_app. Qed.

Lemma times_drawn_pending (s e : nat)
    (calls : list WebGLPolygonReplay.ReplayCall) (p : nat) :
  times_drawn (WebGLPolygonReplay.draw_pending (Some s) (Some e) calls) p =
  (times_drawn calls p + within s e p)%nat.
Proof.
  unfold WebGLPolygonReplay.draw_pending, WebGLPolygonReplay.differ.
  destruct (bool_decide (Some s = Some e)) eqn:E; cbn [negb].
  - apply bool_decide_eq_true in E. injection E as ->.
    rewrite within_same. lia.
  - rewrite times_drawn_app. f_equal.
    unfold times_drawn, within. cbn [List.filter draws_position].
    now destruct ((s <=? p)%nat && (p <? e)%nat).
Qed.

Lemma times_drawn_group (c : option Color) (s e p : nat) :
  times_drawn [WebGLPolygonReplay.SetFillStyle c;
               WebGLPolygonReplay.DrawRange (Some s) (Some e)] p =
  within s e p.
Proof.
  unfold times_drawn, within. cbn [List.filter draws_position].
  now destruct ((s <=? p)%nat && (p <? e)%nat).
Qed.

Lemma shown_between_nil (replay : WebGLPolygonReplay.t)
    (skipped : gmap nat bool) (p a : nat) :
  shown_between replay skipped p a a = 0%nat.
Proof. unfold shown_between. now rewrite Nat.sub_diag. Qed.

Lemma shown_between_split (replay : WebGLPolygonReplay.t)
    (skipped : gmap nat bool) (p a b c : nat) :
  (a <= b)%nat -> (b <= c)%nat ->
  shown_between replay skipped p a c =
  (shown_between replay skipped p a b +
   shown_between replay skipped p b c)%nat.
Proof.
  intros H1 H2. unfold shown_between.
  replace (c - a)%nat with ((b - a) + (c - b))%nat by lia.
  rewrite seq_app, List.filter_app, length_app.
  now replace (a + (b - a))%nat with b by lia.
Qed.

Lemma shown_between_step (replay : WebGLPolygonReplay.t)
    (skipped : gmap nat bool) (p a f : nat) :
  (a <= f)%nat ->
  shown_between replay skipped p a (S f) =
  (shown_between replay skipped p a f +
   if shows replay skipped p f then 1 else 0)%nat.
Proof.
  intros H. rewrite (shown_between_split _ _ p a f (S f)) by lia.
  f_equal. unfold shown_between.
  replace (S f - f)%nat with 1%nat by lia. cbn.
  now destruct (shows replay skipped p f).
Qed.

Lemma count_at_most_one {A} (f : A -> bool) (l : list A) :
  List.NoDup l ->
  (forall a b, In a l -> In b l -> f a = true -> f b = true -> a = b) ->
  length (List.filter f l) = if existsb f l then 1%nat else 0%nat.
Proof.
  induction l as [|a l IH]; intros Hnd Hone; [reflexivity|].
  apply List.NoDup_cons_iff in Hnd. destruct Hnd as [Hna Hnd].
  simpl. destruct (f a) eqn:Ea; simpl.
  - assert (Hnone : List.filter f l = []).
    { destruct (List.filter f l) as [|b rest] eqn:Ef; [reflexivity|].
      assert (Hb : In b (List.filter f l)) by (rewrite Ef; now left).
      apply filter_In in Hb. destruct Hb as [Hb Hfb].
      assert (a = b) by (apply Hone; simpl; auto).
      subst b. contradiction. }
    now rewrite Hnone.
  - apply IH; [exact Hnd|].
    intros x y Hx Hy. apply Hone; now right.
Qed.

Section ReplayProofs.
Variable replay : WebGLPolygonReplay.t.
Variable skipped : gmap nat bool.

Let starts := WebGLPolygonReplay.startIndices replay.
Let features := WebGLPolygonReplay.startIndicesFeature replay.
Let groups := WebGLPolygonReplay.styleIndices_ replay.

Hypothesis Hlen : length starts = S (length features).
Hypothesis Hstarts : nondecreasing starts.
Hypothesis Hgroups : nondecreasing groups.
Hypothesis Hfirst : starts !! 0%nat = Some 0%nat.
Hypothesis Hin :
  Forall (fun g => exists k, (k < length features)%nat /\
                             starts !! k = Some g) groups.

Lemma in_feature_unique (p k1 k2 : nat) :
  in_feature replay p k1 = true -> in_feature replay p k2 = true -> k1 = k2.
Proof.
  assert (Hlt : forall a b, (a < b)%nat ->
                  in_feature replay p a = true ->
                  in_feature replay p b = true -> False).
  { intros a b Hab Ha Hb. unfold in_feature in Ha, Hb.
    fold starts in Ha, Hb.
    destruct (starts !! a) as [sa|]; [|discriminate].
    destruct (starts !! S a) as [ea|] eqn:Eea; [|discriminate].
    destruct (starts !! b) as [sb|] eqn:Esb; [|discriminate].
    destruct (starts !! S b) as [eb|]; [|discriminate].
    apply andb_prop in Ha, Hb. destruct Ha as [_ Ha], Hb as [Hb _].
    apply Nat.ltb_lt in Ha. apply Nat.leb_le in Hb.
    assert (ea <= sb)%nat by (apply (Hstarts (S a) b); auto; lia).
    lia. }
  intros H1 H2. destruct (Nat.lt_trichotomy k1 k2) as [H|[H|H]];
    [exfalso; eauto | exact H | exfalso; eauto].
Qed.

Lemma shown_total (p : nat) :
  shown_between replay skipped p 0 (length features) =
  if to_draw replay skipped p then 1%nat else 0%nat.
Proof.
  unfold shown_between, to_draw. rewrite Nat.sub_0_r.
  apply count_at_most_one; [apply List.seq_NoDup|].
  intros a b _ _ Ha Hb. unfold shows in Ha, Hb.
  apply andb_prop in Ha, Hb.
  apply (in_feature_unique p); tauto.
Qed.

Lemma skip_feature_loop_spec (g : nat) :
  forall next sv e calls,
    (next <= length features)%nat -> starts !! next = Some sv ->
    (sv <= e)%nat ->
    exists st sv' e',
      WebGLPolygonReplay.skip_feature_loop replay skipped next g
        (Some sv) (Some e) calls = Ok st /\
      (WebGLPolygonReplay.ss_next st <= next)%nat /\
      starts !! WebGLPolygonReplay.ss_next st = Some sv' /\
      WebGLPolygonReplay.ss_start st = Some sv' /\
      WebGLPolygonReplay.ss_end st = Some e' /\
      (sv' <= e')%nat /\
      (WebGLPolygonReplay.ss_next st = 0%nat \/
       exists s, starts !! (WebGLPolygonReplay.ss_next st - 1)%nat = Some s /\
                 (s < g)%nat) /\
      ((g <= sv)%nat -> (g <= sv')%nat) /\
      forall p,
        (times_drawn (WebGLPolygonReplay.ss_calls st) p + within sv' e' p =
         times_drawn calls p + within sv e p +
         shown_between replay skipped p (WebGLPolygonReplay.ss_next st) next)
        %nat.
Proof.
  induction next as [|f IH]; intros sv e calls Hn Hsv Hle.
  - exists (WebGLPolygonReplay.mkSkipState 0 (Some sv) (Some e) calls), sv, e.
    cbn [WebGLPolygonReplay.ss_next WebGLPolygonReplay.ss_start WebGLPolygonReplay.ss_end
         WebGLPolygonReplay.ss_calls].
    repeat split; auto.
  - cbn [WebGLPolygonReplay.skip_feature_loop]. fold starts features.
    destruct (lookup_lt_is_Some_2 starts f) as [fs Hfs]; [lia|].
    rewrite Hfs.
    assert (Hfsv : (fs <= sv)%nat)
      by (apply (Hstarts f (S f)); auto).
    destruct (Nat.leb_spec g fs) as [Hg|Hg].
    + destruct (lookup_lt_is_Some_2 features f) as [feat Hfeat]; [lia|].
      rewrite Hfeat.
      assert (Hin_f : forall p, in_feature replay p f =
                                ((fs <=? p)%nat && (p <? sv)%nat)).
      { intros p. unfold in_feature. fold starts. now rewrite Hfs, Hsv. }
      assert (Hsk_f : feature_skipped replay skipped f =
                      WebGLPolygonReplay.is_skipped skipped feat).
      { unfold feature_skipped. fold features. now rewrite Hfeat. }
      destruct (WebGLPolygonReplay.is_skipped skipped feat) eqn:Esk.
      * destruct (IH fs fs
                    (WebGLPolygonReplay.draw_pending (Some sv) (Some e) calls))
          as (st & sv' & e' & H1 & H2 & H3 & H4 & H5 & H6 & H7 & H8 & H9);
          [lia | exact Hfs | lia |].
        exists st, sv', e'. rewrite H1.
        repeat split; auto; try lia.
        intros p. rewrite H9, times_drawn_pending, within_same.
        rewrite (shown_between_step _ _ p _ f) by exact H2.
        unfold shows. rewrite Hsk_f. cbn [negb].
        rewrite andb_false_r. lia.
      * destruct (IH fs e calls)
          as (st & sv' & e' & H1 & H2 & H3 & H4 & H5 & H6 & H7 & H8 & H9);
          [lia | exact Hfs | lia |].
        exists st, sv', e'. rewrite H1.
        repeat split; auto; try lia.
        intros p. rewrite H9.
        rewrite (shown_between_step _ _ p _ f) by exact H2.
        unfold shows. rewrite Hsk_f, Hin_f. cbn [negb].
        rewrite andb_true_r.
        rewrite <- (within_split fs sv e p) by lia.
        unfold within at 1. lia.
    + exists (WebGLPolygonReplay.mkSkipState (S f) (Some sv) (Some e) calls),
        sv, e.
      cbn [WebGLPolygonReplay.ss_next WebGLPolygonReplay.ss_start WebGLPolygonReplay.ss_end
         WebGLPolygonReplay.ss_calls].
      repeat split; auto.
      * right. exists fs. cbn [Nat.sub]. rewrite Nat.sub_0_r.
        split; [exact Hfs | lia].
      * intros p. rewrite shown_between_nil. lia.
Qed.

Lemma skip_style_loop_spec :
  forall i st sv,
    (i <= length groups)%nat ->
    (WebGLPolygonReplay.ss_next st <= length features)%nat ->
    starts !! WebGLPolygonReplay.ss_next st = Some sv ->
    WebGLPolygonReplay.ss_start st = Some sv ->
    WebGLPolygonReplay.ss_end st = Some sv ->
    (forall j g, (j < i)%nat -> groups !! j = Some g -> (g <= sv)%nat) ->
    exists st',
      WebGLPolygonReplay.skip_style_loop replay skipped i st = Ok st' /\
      (WebGLPolygonReplay.ss_next st' <= WebGLPolygonReplay.ss_next st)%nat /\
      (i = 0%nat \/
       forall g0, groups !! 0%nat = Some g0 ->
                  Forall (fun s => (g0 <= s)%nat) starts ->
                  WebGLPolygonReplay.ss_next st' = 0%nat) /\
      forall p,
        times_drawn (WebGLPolygonReplay.ss_calls st') p =
        (times_drawn (WebGLPolygonReplay.ss_calls st) p +
         shown_between replay skipped p (WebGLPolygonReplay.ss_next st')
                       (WebGLPolygonReplay.ss_next st))%nat.
Proof.
  induction i as [|i IH]; intros st sv Hi Hn Hsv Hstart Hend Hbound.
  - exists st. cbn [WebGLPolygonReplay.skip_style_loop].
    repeat split; auto.
    intros p. rewrite shown_between_nil. lia.
  - cbn [WebGLPolygonReplay.skip_style_loop]. fold groups.
    destruct (lookup_lt_is_Some_2 groups i) as [g Hg]; [lia|].
    rewrite Hg, Hstart, Hend.
    assert (Hgsv : (g <= sv)%nat) by (apply (Hbound i); auto).
    destruct (skip_feature_loop_spec g (WebGLPolygonReplay.ss_next st) sv sv
                (WebGLPolygonReplay.ss_calls st ++
                 [WebGLPolygonReplay.SetFillStyle
                    (WebGLPolygonReplay.styles_ replay !! i)]))
      as (st1 & sv' & e' & H1 & H2 & H3 & H4 & H5 & H6 & H7 & H8 & H9);
      [exact Hn | exact Hsv | lia |].
    rewrite H1. cbn [bind]. rewrite H4, H5.
    (* the lowest feature drawn so far starts where the group starts *)
    assert (Hsvg : sv' = g).
    { apply Nat.le_antisymm; [|now apply H8].
      rewrite List.Forall_forall in Hin.
      assert (Hgin : In g groups).
      { apply list_elem_of_In. eapply list_elem_of_lookup_2. exact Hg. }
      destruct (Hin g Hgin) as (k & Hk & Hkg).
      apply (Hstarts (WebGLPolygonReplay.ss_next st1) k); auto.
      destruct H7 as [->|(s & Hs & Hsg)]; [lia|].
      destruct (Nat.le_gt_cases (WebGLPolygonReplay.ss_next st1) k)
        as [Hc|Hc]; [exact Hc|].
      assert (g <= s)%nat
        by (apply (Hstarts k (WebGLPolygonReplay.ss_next st1 - 1)%nat);
            auto; lia).
      lia. }
    subst sv'.
    destruct (IH (WebGLPolygonReplay.mkSkipState
                    (WebGLPolygonReplay.ss_next st1) (Some g) (Some g)
                    (WebGLPolygonReplay.draw_pending (Some g) (Some e')
                       (WebGLPolygonReplay.ss_calls st1))) g)
      as (st' & I1 & I2 & I3 & I4); cbn; auto; try lia.
    { intros j gj Hj Hgj. apply (Hgroups j i); auto. lia. }
    cbn [WebGLPolygonReplay.ss_next WebGLPolygonReplay.ss_calls] in I2, I4.
    exists st'. split; [exact I1|]. split; [lia|]. split.
    + right. intros g0 Hg0 Hall.
      destruct I3 as [->|I3]; [|now apply (I3 g0)].
      rewrite Hg in Hg0. injection Hg0 as <-.
      destruct H7 as [H7|(s & Hs & Hsg)]; [lia|].
      rewrite List.Forall_forall in Hall.
      assert (g <= s)%nat.
      { apply Hall, list_elem_of_In. eapply list_elem_of_lookup_2.
        exact Hs. }
      lia.
    + intros p. rewrite I4, times_drawn_pending.
      pose proof (H9 p) as Hp.
      rewrite times_drawn_app, within_same in Hp.
      change (times_drawn [WebGLPolygonReplay.SetFillStyle
                             (WebGLPolygonReplay.styles_ replay !! i)] p)
        with 0%nat in Hp.
      rewrite (shown_between_split _ _ p
                 (WebGLPolygonReplay.ss_next st')
                 (WebGLPolygonReplay.ss_next st1)
                 (WebGLPolygonReplay.ss_next st)) by lia.
      lia.
Qed.

Lemma group_loop_spec :
  forall i e calls,
    (i <= length groups)%nat ->
    (forall j g, (j < i)%nat -> groups !! j = Some g -> (g <= e)%nat) ->
    length (WebGLPolygonReplay.group_loop replay i (Some e) calls) =
    (length calls + 2 * i)%nat /\
    forall p,
      times_drawn (WebGLPolygonReplay.group_loop replay i (Some e) calls) p =
      (times_drawn calls p +
       match i, groups !! 0%nat with
       | S _, Some g0 => within g0 e p
       | _, _ => 0
       end)%nat.
Proof.
  induction i as [|i IH]; intros e calls Hi Hbound.
  - cbn [WebGLPolygonReplay.group_loop]. split; [lia | intros p; lia].
  - cbn [WebGLPolygonReplay.group_loop]. fold groups.
    destruct (lookup_lt_is_Some_2 groups i) as [g Hg]; [lia|].
    rewrite Hg.
    assert (Hge : (g <= e)%nat) by (apply (Hbound i); auto).
    destruct (IH g (calls ++
                    [WebGLPolygonReplay.SetFillStyle
                       (WebGLPolygonReplay.styles_ replay !! i);
                     WebGLPolygonReplay.DrawRange (Some g) (Some e)]))
      as [IH1 IH2]; [lia | |].
    { intros j gj Hj Hgj. apply (Hgroups j i); auto. lia. }
    split.
    + rewrite IH1, length_app. simpl. lia.
    + intros p. rewrite IH2, times_drawn_app.
      rewrite times_drawn_group.
      destruct i as [|i'].
      * rewrite Hg. lia.
      * destruct (lookup_lt_is_Some_2 groups 0%nat) as [g0 Eg0]; [lia|].
        rewrite Eg0.
        assert (g0 <= g)%nat by (apply (Hgroups 0%nat (S i')); auto; lia).
        rewrite <- (within_split g0 g e p) by lia. lia.
Qed.

Lemma holder_exists (p : nat) :
  forall m sm,
    (m <= length features)%nat -> starts !! m = Some sm -> (p < sm)%nat ->
    exists k, (k < m)%nat /\ in_feature replay p k = true.
Proof.
  induction m as [|m IH]; intros sm Hm Hsm Hp.
  - rewrite Hfirst in Hsm. injection Hsm as <-. lia.
  - destruct (lookup_lt_is_Some_2 starts m) as [s Hs]; [lia|].
    destruct (Nat.le_gt_cases s p) as [Hc|Hc].
    + exists m. split; [lia|]. unfold in_feature. fold starts.
      rewrite Hs, Hsm. apply andb_true_intro.
      split; [now apply Nat.leb_le | now apply Nat.ltb_lt].
    + destruct (IH s) as (k & Hk & Hkp); [lia | exact Hs | exact Hc |].
      exists k. split; [lia | exact Hkp].
Qed.

Hypothesis Hstyled :
  features <> [] ->
  exists g0, groups !! 0%nat = Some g0 /\
             Forall (fun s => (g0 <= s)%nat) starts.

Lemma group_bound (total : nat) :
  starts !! length features = Some total ->
  forall j g, groups !! j = Some g -> (g <= total)%nat.
Proof.
  intros Ht j g Hg. rewrite List.Forall_forall in Hin.
  destruct (Hin g) as (k & Hk & Hkg).
  { apply list_elem_of_In. eapply list_elem_of_lookup_2. exact Hg. }
  apply (Hstarts k (length features)); auto. lia.
Qed.

Lemma to_draw_total (total p : nat) :
  skipped = ∅ ->
  starts !! length features = Some total ->
  to_draw replay skipped p = (p <? total)%nat.
Proof.
  intros Hempty Ht. unfold to_draw. fold features.
  destruct (Nat.ltb_spec p total) as [Hp|Hp].
  - apply existsb_exists.
    destruct (holder_exists p (length features) total) as (k & Hk & Hkp);
      [lia | exact Ht | exact Hp |].
    exists k. split; [apply in_seq; lia|].
    unfold shows, feature_skipped, WebGLPolygonReplay.is_skipped.
    rewrite Hkp, Hempty.
    destruct (WebGLPolygonReplay.startIndicesFeature replay !! k);
      [now rewrite lookup_empty | reflexivity].
  - destruct (existsb _ _) eqn:E; [|reflexivity].
    apply existsb_exists in E. destruct E as (k & Hk & Hkp).
    apply in_seq in Hk. unfold shows in Hkp. apply andb_prop in Hkp.
    destruct Hkp as [Hkp _]. unfold in_feature in Hkp. fold starts in Hkp.
    destruct (starts !! k) as [s|]; [|discriminate].
    destruct (starts !! S k) as [e|] eqn:Ee; [|discriminate].
    apply andb_prop in Hkp. destruct Hkp as [_ Hkp].
    apply Nat.ltb_lt in Hkp.
    assert (e <= total)%nat
      by (apply (Hstarts (S k) (length features)); auto; lia).
    lia.
Qed.

Lemma groups_without_features : features = [] -> groups = [].
Proof.
  intros Hf. destruct groups as [|g rest] eqn:E; [reflexivity|].
  inversion Hin as [|? ? (k & Hk & _) _]. rewrite Hf in Hk. simpl in Hk. lia.
Qed.

Lemma first_group_zero (g0 : nat) :
  features <> [] -> groups !! 0%nat = Some g0 -> g0 = 0%nat.
Proof.
  intros Hf Hg0. destruct (Hstyled Hf) as (g & Hg & Hall).
  rewrite Hg0 in Hg. injection Hg as <-.
  rewrite List.Forall_forall in Hall.
  assert (g0 <= 0)%nat.
  { apply Hall, list_elem_of_In. eapply list_elem_of_lookup_2. exact Hfirst. }
  lia.
Qed.

Lemma drawReplay_all_spec :
  skipped = ∅ ->
  exists out total,
    WebGLPolygonReplay.drawReplay replay skipped = Ok out /\
    starts !! length features = Some total /\
    length out = (2 * length groups)%nat /\
    forall p, times_drawn out p = if (p <? total)%nat then 1%nat else 0%nat.
Proof.
  intros Hempty.
  destruct (lookup_lt_is_Some_2 starts (length features)) as [total Ht];
    [lia|].
  destruct (group_loop_spec (length groups) total [])
    as [L1 L2]; [lia | |].
  { intros j g _ Hg. now apply (group_bound total Ht j). }
  eexists. exists total.
  unfold WebGLPolygonReplay.drawReplay.
  rewrite Hempty, bool_decide_eq_true_2 by reflexivity. cbn [negb].
  fold starts groups. rewrite Hlen.
  replace (S (length features) - 1)%nat with (length features) by lia.
  rewrite Ht. split; [reflexivity|]. split; [reflexivity|].
  split; [rewrite L1; simpl; lia|].
  intros p. rewrite L2. cbn [times_drawn List.filter length Nat.add].
  destruct (length groups) as [|i] eqn:El.
  - destruct features as [|f fs] eqn:Ef.
    + cbn [length] in Ht. rewrite Hfirst in Ht. injection Ht as <-.
      reflexivity.
    + exfalso. destruct Hstyled as (g0 & Hg0 & _); [discriminate|].
      apply lookup_lt_Some in Hg0. lia.
  - destruct (lookup_lt_is_Some_2 groups 0%nat) as [g0 Hg0]; [lia|].
    rewrite Hg0.
    assert (Hf : features <> []).
    { intros Hf. apply groups_without_features in Hf.
      rewrite Hf in El. discriminate El. }
    rewrite (first_group_zero g0 Hf Hg0). unfold within.
    now destruct (p <? total)%nat.
Qed.

Lemma drawReplaySkipping_spec :
  exists out,
    WebGLPolygonReplay.drawReplaySkipping_ replay skipped = Ok out /\
    forall p, times_drawn out p =
              if to_draw replay skipped p then 1%nat else 0%nat.
Proof.
  destruct (lookup_lt_is_Some_2 starts (length features)) as [total Ht];
    [lia|].
  destruct (skip_style_loop_spec (length groups)
              (WebGLPolygonReplay.mkSkipState (length features) (Some total)
                                              (Some total) []) total)
    as (st & S1 & S2 & S3 & S4); cbn; auto.
  { intros j g _ Hg. now apply (group_bound total Ht j). }
  cbn in S2, S4.
  exists (WebGLPolygonReplay.ss_calls st).
  unfold WebGLPolygonReplay.drawReplaySkipping_. fold starts groups.
  rewrite Hlen.
  replace (S (length features) - 1)%nat with (length features) by lia.
  rewrite Ht, S1. split; [reflexivity|].
  intros p. rewrite S4, <- shown_total.
  assert (Hz : WebGLPolygonReplay.ss_next st = 0%nat).
  { destruct features as [|f fs] eqn:Ef; [simpl in S2; lia|].
    destruct Hstyled as (g0 & Hg0 & Hall); [discriminate|].
    destruct S3 as [S3|S3]; [|now apply (S3 g0)].
    apply lookup_lt_Some in Hg0. lia. }
  now rewrite Hz.
Qed.

End ReplayProofs.



(** X16. With or without skipped features, [drawReplay] on a replay filled
    by drawing calls (a fill style set before the first polygon) and
    [finish] does not throw, draws every position of the index buffer that
    belongs to a feature that is not skipped exactly once, and draws no
    position of a skipped feature. *)
Theorem drawReplay_skips (X : Externals) (origin : number * number)
    (calls : list WebGLPolygonReplay.DrawCall)
    (replay : WebGLPolygonReplay.t) (skippedFeaturesHash : gmap nat bool) :
  WebGLPolygonReplay.accumulate X origin calls = Ok replay ->
  style_first calls = true ->
  exists out,
    WebGLPolygonReplay.drawReplay replay skippedFeaturesHash = Ok out /\
    forall p, times_drawn out p =
              if to_draw replay skippedFeaturesHash p then 1%nat else 0%nat.
Proof.
  intros Hacc Hfirst.
  destruct (accumulate_arrays X origin calls replay Hacc) as [Hlen Hst].
  destruct (accumulate_ordered X origin calls replay Hacc)
    as (Hs & Hg & Hin & H0).
  destruct (bool_decide (skippedFeaturesHash = ∅)) eqn:E.
  - apply bool_decide_eq_true in E.
    destruct (drawReplay_all_spec replay skippedFeaturesHash Hlen Hs Hg H0
                Hin (Hst Hfirst) E) as (out & total & H1 & H2 & _ & H4).
    exists out. split; [exact H1|]. intros p.
    now rewrite (to_draw_total replay skippedFeaturesHash Hlen Hs H0 total p
                   E H2).
  - unfold WebGLPolygonReplay.drawReplay. rewrite E. cbn [negb].
    apply (drawReplaySkipping_spec replay skippedFeaturesHash Hlen Hs Hg Hin
             (Hst Hfirst)).
Qed.

Lemma drawReplay_skips_witness :
  exists out,
    WebGLPolygonReplay.drawReplay sample_replay
      ({[ 2%nat := true ]} : gmap nat bool) = Ok out /\
    forall p, times_drawn out p =
              if to_draw sample_replay ({[ 2%nat := true ]} : gmap nat bool) p
              then 1%nat else 0%nat.
Proof.
  assert (Hacc : WebGLPolygonReplay.accumulate sample_externals
                   (Fin 0, Fin 0) sample_calls = Ok sample_replay)
    by (vm_compute; reflexivity).
  exact (drawReplay_skips sample_externals (Fin 0, Fin 0) sample_calls
           sample_replay ({[ 2%nat := true ]} : gmap nat bool) Hacc eq_refl).
Defined.

(** ** Renderers: a frame that was redrawn is reused *)

Lemma Monochrome_getChecksum_again (toString : number -> string)
    (s s' : Monochrome.t) (c : string) :
  Monochrome.getChecksum toString s = (c, s') ->
  Monochrome.getChecksum toString s' = (c, s').
Proof.
  unfold Monochrome.getChecksum.
  destruct (Monochrome.checksum_ s) as [c0|] eqn:E.
  - intros [= <- <-]. now rewrite E.
  - intros [= <- <-]. reflexivity.
Qed.

Lemma Pseudocolor_getChecksum_again (toString : number -> string)
    (asString : Color -> string) (s s' : Pseudocolor.t) (c : string) :
  Pseudocolor.getChecksum toString asString s = (Ok c, s') ->
  Pseudocolor.getChecksum toString asString s' = (Ok c, s').
Proof.
  unfold Pseudocolor.getChecksum.
  destruct (Pseudocolor.checksum_ s) as [c0|] eqn:E.
  - intros [= <- <-]. now rewrite E.
  - destruct (Pseudocolor.getBandIndex s) as [band|].
    + destruct (Pseudocolor.checksum_operand toString asString s band)
        as [piece|e]; [|discriminate].
      intros [= <- <-]. reflexivity.
    + intros [= <- <-]. reflexivity.
Qed.

Lemma RGB_getChecksum_again (toString : number -> string)
    (s s' : RGB.t) (c : string) :
  RGB.getChecksum toString s = (c, s') ->
  RGB.getChecksum toString s' = (c, s').
Proof.
  unfold RGB.getChecksum.
  destruct (Monochrome.getChecksum toString (RGB.getRed s))
    as [r red] eqn:Er.
  destruct (Monochrome.getChecksum toString (RGB.getGreen s))
    as [g green] eqn:Eg.
  destruct (Monochrome.getChecksum toString (RGB.getBlue s))
    as [b blue] eqn:Eb.
  intros [= <- <-]. cbn [RGB.getRed RGB.getGreen RGB.getBlue RGB.red_
                         RGB.green_ RGB.blue_].
  rewrite (Monochrome_getChecksum_again _ _ _ _ Er).
  rewrite (Monochrome_getChecksum_again _ _ _ _ Eg).
  rewrite (Monochrome_getChecksum_again _ _ _ _ Eb).
  reflexivity.
Qed.

Lemma Style_getChecksum_again (toString : number -> string)
    (asString : Color -> string) (style style' : CoverageStyle)
    (c : string) :
  Style.getChecksum toString asString style = (Ok c, style') ->
  Style.getChecksum toString asString style' = (Ok c, style').
Proof.
  destruct style as [m|p|rgb]; cbn [Style.getChecksum].
  - destruct (Monochrome.getChecksum toString m) as [c0 m'] eqn:E.
    intros [= <- <-]. cbn [Style.getChecksum].
    now rewrite (Monochrome_getChecksum_again _ _ _ _ E).
  - destruct (Pseudocolor.getChecksum toString asString p) as [c0 p'] eqn:E.
    intros [= -> <-]. cbn [Style.getChecksum].
    now rewrite (Pseudocolor_getChecksum_again _ _ _ _ _ E).
  - destruct (RGB.getChecksum toString rgb) as [c0 rgb'] eqn:E.
    intros [= <- <-]. cbn [Style.getChecksum].
    now rewrite (RGB_getChecksum_again _ _ _ _ E).
Qed.

Lemma opt_string_eqb_refl (c : string) : opt_string_eqb (Some c) c = true.
Proof. unfold opt_string_eqb. now destruct (string_dec c c). Qed.

Lemma opt_string_eqb_true (a : option string) (c : string) :
  opt_string_eqb a c = true -> a = Some c.
Proof.
  unfold opt_string_eqb. destruct a as [x|]; [|discriminate].
  destruct (string_dec x c) as [->|]; [reflexivity|discriminate].
Qed.

Lemma webgl_draw_true (X : Externals) (r : WebGLCoverageLayerRenderer.t)
    (style : CoverageStyle) (layer : CoverageLayer.t)
    (frameState : FrameState) (events : list Event) :
  let o := WebGLCoverageLayerRenderer.draw X r style layer frameState events in
  out_result o = Ok true ->
  out_style o = Some style /\
  WebGLCoverageLayerRenderer.renderedChecksum_ (out_renderer o) =
  WebGLCoverageLayerRenderer.renderedChecksum_ r /\
  WebGLCoverageLayerRenderer.renderedResolution (out_renderer o) =
  Some (vs_resolution (fs_viewState frameState)) /\
  WebGLCoverageLayerRenderer.renderedRevision (out_renderer o) =
  Some (CoverageLayer.getRevision layer) /\
  WebGLCoverageLayerRenderer.renderedExtent (out_renderer o) =
  Some (fs_extent frameState).
Proof.
  unfold WebGLCoverageLayerRenderer.draw.
  destruct (WebGLCoverageLayerRenderer.replayGroup r) as [old|];
    cbn [WebGLCoverageLayerRenderer.set_replayGroup
         WebGLCoverageLayerRenderer.coverageCache_
         WebGLCoverageLayerRenderer.buffer_
         WebGLCoverageLayerRenderer.numVertices_
         WebGLCoverageLayerRenderer.indices_];
    destruct (WebGLCoverageLayerRenderer.coverageCache_ r) as [cache|];
    cbn zeta; try discriminate;
    destruct (deflateCoordinates _ _) as [|x flat]; cbn; try discriminate;
    intros _; repeat split.
Qed.

Lemma webgl_redraw_true (X : Externals) (r : WebGLCoverageLayerRenderer.t)
    (style : CoverageStyle) (layer : CoverageLayer.t)
    (frameState : FrameState) :
  let o := WebGLCoverageLayerRenderer.redraw X r style layer frameState in
  out_result o = Ok true ->
  exists c style',
    out_style o = Some style' /\
    Style.getChecksum (toString X) (asString X) style' = (Ok c, style') /\
    WebGLCoverageLayerRenderer.renderedChecksum_ (out_renderer o) = Some c /\
    WebGLCoverageLayerRenderer.renderedResolution (out_renderer o) =
    Some (vs_resolution (fs_viewState frameState)) /\
    WebGLCoverageLayerRenderer.renderedRevision (out_renderer o) =
    Some (CoverageLayer.getRevision layer) /\
    WebGLCoverageLayerRenderer.renderedExtent (out_renderer o) =
    Some (fs_extent frameState).
Proof.
  unfold WebGLCoverageLayerRenderer.redraw.
  destruct (Style.getChecksum (toString X) (asString X) style)
    as [[c|e] s2] eqn:E1; [|discriminate].
  destruct (negb (opt_string_eqb
                    (WebGLCoverageLayerRenderer.renderedChecksum_ r) c) ||
            negb (opt_nat_eqb
                    (WebGLCoverageLayerRenderer.renderedSourceRevision_ r)
                    (CoverageSource.getRevision
                       (CoverageLayer.getSource layer)))) eqn:Econd.
  - destruct (CoverageSource.getStyledBand X _ s2 _ _) as [[band|]|e];
      try discriminate.
    destruct (WebGLCoverageLayerRenderer.getCellCoordinates_ X _ _ _)
      as [cell|e]; [|discriminate].
    destruct (Style.getChecksum (toString X) (asString X) s2)
      as [[c2|e] s3] eqn:E2; [|discriminate].
    intros H. apply webgl_draw_true in H.
    destruct H as (H1 & H2 & H3 & H4 & H5).
    exists c2, s3. repeat split; try assumption.
    now apply Style_getChecksum_again with s2.
  - intros H. apply webgl_draw_true in H.
    destruct H as (H1 & H2 & H3 & H4 & H5).
    exists c, s2. repeat split; try assumption.
    + now apply Style_getChecksum_again with style.
    + rewrite H2. apply opt_string_eqb_true.
      apply orb_false_elim in Econd. destruct Econd as [Ec _].
      now apply negb_false_iff in Ec.
Qed.

Lemma webgl_prepare_redrawn (X : Externals)
    (r : WebGLCoverageLayerRenderer.t) (layer : CoverageLayer.t)
    (frameState : FrameState) :
  fs_animating frameState = 0%nat -> fs_interacting frameState = 0%nat ->
  WebGLCoverageLayerRenderer.reusable r
    (vs_resolution (fs_viewState frameState))
    (CoverageLayer.getRevision layer) (fs_extent frameState) = Ok false ->
  let o := WebGLCoverageLayerRenderer.prepareFrame X r layer frameState in
  out_result o = Ok true ->
  exists c style',
    out_style o = Some style' /\
    Style.getChecksum (toString X) (asString X) style' = (Ok c, style') /\
    WebGLCoverageLayerRenderer.renderedChecksum_ (out_renderer o) = Some c /\
    WebGLCoverageLayerRenderer.renderedResolution (out_renderer o) =
    Some (vs_resolution (fs_viewState frameState)) /\
    WebGLCoverageLayerRenderer.renderedRevision (out_renderer o) =
    Some (CoverageLayer.getRevision layer) /\
    WebGLCoverageLayerRenderer.renderedExtent (out_renderer o) =
    Some (fs_extent frameState).
Proof.
  intros Ha Hi Hreuse. unfold WebGLCoverageLayerRenderer.prepareFrame.
  destruct (CoverageLayer.getStyle layer) as [style|]; [|discriminate].
  destruct (Style.getChecksum (toString X) (asString X) style)
    as [[c|e] s0]; [|discriminate].
  rewrite Ha, Hi. cbn [Nat.eqb negb andb orb]. rewrite !andb_false_r.
  cbn [orb]. rewrite Hreuse. apply webgl_redraw_true.
Qed.

Lemma webgl_prepare_reuse (X : Externals)
    (r : WebGLCoverageLayerRenderer.t) (layer : CoverageLayer.t)
    (frameState : FrameState) (style : CoverageStyle) (c : string) :
  fs_animating frameState = 0%nat -> fs_interacting frameState = 0%nat ->
  Num.eqb (vs_resolution (fs_viewState frameState))
          (vs_resolution (fs_viewState frameState)) = true ->
  containsExtent (fs_extent frameState) (fs_extent frameState) = true ->
  Style.getChecksum (toString X) (asString X) style = (Ok c, style) ->
  WebGLCoverageLayerRenderer.renderedChecksum_ r = Some c ->
  WebGLCoverageLayerRenderer.renderedResolution r =
  Some (vs_resolution (fs_viewState frameState)) ->
  WebGLCoverageLayerRenderer.renderedRevision r =
  Some (CoverageLayer.getRevision layer) ->
  WebGLCoverageLayerRenderer.renderedExtent r =
  Some (fs_extent frameState) ->
  WebGLCoverageLayerRenderer.prepareFrame X r
    (CoverageLayer.with_style layer (Some style)) frameState =
  mkOutcome (Ok true)
            (WebGLCoverageLayerRenderer.set_replayGroupChanged r false)
            (Some style) (fs_extent frameState) [].
Proof.
  intros Ha Hi Hres Hext Hc H1 H2 H3 H4.
  unfold WebGLCoverageLayerRenderer.prepareFrame,
    WebGLCoverageLayerRenderer.reusable.
  cbn [CoverageLayer.getStyle CoverageLayer.with_style CoverageLayer.style_
       CoverageLayer.getSource CoverageLayer.source_
       CoverageLayer.getUpdateWhileAnimating
       CoverageLayer.updateWhileAnimating_
       CoverageLayer.getUpdateWhileInteracting
       CoverageLayer.updateWhileInteracting_
       CoverageLayer.getRevision CoverageLayer.revision_].
  rewrite Hc, H1, opt_string_eqb_refl. cbn [negb].
  rewrite Ha, Hi. cbn [Nat.eqb negb]. rewrite !andb_false_r. cbn [orb].
  rewrite H2, H3, H4. cbn [opt_num_eqb opt_nat_eqb].
  unfold CoverageLayer.getRevision in *.
  now rewrite Hres, Nat.eqb_refl, Hext.
Qed.

Lemma canvas_draw_true (X : Externals) (r : CanvasCoverageLayerRenderer.t)
    (style : CoverageStyle) (layer : CoverageLayer.t) (type : CoverageType)
    (extent : Extent) (group : ReplayGroup) (frameState : FrameState)
    (events : list Event) :
  let o := CanvasCoverageLayerRenderer.draw X r style layer type extent group
             frameState events in
  out_result o = Ok true ->
  out_style o = Some style /\ out_extent o = extent /\
  CanvasCoverageLayerRenderer.renderedChecksum_ (out_renderer o) =
  CanvasCoverageLayerRenderer.renderedChecksum_ r /\
  CanvasCoverageLayerRenderer.renderedResolution (out_renderer o) =
  Some (vs_resolution (fs_viewState frameState)) /\
  CanvasCoverageLayerRenderer.renderedRevision (out_renderer o) =
  Some (CoverageLayer.getRevision layer) /\
  CanvasCoverageLayerRenderer.renderedExtent (out_renderer o) = Some extent.
Proof.
  unfold CanvasCoverageLayerRenderer.draw.
  destruct (CanvasCoverageLayerRenderer.coverageCache_ r) as [cache|];
    cbn zeta; try discriminate.
  destruct (deflateCoordinates _ _) as [|x flat]; cbn; try discriminate.
  intros _. repeat split.
Qed.

Lemma canvas_redraw_true (X : Externals) (r : CanvasCoverageLayerRenderer.t)
    (style : CoverageStyle) (layer : CoverageLayer.t) (extent : Extent)
    (frameState : FrameState) :
  let o := CanvasCoverageLayerRenderer.redraw X r style layer extent
             frameState in
  out_result o = Ok true ->
  exists c style',
    out_style o = Some style' /\ out_extent o = extent /\
    Style.getChecksum (toString X) (asString X) style' = (Ok c, style') /\
    CanvasCoverageLayerRenderer.renderedChecksum_ (out_renderer o) = Some c /\
    CanvasCoverageLayerRenderer.renderedResolution (out_renderer o) =
    Some (vs_resolution (fs_viewState frameState)) /\
    CanvasCoverageLayerRenderer.renderedRevision (out_renderer o) =
    Some (CoverageLayer.getRevision layer) /\
    CanvasCoverageLayerRenderer.renderedExtent (out_renderer o) = Some extent.
Proof.
  unfold CanvasCoverageLayerRenderer.redraw.
  cbn [CanvasCoverageLayerRenderer.set_replayGroup
       CanvasCoverageLayerRenderer.renderedChecksum_
       CanvasCoverageLayerRenderer.renderedSourceRevision_].
  destruct (Style.getChecksum (toString X) (asString X) style)
    as [[c|e] s2] eqn:E1; [|discriminate].
  destruct (negb (opt_string_eqb
                    (CanvasCoverageLayerRenderer.renderedChecksum_ r) c) ||
            negb (opt_nat_eqb
                    (CanvasCoverageLayerRenderer.renderedSourceRevision_ r)
                    (CoverageSource.getRevision
                       (CoverageLayer.getSource layer)))) eqn:Econd.
  - destruct (CoverageSource.getStyledBand X _ s2 _ _) as [[band|]|e];
      try discriminate.
    destruct (CanvasCoverageLayerRenderer.getCellCoordinates_ _ _ _)
      as [cell|e]; [|discriminate].
    destruct (Style.getChecksum (toString X) (asString X) s2)
      as [[c2|e] s3] eqn:E2; [|discriminate].
    intros H. apply canvas_draw_true in H.
    destruct H as (H1 & H2 & H3 & H4 & H5 & H6).
    exists c2, s3. repeat split; try assumption.
    now apply Style_getChecksum_again with s2.
  - intros H. apply canvas_draw_true in H.
    destruct H as (H1 & H2 & H3 & H4 & H5 & H6).
    exists c, s2. repeat split; try assumption.
    + now apply Style_getChecksum_again with style.
    + rewrite H3. apply opt_string_eqb_true.
      apply orb_false_elim in Econd. destruct Econd as [Ec _].
      now apply negb_false_iff in Ec.
Qed.

Lemma canvas_prepare_redrawn (X : Externals)
    (r : CanvasCoverageLayerRenderer.t) (layer : CoverageLayer.t)
    (frameState : FrameState) :
  fs_animating frameState = 0%nat -> fs_interacting frameState = 0%nat ->
  CanvasCoverageLayerRenderer.reusable r
    (vs_resolution (fs_viewState frameState))
    (CoverageLayer.getRevision layer)
    (CanvasCoverageLayerRenderer.wrapped_extent layer frameState)
  = Ok false ->
  let o := CanvasCoverageLayerRenderer.prepareFrame X r layer frameState in
  out_result o = Ok true ->
  exists c style',
    out_style o = Some style' /\
    out_extent o = CanvasCoverageLayerRenderer.wrapped_extent layer frameState
    /\
    Style.getChecksum (toString X) (asString X) style' = (Ok c, style') /\
    CanvasCoverageLayerRenderer.renderedChecksum_ (out_renderer o) = Some c /\
    CanvasCoverageLayerRenderer.renderedResolution (out_renderer o) =
    Some (vs_resolution (fs_viewState frameState)) /\
    CanvasCoverageLayerRenderer.renderedRevision (out_renderer o) =
    Some (CoverageLayer.getRevision layer) /\
    CanvasCoverageLayerRenderer.renderedExtent (out_renderer o) =
    Some (CanvasCoverageLayerRenderer.wrapped_extent layer frameState).
Proof.
  intros Ha Hi Hreuse. unfold CanvasCoverageLayerRenderer.prepareFrame.
  destruct (CoverageLayer.getStyle layer) as [style|]; [|discriminate].
  destruct (Style.getChecksum (toString X) (asString X) style)
    as [[c|e] s0]; [|discriminate].
  rewrite Ha, Hi. cbn [Nat.eqb negb andb orb]. rewrite !andb_false_r.
  cbn [orb]. rewrite Hreuse. apply canvas_redraw_true.
Qed.

Lemma canvas_prepare_reuse (X : Externals)
    (r : CanvasCoverageLayerRenderer.t) (layer : CoverageLayer.t)
    (frameState : FrameState) (style : CoverageStyle) (c : string) :
  let extent := CanvasCoverageLayerRenderer.wrapped_extent layer frameState in
  fs_animating frameState = 0%nat -> fs_interacting frameState = 0%nat ->
  Num.eqb (vs_resolution (fs_viewState frameState))
          (vs_resolution (fs_viewState frameState)) = true ->
  containsExtent extent extent = true ->
  Style.getChecksum (toString X) (asString X) style = (Ok c, style) ->
  CanvasCoverageLayerRenderer.renderedChecksum_ r = Some c ->
  CanvasCoverageLayerRenderer.renderedResolution r =
  Some (vs_resolution (fs_viewState frameState)) ->
  CanvasCoverageLayerRenderer.renderedRevision r =
  Some (CoverageLayer.getRevision layer) ->
  CanvasCoverageLayerRenderer.renderedExtent r = Some extent ->
  CanvasCoverageLayerRenderer.prepareFrame X r
    (CoverageLayer.with_style layer (Some style)) frameState =
  mkOutcome (Ok true)
            (CanvasCoverageLayerRenderer.set_replayGroupChanged r false)
            (Some style) extent [].
Proof.
  intros extent Ha Hi Hres Hext Hc H1 H2 H3 H4.
  unfold CanvasCoverageLayerRenderer.prepareFrame,
    CanvasCoverageLayerRenderer.reusable.
  change (CanvasCoverageLayerRenderer.wrapped_extent
            (CoverageLayer.with_style layer (Some style)) frameState)
    with extent.
  cbn [CoverageLayer.getStyle CoverageLayer.with_style CoverageLayer.style_
       CoverageLayer.getSource CoverageLayer.source_
       CoverageLayer.getUpdateWhileAnimating
       CoverageLayer.updateWhileAnimating_
       CoverageLayer.getUpdateWhileInteracting
       CoverageLayer.updateWhileInteracting_
       CoverageLayer.getRevision CoverageLayer.revision_].
  rewrite Hc, H1, opt_string_eqb_refl. cbn [negb].
  rewrite Ha, Hi. cbn [Nat.eqb negb]. rewrite !andb_false_r. cbn [orb].
  rewrite H2, H3, H4. cbn [opt_num_eqb opt_nat_eqb].
  unfold CoverageLayer.getRevision in *.
  now rewrite Hres, Nat.eqb_refl, Hext.
Qed.

(** X17. For both renderers, on a frame without animation or interaction:
    when [prepareFrame] could not reuse the cached batch, redrew and
    returned true, then a second call for the same layer (holding the style
    object as the first call left it) and an equal frame state returns true
    without computing a styled band or building a grid, and changes nothing
    of the renderer but [replayGroupChanged], which it clears.  (The view
    resolution and the coordinates of the extent are taken not to be NaN;
    the canvas renderer compares the extent after the world-wrap
    widening.) *)
Theorem still_frame_reused (X : Externals) (layer : CoverageLayer.t)
    (frameState : FrameState) :
  fs_animating frameState = 0%nat ->
  fs_interacting frameState = 0%nat ->
  Num.eqb (vs_resolution (fs_viewState frameState))
          (vs_resolution (fs_viewState frameState)) = true ->
  (forall r : WebGLCoverageLayerRenderer.t,
     let o := WebGLCoverageLayerRenderer.prepareFrame X r layer frameState in
     WebGLCoverageLayerRenderer.reusable r
       (vs_resolution (fs_viewState frameState))
       (CoverageLayer.getRevision layer) (fs_extent frameState) = Ok false ->
     out_result o = Ok true ->
     containsExtent (fs_extent frameState) (fs_extent frameState) = true ->
     let o' :=
       WebGLCoverageLayerRenderer.prepareFrame X (out_renderer o)
         (CoverageLayer.with_style layer (out_style o)) frameState in
     out_result o' = Ok true /\ out_events o' = [] /\
     out_style o' = out_style o /\
     out_renderer o' =
     WebGLCoverageLayerRenderer.set_replayGroupChanged (out_renderer o) false)
  /\
  (forall r : CanvasCoverageLayerRenderer.t,
     let o := CanvasCoverageLayerRenderer.prepareFrame X r layer frameState in
     let extent :=
       CanvasCoverageLayerRenderer.wrapped_extent layer frameState in
     CanvasCoverageLayerRenderer.reusable r
       (vs_resolution (fs_viewState frameState))
       (CoverageLayer.getRevision layer) extent = Ok false ->
     out_result o = Ok true ->
     containsExtent extent extent = true ->
     let o' :=
       CanvasCoverageLayerRenderer.prepareFrame X (out_renderer o)
         (CoverageLayer.with_style layer (out_style o)) frameState in
     out_result o' = Ok true /\ out_events o' = [] /\
     out_style o' = out_style o /\
     out_renderer o' =
     CanvasCoverageLayerRenderer.set_replayGroupChanged (out_renderer o)
                                                        false).
Proof.
  intros Ha Hi Hres. split.
  - intros r o Hreuse Htrue Hext o'. subst o' o.
    destruct (webgl_prepare_redrawn X r layer frameState Ha Hi Hreuse Htrue)
      as (c & style' & H1 & H2 & H3 & H4 & H5 & H6).
    rewrite H1.
    rewrite (webgl_prepare_reuse X _ layer frameState style' c)
      by assumption.
    repeat split.
  - intros r o extent Hreuse Htrue Hext o'. subst o' o extent.
    destruct (canvas_prepare_redrawn X r layer frameState Ha Hi Hreuse Htrue)
      as (c & style' & H1 & H2 & H3 & H4 & H5 & H6 & H7).
    rewrite H1.
    rewrite (canvas_prepare_reuse X _ layer frameState style' c)
      by assumption.
    repeat split.
Qed.

Lemma still_frame_reused_witness :
  out_result
    (WebGLCoverageLayerRenderer.prepareFrame sample_externals
       (out_renderer
          (WebGLCoverageLayerRenderer.prepareFrame sample_externals
             fresh_webgl_renderer sample_layer first_frame))
       (CoverageLayer.with_style sample_layer
          (out_style
             (WebGLCoverageLayerRenderer.prepareFrame sample_externals
                fresh_webgl_renderer sample_layer first_frame)))
       first_frame) = Ok true.
Proof.
  apply (proj1 (still_frame_reused sample_externals sample_layer first_frame
                  eq_refl eq_refl eq_refl) fresh_webgl_renderer);
    vm_compute; reflexivity.
Defined.

(** ** Monochrome: bytes come back unchanged *)

Lemma Qfloor_half (z : Z) : Qfloor (inject_Z z + (1 # 2)) = z.
Proof.
  unfold Qfloor, Qplus, inject_Z. cbn [Qnum Qden].
  symmetry. apply Z.div_unique with (r := 1%Z); lia.
Qed.

Lemma grey_byte (z : Z) :
  (0 <= z <= 255)%Z ->
  clamp (Num.round
           (Num.mul (Fin 255)
              (Num.div (Num.sub (Num.of_Z z) (Fin 0))
                       (Num.sub (Fin 255) (Fin 0)))))
        (Fin 0) (Fin 255) = Num.of_Z z.
Proof.
  intros Hz. unfold Num.of_Z.
  rewrite grey_finite by reflexivity.
  assert (E : 255 * ((inject_Z z - 0) / (255 - 0)) + (1 # 2) ==
              inject_Z z + (1 # 2)) by field.
  rewrite (Qfloor_comp _ _ E), Qfloor_half.
  now replace (Z.max 0 (Z.min 255 z)) with z by lia.
Qed.

(** X18. A monochrome style with min 0 and max 255 gives back a band of
    bytes: every cell that is an integer between 0 and 255 is written with
    itself as its grey level. *)
Theorem monochrome_identity (s : Monochrome.t) (cells : list Z)
    (nodata : value) (minAlpha maxAlpha : number) :
  Monochrome.getMin s = Some (Fin 0) ->
  Monochrome.getMax s = Some (Fin 255) ->
  Forall (fun z => (0 <= z <= 255)%Z) cells ->
  Monochrome.apply s (map Num.of_Z cells) nodata minAlpha maxAlpha =
  flat_map
    (fun z =>
       [Num.of_Z z; Num.of_Z z; Num.of_Z z;
        if strict_equals (VNum (Num.of_Z z)) nodata
        then maxAlpha else minAlpha])
    cells.
Proof.
  intros Hmin Hmax Hall. rewrite Monochrome_apply_flat, Hmin, Hmax.
  induction Hall as [|z cells Hz _ IH]; [reflexivity|].
  cbn [map flat_map]. rewrite IH. unfold Monochrome.apply_cell at 1.
  cbv zeta. now rewrite (grey_byte z Hz).
Qed.

Lemma monochrome_identity_witness :
  Monochrome.apply
    (Monochrome.new (Monochrome.mkOptions (Some (Fin 0)) (Some (Fin 255))
                                          None))
    (map Num.of_Z [0; 85; 255]%Z) VNull (Fin 1) (Fin 0) =
  [Fin 0; Fin 0; Fin 0; Fin 1; Fin 85; Fin 85; Fin 85; Fin 1;
   Fin 255; Fin 255; Fin 255; Fin 1].
Proof.
  apply (monochrome_identity
           (Monochrome.new (Monochrome.mkOptions (Some (Fin 0))
                                                 (Some (Fin 255)) None))
           [0; 85; 255]%Z VNull (Fin 1) (Fin 0) eq_refl eq_refl).
  repeat constructor; lia.
Defined.

(** ** PolygonReplay: every style group has a colour *)

Lemma coloured_grows (r r' : WebGLPolygonReplay.t) :
  coloured r -> grows r r' -> coloured r'.
Proof.
  unfold coloured. intros H (A1 & A2 & A3 & A4 & A5 & A6 & A7 & A8).
  now rewrite A4, A5, A7.
Qed.

Lemma coloured_record (r : WebGLPolygonReplay.t) (index : nat)
    (feature : WebGLPolygonReplay.Feature) :
  coloured r -> coloured (WebGLPolygonReplay.record_feature r index feature).
Proof.
  unfold coloured, WebGLPolygonReplay.record_feature. cbn.
  destruct (WebGLPolygonReplay.state_changed r);
    rewrite ?length_app; simpl; lia.
Qed.

Lemma draw_call_coloured (X : Externals) (r r' : WebGLPolygonReplay.t)
    (c : WebGLPolygonReplay.DrawCall) :
  WebGLPolygonReplay.draw_call X (Ok r) c = Ok r' ->
  coloured r -> coloured r'.
Proof.
  destruct c as [fill|g f|g f]; cbn [WebGLPolygonReplay.draw_call bind].
  - intros [= <-] Hc. unfold WebGLPolygonReplay.setFillStrokeStyle.
    destruct (match WebGLPolygonReplay.state_fillColor r with
              | Some current => _
              | None => true
              end); [|exact Hc].
    unfold coloured in *. cbn. rewrite length_app. simpl.
    destruct (WebGLPolygonReplay.state_changed r); lia.
  - unfold WebGLPolygonReplay.drawPolygon. intros H Hc.
    destruct (WebGLPolygonReplay.ends g) as [|end0 rest];
      [injection H as <-; exact Hc|].
    destruct (translate X _ _ _ _ _ _) as [|c ring];
      [injection H as <-; exact Hc|].
    destruct (WebGLPolygonReplay.indices r) as [ixs|]; [|discriminate].
    apply drawCoordinates_grows in H.
    eapply coloured_grows; [|exact H]. now apply coloured_record.
  - unfold WebGLPolygonReplay.drawMultiPolygon. intros H Hc.
    destruct (WebGLPolygonReplay.indices r) as [ixs|]; [|discriminate].
    destruct (fold_left _ _ _) as [[r1 start1]|e] eqn:Ef; [|discriminate].
    cbn [bind fst] in H. apply multi_fold_grows in Ef.
    destruct (WebGLPolygonReplay.indices r1) as [ixs1|]; [|discriminate].
    destruct (length ixs <? length ixs1)%nat; injection H as <-.
    + apply coloured_record. now apply coloured_grows with r.
    + now apply coloured_grows with r.
Qed.

Lemma accumulate_coloured (X : Externals) (origin : number * number)
    (calls : list WebGLPolygonReplay.DrawCall)
    (replay : WebGLPolygonReplay.t) :
  WebGLPolygonReplay.accumulate X origin calls = Ok replay ->
  (length (WebGLPolygonReplay.styleIndices_ replay) <=
   length (WebGLPolygonReplay.styles_ replay))%nat.
Proof.
  unfold WebGLPolygonReplay.accumulate.
  destruct (fold_left _ calls _) as [r|e] eqn:Ef; [|discriminate].
  cbn [bind]. unfold WebGLPolygonReplay.finish.
  destruct (WebGLPolygonReplay.indices r) as [ixs|]; [|discriminate].
  intros [= <-]. cbn.
  assert (Hc : coloured r).
  { clear -Ef. revert Ef.
    assert (H0 : coloured (WebGLPolygonReplay.new origin))
      by (unfold coloured; cbn; lia).
    revert H0. generalize (WebGLPolygonReplay.new origin).
    induction calls as [|c calls IH]; intros r0 H0.
    - now intros [= <-].
    - cbn [fold_left].
      destruct (WebGLPolygonReplay.draw_call X (Ok r0) c) as [r1|e] eqn:E.
      + apply IH. now apply (draw_call_coloured X r0 r1 c).
      + rewrite draw_calls_throw. discriminate. }
  unfold coloured in Hc.
  destruct (WebGLPolygonReplay.styleIndices_ r) as [|g gs];
    destruct (WebGLPolygonReplay.styles_ r) as [|c cs]; simpl in *; lia.
Qed.

Lemma draw_pending_colours (replayCalls : list WebGLPolygonReplay.ReplayCall)
    (start end_ : option nat) :
  Forall colour_given replayCalls ->
  Forall colour_given
         (WebGLPolygonReplay.draw_pending start end_ replayCalls).
Proof.
  intros H. unfold WebGLPolygonReplay.draw_pending.
  destruct (WebGLPolygonReplay.differ start end_); [|exact H].
  apply Forall_app. split; [exact H|]. repeat constructor.
Qed.

Lemma skip_feature_loop_colours (replay : WebGLPolygonReplay.t)
    (skipped : gmap nat bool) (g : nat) :
  forall next start end_ replayCalls st,
    WebGLPolygonReplay.skip_feature_loop replay skipped next g start end_
      replayCalls = Ok st ->
    Forall colour_given replayCalls ->
    Forall colour_given (WebGLPolygonReplay.ss_calls st).
Proof.
  induction next as [|f IH]; intros start end_ replayCalls st.
  - now intros [= <-].
  - cbn [WebGLPolygonReplay.skip_feature_loop].
    destruct (WebGLPolygonReplay.startIndices replay !! f) as [fs|];
      [|now intros [= <-]].
    destruct (g <=? fs)%nat; [|now intros [= <-]].
    destruct (WebGLPolygonReplay.startIndicesFeature replay !! f)
      as [feat|]; [|discriminate].
    destruct (WebGLPolygonReplay.is_skipped skipped feat).
    + intros H Hc. apply (IH _ _ _ _ H). now apply draw_pending_colours.
    + apply IH.
Qed.

Lemma skip_style_loop_colours (replay : WebGLPolygonReplay.t)
    (skipped : gmap nat bool) :
  forall i st st',
    (i <= length (WebGLPolygonReplay.styles_ replay))%nat ->
    WebGLPolygonReplay.skip_style_loop replay skipped i st = Ok st' ->
    Forall colour_given (WebGLPolygonReplay.ss_calls st) ->
    Forall colour_given (WebGLPolygonReplay.ss_calls st').
Proof.
  induction i as [|i IH]; intros st st' Hi.
  - now intros [= <-].
  - cbn [WebGLPolygonReplay.skip_style_loop].
    destruct (lookup_lt_is_Some_2 (WebGLPolygonReplay.styles_ replay) i)
      as [c Hc]; [lia|].
    rewrite Hc.
    set (inner := match WebGLPolygonReplay.styleIndices_ replay !! i with
                  | Some g => _
                  | None => _
                  end).
    destruct inner as [st1|e] eqn:E; [|discriminate].
    cbn [bind]. intros H Hcalls.
    apply (IH _ _ ltac:(lia) H). cbn [WebGLPolygonReplay.ss_calls].
    apply draw_pending_colours.
    assert (Hin : Forall colour_given
                    (WebGLPolygonReplay.ss_calls st ++
                     [WebGLPolygonReplay.SetFillStyle (Some c)])).
    { apply Forall_app. split; [exact Hcalls|]. repeat constructor. }
    unfold inner in E.
    destruct (WebGLPolygonReplay.styleIndices_ replay !! i) as [g|].
    + now apply (skip_feature_loop_colours _ _ _ _ _ _ _ _ E).
    + injection E as <-. exact Hin.
Qed.

Lemma group_loop_colours (replay : WebGLPolygonReplay.t) :
  forall i end_ replayCalls,
    (i <= length (WebGLPolygonReplay.styles_ replay))%nat ->
    Forall colour_given replayCalls ->
    Forall colour_given
           (WebGLPolygonReplay.group_loop replay i end_ replayCalls).
Proof.
  induction i as [|i IH]; intros end_ replayCalls Hi Hc; [exact Hc|].
  cbn [WebGLPolygonReplay.group_loop].
  destruct (lookup_lt_is_Some_2 (WebGLPolygonReplay.styles_ replay) i)
    as [c Hcol]; [lia|].
  rewrite Hcol. apply IH; [lia|].
  apply Forall_app. split; [exact Hc|]. repeat constructor.
Qed.

(** X19. [drawReplay] on a replay filled by drawing calls and [finish]
    returns without throwing, with or without skipped features, and never
    hands an undefined colour to the fill style: every style group it
    walks has a recorded colour. *)
Theorem drawReplay_colours (X : Externals) (origin : number * number)
    (calls : list WebGLPolygonReplay.DrawCall)
    (replay : WebGLPolygonReplay.t) (skippedFeaturesHash : gmap nat bool) :
  WebGLPolygonReplay.accumulate X origin calls = Ok replay ->
  exists out,
    WebGLPolygonReplay.drawReplay replay skippedFeaturesHash = Ok out /\
    Forall colour_given out.
Proof.
  intros Hacc.
  pose proof (accumulate_coloured X origin calls replay Hacc) as Hcol.
  destruct (accumulate_arrays X origin calls replay Hacc) as [Hlen _].
  destruct (accumulate_ordered X origin calls replay Hacc)
    as (Hs & Hg & Hin & H0).
  unfold WebGLPolygonReplay.drawReplay.
  destruct (negb (bool_decide (skippedFeaturesHash = ∅))).
  - unfold WebGLPolygonReplay.drawReplaySkipping_.
    destruct (lookup_lt_is_Some_2 (WebGLPolygonReplay.startIndices replay)
                (length (WebGLPolygonReplay.startIndicesFeature replay)))
      as [total Ht]; [lia|].
    rewrite Hlen.
    replace (S (length (WebGLPolygonReplay.startIndicesFeature replay)) - 1)
      %nat
      with (length (WebGLPolygonReplay.startIndicesFeature replay)) by lia.
    rewrite Ht.
    destruct (skip_style_loop_spec replay skippedFeaturesHash Hlen Hs Hg Hin
                (length (WebGLPolygonReplay.styleIndices_ replay))
                (WebGLPolygonReplay.mkSkipState
                   (length (WebGLPolygonReplay.startIndicesFeature replay))
                   (Some total) (Some total) []) total)
      as (st & S1 & _); cbn; auto.
    { intros j g _ Hj.
      rewrite List.Forall_forall in Hin.
      destruct (Hin g) as (k & Hk & Hkg).
      { apply list_elem_of_In. eapply list_elem_of_lookup_2. exact Hj. }
      apply (Hs k (length (WebGLPolygonReplay.startIndicesFeature replay)));
        auto. lia. }
    rewrite S1. cbn [bind]. eexists. split; [reflexivity|].
    apply (skip_style_loop_colours _ _ _ _ _ Hcol S1). constructor.
  - eexists. split; [reflexivity|].
    apply group_loop_colours; [exact Hcol | constructor].
Qed.

Lemma drawReplay_colours_witness :
  exists out,
    WebGLPolygonReplay.drawReplay sample_replay
      ({[ 1%nat := true ]} : gmap nat bool) = Ok out /\
    Forall colour_given out.
Proof.
  assert (Hacc : WebGLPolygonReplay.accumulate sample_externals
                   (Fin 0, Fin 0) sample_calls = Ok sample_replay)
    by (vm_compute; reflexivity).
  exact (drawReplay_colours sample_externals (Fin 0, Fin 0) sample_calls
           sample_replay ({[ 1%nat := true ]} : gmap nat bool) Hacc).
Defined.

(** ** ArcGrid: the header of a grid file *)

Lemma split_nonempty (sep : ascii) (s : string) : split sep s <> [].
Proof.
  induction s as [|c s IH]; simpl; [discriminate|].
  destruct (Ascii.eqb c sep); [discriminate|].
  destruct (split sep s); discriminate.
Qed.

Section ArcGridProofs.
Variable TYPED_ARRAY : bool.
Variable parseFloat : string -> number.
Variable toUpperCase : string -> string.

Lemma header_name_word (line : string) :
  ArcGrid.header_name toUpperCase line = Some (header_word toUpperCase line).
Proof.
  unfold header_word, ArcGrid.header_name.
  pose proof (split_nonempty " " line) as H.
  destruct (split " " line) as [|w ws]; [congruence|reflexivity].
Qed.

Lemma header_of_cons (line : string) (lines : list string)
    (h0 : gmap string number) :
  header_of parseFloat toUpperCase (line :: lines) h0 =
  header_of parseFloat toUpperCase lines
    (<[header_word toUpperCase line :=
         ArcGrid.header_value parseFloat line]> h0).
Proof. reflexivity. Qed.

Lemma header_fold_throw (source : list string) (l : list nat)
    (e : js_error) :
  fold_left (ArcGrid.header_step parseFloat toUpperCase source) l (Throw e)
  = Throw e.
Proof. induction l as [|i l IH]; [reflexivity | exact IH]. Qed.

Lemma header_fold (source : list string) :
  forall n a h0,
    (a + n <= length source)%nat ->
    fold_left (ArcGrid.header_step parseFloat toUpperCase source) (seq a n)
              (Ok h0) =
    Ok (header_of parseFloat toUpperCase (take n (drop a source)) h0).
Proof.
  induction n as [|n IH]; intros a h0 Hlen; [reflexivity|].
  destruct (lookup_lt_is_Some_2 source a) as [line Hline]; [lia|].
  cbn [seq fold_left]. unfold ArcGrid.header_step at 2. cbn [bind].
  rewrite Hline, header_name_word, IH by lia.
  now rewrite (drop_S _ _ _ Hline), firstn_cons, header_of_cons.
Qed.

Lemma header_fold_short (source : list string) :
  forall n a h0,
    (a <= length source)%nat -> (length source < a + n)%nat ->
    fold_left (ArcGrid.header_step parseFloat toUpperCase source) (seq a n)
              (Ok h0) = Throw TypeError.
Proof.
  induction n as [|n IH]; intros a h0 Ha Hlen; [lia|].
  cbn [seq fold_left]. unfold ArcGrid.header_step at 2. cbn [bind].
  destruct (source !! a) as [line|] eqn:Hline.
  - rewrite header_name_word. apply IH; [|lia].
    apply lookup_lt_Some in Hline. lia.
  - apply header_fold_throw.
Qed.

Lemma header_of_lookup (lines : list string) :
  forall h0 k,
    is_Some (header_of parseFloat toUpperCase lines h0 !! k) <->
    In k (map (header_word toUpperCase) lines) \/ is_Some (h0 !! k).
Proof.
  induction lines as [|line lines IH]; intros h0 k.
  - cbn. tauto.
  - rewrite header_of_cons, IH, lookup_insert_is_Some. cbn [map In].
    destruct (decide (header_word toUpperCase line = k)); tauto.
Qed.

Lemma header_of_other (lines : list string) :
  forall h0 k,
    ~ In k (map (header_word toUpperCase) lines) ->
    header_of parseFloat toUpperCase lines h0 !! k = h0 !! k.
Proof.
  induction lines as [|line lines IH]; intros h0 k Hk; [reflexivity|].
  rewrite header_of_cons, IH by (cbn in Hk; tauto).
  apply lookup_insert_ne. cbn in Hk. tauto.
Qed.

Lemma header_of_value (lines : list string) :
  forall h0,
    List.NoDup (map (header_word toUpperCase) lines) ->
    forall line, In line lines ->
      header_of parseFloat toUpperCase lines h0 !!
        header_word toUpperCase line =
      Some (ArcGrid.header_value parseFloat line).
Proof.
  induction lines as [|l lines IH]; intros h0 Hnd line Hin; [destruct Hin|].
  cbn in Hnd. apply List.NoDup_cons_iff in Hnd. destruct Hnd as [Hl Hnd].
  rewrite header_of_cons.
  destruct Hin as [->|Hin].
  - rewrite header_of_other by exact Hl. apply lookup_insert_eq.
  - now apply IH.
Qed.

Lemma header_of_size (lines : list string) :
  forall h0,
    (size (header_of parseFloat toUpperCase lines h0) <=
     size h0 + length lines)%nat /\
    (size (header_of parseFloat toUpperCase lines h0) =
     (size h0 + length lines)%nat <->
     List.NoDup (map (header_word toUpperCase) lines) /\
     forall k, In k (map (header_word toUpperCase) lines) -> h0 !! k = None).
Proof.
  induction lines as [|line lines IH]; intros h0.
  - cbn. split; [lia|]. split; [intros _|lia].
    split; [constructor | intros k []].
  - rewrite header_of_cons. cbn [map length].
    set (w := header_word toUpperCase line).
    set (v := ArcGrid.header_value parseFloat line).
    destruct (IH (<[w:=v]> h0)) as [IHle IHeq].
    rewrite map_size_insert in IHle, IHeq.
    destruct (h0 !! w) as [x|] eqn:Ew; cbn [id] in IHle, IHeq.
    + split; [lia|]. split; [lia|].
      intros [_ Hnone]. rewrite Hnone in Ew by now left. discriminate.
    + split; [lia|].
      replace (size h0 + S (length lines))%nat
        with (S (size h0) + length lines)%nat by lia.
      rewrite IHeq. rewrite List.NoDup_cons_iff. split.
      * intros [Hnd Hnone]. split; [split; [|exact Hnd]|].
        -- intros Hin. specialize (Hnone w Hin).
           now rewrite lookup_insert_eq in Hnone.
        -- intros k [<-|Hk]; [exact Ew|].
           specialize (Hnone k Hk).
           destruct (decide (w = k)) as [<-|Hne];
             [now rewrite lookup_insert_eq in Hnone|].
           now rewrite lookup_insert_ne in Hnone.
      * intros [[Hw Hnd] Hnone]. split; [exact Hnd|].
        intros k Hk. rewrite lookup_insert_ne; [apply Hnone; now right|].
        intros <-. contradiction.
Qed.

Lemma header_names_NoDup : List.NoDup ArcGrid.header_names.
Proof.
  apply NoDup_ListNoDup. unfold ArcGrid.header_names.
  repeat (apply NoDup_cons; split;
          [rewrite ?elem_of_cons, ?elem_of_nil;
           intuition discriminate|]).
  apply NoDup_nil_2.
Qed.

Lemma header_valid_iff (lines : list string) :
  length lines = 6%nat ->
  ArcGrid.header_valid (header_of parseFloat toUpperCase lines ∅) = true <->
  Permutation (map (header_word toUpperCase) lines) ArcGrid.header_names.
Proof.
  intros Hlen. unfold ArcGrid.header_valid.
  rewrite andb_true_iff, forallb_forall, Nat.eqb_eq.
  destruct (header_of_size lines ∅) as [_ Hsize].
  rewrite map_size_empty, Hlen in Hsize. cbn [Nat.add] in Hsize.
  rewrite Hsize. split.
  - intros [Hall [Hnd _]].
    apply Permutation_sym, NoDup_Permutation_bis.
    + apply header_names_NoDup.
    + rewrite length_map, Hlen. cbn. lia.
    + intros k Hk. specialize (Hall k Hk).
      apply bool_decide_eq_true in Hall.
      apply header_of_lookup in Hall. destruct Hall as [Hall|Hall];
        [exact Hall|].
      rewrite lookup_empty in Hall. now destruct Hall.
  - intros Hperm. split.
    + intros k Hk. apply bool_decide_eq_true, header_of_lookup. left.
      eapply Permutation_in; [apply Permutation_sym; exact Hperm | exact Hk].
    + split; [|intros k _; apply lookup_empty].
      eapply Permutation_NoDup;
        [apply Permutation_sym; exact Hperm | apply header_names_NoDup].
Qed.

Lemma parse_header (source : list string) :
  (6 <= length source)%nat ->
  fold_left (ArcGrid.header_step parseFloat toUpperCase source) (seq 0 6)
            (Ok ∅) =
  Ok (header_of parseFloat toUpperCase (take 6 source) ∅).
Proof.
  intros Hlen. now rewrite (header_fold source 6 0 ∅) by lia.
Qed.

End ArcGridProofs.

Lemma header_of_permuted (parseFloat : string -> number)
    (toUpperCase : string -> string) (lines lines' : list string) :
  Permutation lines lines' ->
  List.NoDup (map (header_word toUpperCase) lines) ->
  header_of parseFloat toUpperCase lines ∅ =
  header_of parseFloat toUpperCase lines' ∅.
Proof.
  intros Hperm Hnd.
  assert (Hnd' : List.NoDup (map (header_word toUpperCase) lines')).
  { eapply Permutation_NoDup; [apply Permutation_map; exact Hperm|exact Hnd]. }
  apply map_eq. intros k.
  destruct (in_dec string_dec k (map (header_word toUpperCase) lines))
    as [Hin|Hout].
  - apply in_map_iff in Hin. destruct Hin as [line [<- Hin]].
    rewrite (header_of_value parseFloat toUpperCase lines ∅ Hnd line Hin).
    symmetry. apply header_of_value; [exact Hnd'|].
    eapply Permutation_in; [exact Hperm | exact Hin].
  - rewrite !header_of_other; [reflexivity| |exact Hout].
    intros Hin. apply Hout.
    eapply Permutation_in;
      [apply Permutation_sym, Permutation_map; exact Hperm | exact Hin].
Qed.

(** A grid band is binary exactly where there are typed arrays, so its
    construction does not throw. *)
Lemma band_of_ok (TYPED_ARRAY : bool) (parseFloat : string -> number)
    (header : gmap string number) (source : list string)
    (dataType_ : MatrixType) :
  exists band,
    ArcGrid.band_of TYPED_ARRAY parseFloat header source dataType_ = Ok band.
Proof.
  unfold ArcGrid.band_of, Band.new, Band.createBinaryMatrix_.
  cbn [Band.o_binary]. destruct TYPED_ARRAY; cbn [bind]; eexists; reflexivity.
Qed.

(** X20. A grid file of six lines or more is parsed without an exception,
    and its header lines may come in any order: when the upper-case names of
    the first six lines are the six header names, each once, a band is added
    from a header that holds for every header line the number parsed on it,
    the source becomes ready and the text is released; when they are not,
    the source is set to the error state, no band is added and the text is
    kept. *)
Theorem arcgrid_header (TYPED_ARRAY : bool) (parseFloat : string -> number)
    (toUpperCase : string -> string) (state : SourceState) (data : string)
    (dataType_ : MatrixType) :
  let source := split "010" data in
  let loading :=
    match state with
    | LOADING => []
    | _ => [ArcGrid.SetState LOADING]
    end in
  let parsed :=
    ArcGrid.parseCoverage_ TYPED_ARRAY parseFloat toUpperCase state
      (Some data) dataType_ in
  (6 <= length source)%nat ->
  ArcGrid.p_result parsed = Ok tt /\
  (Permutation (header_words toUpperCase source) ArcGrid.header_names ->
   exists (header : gmap string number) (band : Band.t),
     (forall line, In line (take 6 source) ->
        header !! header_word toUpperCase line =
        Some (ArcGrid.header_value parseFloat line)) /\
     ArcGrid.band_of TYPED_ARRAY parseFloat header source dataType_ =
       Ok band /\
     ArcGrid.p_effects parsed =
       loading ++ [ArcGrid.AddBand band; ArcGrid.SetState READY] /\
     ArcGrid.p_data parsed = None) /\
  (~ Permutation (header_words toUpperCase source) ArcGrid.header_names ->
   ArcGrid.p_effects parsed = loading ++ [ArcGrid.SetState ERROR] /\
   ArcGrid.p_data parsed = Some data).
Proof.
  intros source loading parsed Hlen.
  assert (Hsix : length (take 6 source) = 6%nat)
    by (rewrite length_take; lia).
  pose proof (header_valid_iff parseFloat toUpperCase (take 6 source) Hsix)
    as Hvalid.
  fold (header_words toUpperCase source) in Hvalid.
  subst parsed. unfold ArcGrid.parseCoverage_. fold source. fold loading.
  rewrite (parse_header parseFloat toUpperCase source Hlen).
  destruct (ArcGrid.header_valid
              (header_of parseFloat toUpperCase (take 6 source) ∅)) eqn:E;
    cbn [negb ArcGrid.p_result ArcGrid.p_effects ArcGrid.p_data].
  - destruct (band_of_ok TYPED_ARRAY parseFloat
                (header_of parseFloat toUpperCase (take 6 source) ∅)
                source dataType_) as [band Eband].
    rewrite Eband.
    cbn [ArcGrid.p_result ArcGrid.p_effects ArcGrid.p_data].
    split; [reflexivity|]. split.
    + intros Hperm.
      exists (header_of parseFloat toUpperCase (take 6 source) ∅), band.
      split; [|split; [exact Eband|split; reflexivity]].
      intros line Hin. apply header_of_value; [|exact Hin].
      eapply Permutation_NoDup;
        [apply Permutation_sym; exact Hperm | apply header_names_NoDup].
    + intros Hno. exfalso. apply Hno. now apply Hvalid.
  - split; [reflexivity|]. split.
    + intros Hperm. apply Hvalid in Hperm. discriminate.
    + intros _. split; reflexivity.
Qed.

Lemma arcgrid_header_witness :
  ArcGrid.p_result
    (ArcGrid.parseCoverage_ true sample_parseFloat sample_toUpperCase
       UNDEFINED (Some sample_grid) FLOAT32) = Ok tt.
Proof.
  apply (arcgrid_header true sample_parseFloat sample_toUpperCase UNDEFINED
           sample_grid FLOAT32).
  vm_compute. lia.
Defined.

(** X21. Without a text, or with a text of fewer than six lines, parsing
    throws while the header is read: the source was put in the loading state
    and stays there, it is never set to the error state, no band is added
    and the text is kept. *)
Theorem arcgrid_short_input (TYPED_ARRAY : bool)
    (parseFloat : string -> number) (toUpperCase : string -> string)
    (state : SourceState) (data_ : option string) (dataType_ : MatrixType) :
  (forall data, data_ = Some data -> (length (split "010" data) < 6)%nat) ->
  ArcGrid.parseCoverage_ TYPED_ARRAY parseFloat toUpperCase state data_
    dataType_ =
  ArcGrid.mkParsed (Throw TypeError) data_
    match state with
    | LOADING => []
    | _ => [ArcGrid.SetState LOADING]
    end.
Proof.
  intros Hshort. unfold ArcGrid.parseCoverage_.
  destruct data_ as [data|]; [|reflexivity].
  specialize (Hshort data eq_refl).
  now rewrite (header_fold_short parseFloat toUpperCase (split "010" data)
                 6 0 ∅) by lia.
Qed.

Lemma arcgrid_short_input_witness :
  ArcGrid.parseCoverage_ true sample_parseFloat sample_toUpperCase READY
    (Some "ncols 2") FLOAT32 =
  ArcGrid.mkParsed (Throw TypeError) (Some "ncols 2")
    [ArcGrid.SetState LOADING].
Proof.
  apply (arcgrid_short_input true sample_parseFloat sample_toUpperCase READY
           (Some "ncols 2") FLOAT32).
  intros data E. injection E as <-. vm_compute. lia.
Defined.

(** X22. The order of the six header lines has no effect: two grid files
    with the same lines after the header and the same header lines in
    another order give the same result, the same states and the same
    band. *)
Theorem arcgrid_header_order (TYPED_ARRAY : bool)
    (parseFloat : string -> number) (toUpperCase : string -> string)
    (state : SourceState) (data data' : string) (dataType_ : MatrixType) :
  (6 <= length (split "010" data))%nat ->
  Permutation (take 6 (split "010" data)) (take 6 (split "010" data')) ->
  drop 6 (split "010" data) = drop 6 (split "010" data') ->
  ArcGrid.p_result
    (ArcGrid.parseCoverage_ TYPED_ARRAY parseFloat toUpperCase state
       (Some data) dataType_) =
  ArcGrid.p_result
    (ArcGrid.parseCoverage_ TYPED_ARRAY parseFloat toUpperCase state
       (Some data') dataType_) /\
  ArcGrid.p_effects
    (ArcGrid.parseCoverage_ TYPED_ARRAY parseFloat toUpperCase state
       (Some data) dataType_) =
  ArcGrid.p_effects
    (ArcGrid.parseCoverage_ TYPED_ARRAY parseFloat toUpperCase state
       (Some data') dataType_).
Proof.
  intros Hlen Hperm Hbody.
  set (source := split "010" data) in *.
  set (source' := split "010" data') in *.
  assert (Hsix : length (take 6 source) = 6%nat)
    by (rewrite length_take; lia).
  assert (Hsix' : length (take 6 source') = 6%nat)
    by (rewrite <- (Permutation_length Hperm); exact Hsix).
  assert (Hlen' : (6 <= length source')%nat)
    by (rewrite length_take in Hsix'; lia).
  unfold ArcGrid.parseCoverage_. fold source. fold source'.
  rewrite (parse_header parseFloat toUpperCase source Hlen),
          (parse_header parseFloat toUpperCase source' Hlen').
  pose proof (header_valid_iff parseFloat toUpperCase _ Hsix) as Hv.
  pose proof (header_valid_iff parseFloat toUpperCase _ Hsix') as Hv'.
  pose proof (Permutation_map (header_word toUpperCase) Hperm) as Hnames.
  destruct (ArcGrid.header_valid
              (header_of parseFloat toUpperCase (take 6 source) ∅)) eqn:E.
  - assert (Hp : Permutation (map (header_word toUpperCase) (take 6 source))
                   ArcGrid.header_names) by now apply Hv.
    assert (E' : ArcGrid.header_valid
                   (header_of parseFloat toUpperCase (take 6 source') ∅)
                 = true).
    { apply Hv'. eapply Permutation_trans;
        [apply Permutation_sym; exact Hnames | exact Hp]. }
    rewrite E'. cbn [negb].
    rewrite <- (header_of_permuted parseFloat toUpperCase _ _ Hperm).
    + replace (ArcGrid.band_of TYPED_ARRAY parseFloat
                 (header_of parseFloat toUpperCase (take 6 source) ∅)
                 source' dataType_)
        with (ArcGrid.band_of TYPED_ARRAY parseFloat
                (header_of parseFloat toUpperCase (take 6 source) ∅)
                source dataType_)
        by (unfold ArcGrid.band_of; now rewrite Hbody).
      destruct (band_of_ok TYPED_ARRAY parseFloat
                  (header_of parseFloat toUpperCase (take 6 source) ∅)
                  source dataType_) as [band ->].
      split; reflexivity.
    + eapply Permutation_NoDup;
        [apply Permutation_sym; exact Hp | apply header_names_NoDup].
  - assert (E' : ArcGrid.header_valid
                   (header_of parseFloat toUpperCase (take 6 source') ∅)
                 = false).
    { destruct (ArcGrid.header_valid
                  (header_of parseFloat toUpperCase (take 6 source') ∅))
        eqn:E'; [|reflexivity].
      assert (Hp' : Permutation
                      (map (header_word toUpperCase) (take 6 source'))
                      ArcGrid.header_names) by now apply Hv'.
      assert (X : false = true)
        by (apply Hv; eapply Permutation_trans; [exact Hnames | exact Hp']).
      discriminate. }
    rewrite E'. cbn [negb ArcGrid.p_result ArcGrid.p_effects].
    split; reflexivity.
Qed.

Lemma arcgrid_header_order_witness :
  ArcGrid.p_effects
    (ArcGrid.parseCoverage_ true sample_parseFloat sample_toUpperCase
       UNDEFINED (Some sample_grid) FLOAT32) =
  ArcGrid.p_effects
    (ArcGrid.parseCoverage_ true sample_parseFloat sample_toUpperCase
       UNDEFINED (Some sample_grid_swapped) FLOAT32).
Proof.
  apply (arcgrid_header_order true sample_parseFloat sample_toUpperCase
           UNDEFINED sample_grid sample_grid_swapped FLOAT32).
  - vm_compute. lia.
  - vm_compute. apply perm_swap.
  - vm_compute. reflexivity.
Defined.

(** ** Filling the bounds of a style twice *)

Lemma truthy_field (x : number) :
  truthy (of_field (Some x)) = Num.truthy x.
Proof. reflexivity. Qed.

Lemma Monochrome_fill_again (s : Monochrome.t) (bands : list Band.t) :
  Monochrome.fillMissingValues (Monochrome.fillMissingValues s bands) bands =
  Monochrome.fillMissingValues s bands.
Proof.
  destruct s as [mn mx bd ck].
  unfold Monochrome.fillMissingValues at 2.
  cbn [Monochrome.getBandIndex Monochrome.band_].
  destruct bd as [bandIndex|]; [|reflexivity].
  destruct (array_get bands bandIndex) as [band|] eqn:Eband;
    [|unfold Monochrome.fillMissingValues;
      cbn [Monochrome.getBandIndex Monochrome.band_];
      now rewrite Eband].
  unfold Monochrome.fillMissingValues, Monochrome.setMin, Monochrome.setMax,
    Monochrome.getMin, Monochrome.getMax, Monochrome.getBandIndex.
  cbn [Monochrome.min_ Monochrome.max_ Monochrome.band_].
  destruct (truthy (of_field mn)) eqn:Emn;
    destruct (truthy (of_field mx)) eqn:Emx;
    destruct (Num.truthy (Band.min (Band.getStatistics band))) eqn:Ebmin;
    destruct (Num.truthy (Band.max (Band.getStatistics band))) eqn:Ebmax;
    repeat (progress
              (cbn [negb andb Monochrome.min_ Monochrome.max_ Monochrome.band_];
               rewrite ?truthy_field, ?Eband, ?Emn, ?Emx, ?Ebmin, ?Ebmax));
    reflexivity.
Qed.

Lemma Pseudocolor_fill_again (s : Pseudocolor.t) (bands : list Band.t) :
  Pseudocolor.fillMissingValues (Pseudocolor.fillMissingValues s bands) bands
  = Pseudocolor.fillMissingValues s bands.
Proof.
  destruct s as [mn mx bd sc ec md bps ck].
  unfold Pseudocolor.fillMissingValues at 2.
  cbn [Pseudocolor.getBandIndex Pseudocolor.band_].
  destruct bd as [bandIndex|]; [|reflexivity].
  destruct (array_get bands bandIndex) as [band|] eqn:Eband;
    [|unfold Pseudocolor.fillMissingValues;
      cbn [Pseudocolor.getBandIndex Pseudocolor.band_];
      now rewrite Eband].
  unfold Pseudocolor.fillMissingValues, Pseudocolor.setMin,
    Pseudocolor.setMax, Pseudocolor.getMin, Pseudocolor.getMax,
    Pseudocolor.getBandIndex.
  cbn [Pseudocolor.min_ Pseudocolor.max_ Pseudocolor.band_].
  destruct (truthy (of_field mn)) eqn:Emn;
    destruct (truthy (of_field mx)) eqn:Emx;
    destruct (Num.truthy (Band.min (Band.getStatistics band))) eqn:Ebmin;
    destruct (Num.truthy (Band.max (Band.getStatistics band))) eqn:Ebmax;
    repeat (progress
              (cbn [negb andb Pseudocolor.min_ Pseudocolor.max_ Pseudocolor.band_];
               rewrite ?truthy_field, ?Eband, ?Emn, ?Emx, ?Ebmin, ?Ebmax));
    reflexivity.
Qed.

(** X23. Filling the missing bounds of a style from the statistics of the
    bands a second time changes nothing: for each of the three styles, the
    style after two calls of fillMissingValues with the same bands is the
    style after one. *)
Theorem fillMissingValues_idempotent (style : CoverageStyle)
    (bands : list Band.t) :
  Style.fillMissingValues (Style.fillMissingValues style bands) bands =
  Style.fillMissingValues style bands.
Proof.
  destruct style as [s|s|s]; cbn [Style.fillMissingValues].
  - now rewrite Monochrome_fill_again.
  - now rewrite Pseudocolor_fill_again.
  - unfold RGB.fillMissingValues.
    cbn [RGB.getRed RGB.getGreen RGB.getBlue RGB.red_ RGB.green_ RGB.blue_].
    now rewrite !Monochrome_fill_again.
Qed.
